(** * Sensitive-word filter: Aho-Corasick automaton and its two scanners

    A shallow embedding of [src/index.ts]: the classes [TrieNode] and
    [SensitiveWordFilter].  JavaScript objects live in a heap (a list of
    nodes addressed by index, the root at index 0), strings are sequences
    of UTF-16 code units, and [Map] is an association list kept in
    insertion order. *)

From Stdlib Require Import ZArith List Lia Bool.
From stdpp Require Import base tactics option list sets sorting.

Open Scope Z_scope.
Open Scope nat_scope.

#[local] Set Warnings "-clear-no-such-hyp".

(** ** JavaScript strings *)

(** A string is its sequence of UTF-16 code units; [s.length] is
    [length s] and [s[j]] is the one-unit string at index [j]. *)
Abbreviation jsstring := (list Z).

Definition is_lead (u : Z) : bool := ((0xD800 <=? u) && (u <=? 0xDBFF))%Z.
Definition is_trail (u : Z) : bool := ((0xDC00 <=? u) && (u <=? 0xDFFF))%Z.

(** [for (const char of s)]: the string iterator yields one string per
    code point, a lead surrogate followed by a trail surrogate being one
    element of two units. *)
Fixpoint code_points (s : jsstring) : list jsstring :=
  match s with
  | [] => []
  | u :: t =>
      match t with
      | v :: t' =>
          if is_lead u && is_trail v then [u; v] :: code_points t'
          else [u] :: code_points t
      | [] => [[u]]
      end
  end.

Definition clamp (len : nat) (x : Z) : nat :=
  Z.to_nat (Z.min (Z.max x 0) (Z.of_nat len)).

(** [s.substring(a, b)]: both bounds are clamped to [0, s.length] and
    swapped when [a > b]. *)
Definition substring (s : jsstring) (a b : Z) : jsstring :=
  let a' := clamp (length s) a in
  let b' := clamp (length s) b in
  take (Nat.max a' b' - Nat.min a' b') (drop (Nat.min a' b') s).

(** ** Results of loops that may fail *)

(** [TypeError] is the exception raised by reading a property of [null];
    [OutOfFuel] is the model's own bound on the [while] loops. *)
Inductive outcome (A : Type) : Type :=
  | Ok (a : A)
  | TypeError
  | OutOfFuel.
Arguments Ok {A} a.
Arguments TypeError {A}.
Arguments OutOfFuel {A}.

Definition bind {A B} (m : outcome A) (k : A -> outcome B) : outcome B :=
  match m with
  | Ok a => k a
  | TypeError => TypeError
  | OutOfFuel => OutOfFuel
  end.

Notation "'let*' x ':=' m 'in' k" := (bind m (fun x => k))
  (at level 10, x name, m at level 100, k at level 200).

(** ** class TrieNode *)

Record TrieNode := mkNode {
  children : list (jsstring * nat);  (* Map<string, TrieNode>, insertion order *)
  fail : option nat;                 (* TrieNode | null *)
  tn_end : bool;                     (* end *)
  tn_length : nat                    (* length *)
}.

Definition newTrieNode : TrieNode :=
  {| children := []; fail := None; tn_end := false; tn_length := 0 |}.

#[global] Instance TrieNode_inhabited : Inhabited TrieNode := populate newTrieNode.

Abbreviation heap := (list TrieNode).

(** The receiver of [addWord] and [buildFailPointers], and
    [SensitiveWordFilter.root]. *)
Definition root : nat := 0.

Fixpoint map_get (char : jsstring) (m : list (jsstring * nat)) : option nat :=
  match m with
  | [] => None
  | (k, v) :: m' => if decide (k = char) then Some v else map_get char m'
  end.

Definition map_has (char : jsstring) (m : list (jsstring * nat)) : bool :=
  match map_get char m with Some _ => true | None => false end.

Definition add_child (nd : TrieNode) (char : jsstring) (child : nat) : TrieNode :=
  {| children := children nd ++ [(char, child)]; fail := fail nd;
     tn_end := tn_end nd; tn_length := tn_length nd |}.

Definition set_end (nd : TrieNode) (len : nat) : TrieNode :=
  {| children := children nd; fail := fail nd; tn_end := true; tn_length := len |}.

Definition set_fail (nd : TrieNode) (f : option nat) : TrieNode :=
  {| children := children nd; fail := f; tn_end := tn_end nd; tn_length := tn_length nd |}.

(** The loop of [addWord]: a missing child is allocated at the end of the
    heap and registered in the parent's map. *)
Fixpoint addWord_loop (h : heap) (node : nat) (chars : list jsstring) : heap * nat :=
  match chars with
  | [] => (h, node)
  | char :: rest =>
      match map_get char (children (h !!! node)) with
      | Some child => addWord_loop h child rest
      | None =>
          let child := length h in
          addWord_loop (<[node := add_child (h !!! node) char child]> h ++ [newTrieNode])
                       child rest
      end
  end.

Definition addWord (h : heap) (word : jsstring) : heap :=
  let '(h', node) := addWord_loop h root (code_points word) in
  <[node := set_end (h' !!! node) (length word)]> h'.

(** [while (fail !== null && !fail.children.has(char)) fail = fail.fail] *)
Fixpoint fail_search (fuel : nat) (h : heap) (f : option nat) (char : jsstring)
  : outcome (option nat) :=
  match f with
  | None => Ok None
  | Some n =>
      if map_has char (children (h !!! n)) then Ok (Some n)
      else match fuel with
           | 0 => OutOfFuel
           | S fuel' => fail_search fuel' h (fail (h !!! n)) char
           end
  end.

(** The value assigned to [childNode.fail] in the [forEach] callback. *)
Definition child_fail (h : heap) (current : nat) (char : jsstring) : outcome (option nat) :=
  if current =? root then Ok (Some root)
  else
    let* f := fail_search (length h) h (fail (h !!! current)) char in
    Ok (match f with
        | Some n => map_get char (children (h !!! n))
        | None => Some root
        end).

Fixpoint forEach_children (h : heap) (queue : list nat) (current : nat)
    (kids : list (jsstring * nat)) : outcome (heap * list nat) :=
  match kids with
  | [] => Ok (h, queue)
  | (char, childNode) :: kids' =>
      let* f := child_fail h current char in
      forEach_children (<[childNode := set_fail (h !!! childNode) f]> h)
                       (queue ++ [childNode]) current kids'
  end.

(** [while (queue.length > 0)]; one unit of fuel per dequeued node. *)
Fixpoint bfs (fuel : nat) (h : heap) (queue : list nat) : outcome heap :=
  match queue with
  | [] => Ok h
  | current :: queue' =>
      match fuel with
      | 0 => OutOfFuel
      | S fuel' =>
          let* r := forEach_children h queue' current (children (h !!! current)) in
          bfs fuel' (fst r) (snd r)
      end
  end.

Definition buildFailPointers (h : heap) : outcome heap :=
  bfs (length h) (<[root := set_fail (h !!! root) None]> h) [root].

(** ** class SensitiveWordFilter *)

(** The automaton after the [addWord] calls of [loadSensitiveWords], before
    [buildFailPointers]. *)
Definition insertWords (D : list jsstring) : heap :=
  fold_left addWord D [newTrieNode].

(** [loadSensitiveWords], for the sequence [D] of words it hands to
    [addWord]. *)
Definition loadSensitiveWords (D : list jsstring) : outcome heap :=
  buildFailPointers (insertWords D).

Record Match := mkMatch { word : jsstring; start : Z; m_end : Z }.

(** [while (node !== this.root && !node.children.has(char)) node = node.fail!] *)
Fixpoint follow_fail (fuel : nat) (h : heap) (node : option nat) (char : jsstring)
  : outcome nat :=
  match node with
  | None => TypeError
  | Some n =>
      if (n =? root) || map_has char (children (h !!! n)) then Ok n
      else match fuel with
           | 0 => OutOfFuel
           | S fuel' => follow_fail fuel' h (fail (h !!! n)) char
           end
  end.

Definition found_at (text : jsstring) (currentIndex : Z) (wordLength : nat) : Match :=
  {| word := substring text (currentIndex - Z.of_nat wordLength + 1) (currentIndex + 1);
     start := currentIndex - Z.of_nat wordLength + 1;
     m_end := currentIndex |}.

(** [while (tempNode !== this.root) { if (tempNode.end) push; tempNode = tempNode.fail! }] *)
Fixpoint report (fuel : nat) (h : heap) (text : jsstring) (currentIndex : Z)
    (tempNode : option nat) (foundWords : list Match) : outcome (list Match) :=
  match tempNode with
  | None => TypeError
  | Some n =>
      if n =? root then Ok foundWords
      else
        let foundWords' :=
          if tn_end (h !!! n)
          then foundWords ++ [found_at text currentIndex (tn_length (h !!! n))]
          else foundWords in
        match fuel with
        | 0 => OutOfFuel
        | S fuel' => report fuel' h text currentIndex (fail (h !!! n)) foundWords'
        end
  end.

Definition scan_state : Type := nat * Z * list Match.

(** One iteration of [for (const char of text)]. *)
Definition scan_step (h : heap) (text : jsstring) (st : scan_state) (char : jsstring)
  : outcome scan_state :=
  let '(node, currentIndex, foundWords) := st in
  let* n := follow_fail (length h) h (Some node) char in
  let node' := match map_get char (children (h !!! n)) with
               | Some child => child
               | None => root
               end in
  let* foundWords' := report (length h) h text currentIndex (Some node') foundWords in
  Ok (node', (currentIndex + 1)%Z, foundWords').

Fixpoint scan_loop (h : heap) (text : jsstring) (st : scan_state) (chars : list jsstring)
  : outcome scan_state :=
  match chars with
  | [] => Ok st
  | char :: rest => let* st' := scan_step h text st char in scan_loop h text st' rest
  end.

Definition findSensitiveWords (h : heap) (text : jsstring) : outcome (list Match) :=
  let* st := scan_loop h text (root, 0%Z, []) (code_points text) in
  Ok (snd st).

(** [for (let k = matchStart; k <= potentialEnd; k++) activeRegions[k] = 1] *)
Definition mark (activeRegions : list Z) (matchStart potentialEnd : nat) : list Z :=
  fold_left (fun a k => <[k := 1%Z]> a) (seq matchStart (S potentialEnd - matchStart))
            activeRegions.

(** The inner loop [for (let j = i; j < text.length; j++)]: [rest] is the
    text from index [j] on.  The result is [potentialEnd] when a word was
    found and [None] when the loop ended without one. *)
Fixpoint fuzzy_inner (h : heap) (maxSkip : Z) (rest : jsstring) (j : nat)
    (currentNode : nat) (skipped : Z) : option nat :=
  match rest with
  | [] => None
  | u :: rest' =>
      match map_get [u] (children (h !!! currentNode)) with
      | Some next =>
          if tn_end (h !!! next) then Some j
          else fuzzy_inner h maxSkip rest' (S j) next 0%Z
      | None =>
          if negb (currentNode =? root) && (skipped <? maxSkip)%Z
          then fuzzy_inner h maxSkip rest' (S j) currentNode (skipped + 1)%Z
          else None
      end
  end.

Definition fuzzy_state : Type := list Z * list Match.

(** One iteration of the outer loop [for (let i = 0; i < text.length; i++)]. *)
Definition fuzzy_step (h : heap) (text : jsstring) (maxSkip : Z)
    (st : fuzzy_state) (i : nat) : fuzzy_state :=
  let '(activeRegions, foundWords) := st in
  if decide (activeRegions !! i = Some 1%Z) then st
  else
    match fuzzy_inner h maxSkip (drop i text) i root 0%Z with
    | Some potentialEnd =>
        (mark activeRegions i potentialEnd,
         foundWords ++ [ {| word := substring text (Z.of_nat i) (Z.of_nat potentialEnd + 1);
                            start := Z.of_nat i;
                            m_end := Z.of_nat potentialEnd |} ])
    | None => st
    end.

Definition findSensitiveWordsFuzzy (h : heap) (text : jsstring) (maxSkip : Z) : list Match :=
  snd (fold_left (fuzzy_step h text maxSkip) (seq 0 (length text))
                 (replicate (length text) 0%Z, [])).

(** ** Paths in the trie *)

(** The node reached from [n] along the characters of [p], if any. *)
Fixpoint walk (h : heap) (n : nat) (p : list jsstring) : option nat :=
  match p with
  | [] => Some n
  | char :: p' =>
      match map_get char (children (h !!! n)) with
      | Some child => walk h child p'
      | None => None
      end
  end.

(** [p] is a prefix of some inserted word. *)
Definition in_trie (h : heap) (p : list jsstring) : bool :=
  match walk h root p with Some _ => true | None => false end.

(** The longest suffix of [l] that satisfies [P], the empty list when no
    non-empty suffix does. *)
Fixpoint longest_suffix {A} (P : list A -> bool) (l : list A) : list A :=
  match l with
  | [] => []
  | _ :: l' => if P l then l else longest_suffix P l'
  end.

(** The failure link a node with path [p] must carry: the node of the
    longest proper suffix of [p] that is a path of the trie. *)
Definition fail_spec (h : heap) (p : list jsstring) : option nat :=
  match p with
  | [] => None
  | _ :: p' => walk h root (longest_suffix (in_trie h) p')
  end.

Definition fail_ok (h : heap) (n : nat) : Prop :=
  forall p, walk h root p = Some n -> fail (h !!! n) = fail_spec h p.

(** The heap is a trie rooted at index 0: children are allocated after
    their parent, every key is a non-empty character, keys are unique in a
    node, and every node has exactly one path from the root. *)
Record trie_shape (h : heap) : Prop := {
  ts_root : 0 < length h;
  ts_child : forall n c m,
      map_get c (children (h !!! n)) = Some m -> n < m /\ m < length h /\ c <> [];
  ts_nodup : forall n, NoDup (children (h !!! n)).*1;
  ts_inj : forall p q n, walk h root p = Some n -> walk h root q = Some n -> p = q;
  ts_reach : forall n, n < length h -> exists p, walk h root p = Some n
}.

(** The terminal flags record exactly the words of [D]. *)
Record terminal_ok (D : list jsstring) (h : heap) : Prop := {
  to_word : forall w, w ∈ D ->
      exists n, walk h root (code_points w) = Some n /\ tn_end (h !!! n) = true;
  to_end : forall p n, walk h root p = Some n -> tn_end (h !!! n) = true ->
      (exists w, w ∈ D /\ code_points w = p) /\ tn_length (h !!! n) = length (concat p)
}.

(** Two heaps that differ at most in their failure links. *)
Definition same_shape (h h' : heap) : Prop :=
  length h = length h' /\
  forall n, children (h !!! n) = children (h' !!! n) /\
            tn_end (h !!! n) = tn_end (h' !!! n) /\
            tn_length (h !!! n) = tn_length (h' !!! n).

(** [h'] is [h] with nodes allocated and children registered, nothing
    else changed. *)
Record extends (h h' : heap) : Prop := {
  ext_length : length h <= length h';
  ext_walk : forall p y, walk h root p = Some y -> walk h' root p = Some y;
  ext_old : forall p y, walk h' root p = Some y -> y < length h -> walk h root p = Some y;
  ext_end : forall y, y < length h ->
      tn_end (h' !!! y) = tn_end (h !!! y) /\ tn_length (h' !!! y) = tn_length (h !!! y);
  ext_new : forall y, length h <= y -> tn_end (h' !!! y) = false;
  ext_fail : (forall y, fail (h !!! y) = None) -> forall y, fail (h' !!! y) = None
}.

Definition add_leaf (h : heap) (n : nat) (c : jsstring) : heap :=
  <[n := add_child (h !!! n) c (length h)]> h ++ [newTrieNode].

(** ** The breadth-first traversal *)

Definition kids (h : heap) (n : nat) : list nat := (children (h !!! n)).*2.

(** State of the traversal: [P] the nodes already dequeued, the queue split
    into the nodes [Qa] of the current depth [d] and the nodes [Qb] of depth
    [d + 1]. *)
Record bfs_inv (h : heap) (P Qa Qb : list nat) (d : nat) : Prop := {
  bi_shape : trie_shape h;
  bi_valid : forall x, x ∈ P ++ Qa ++ Qb -> x < length h;
  bi_root : root ∈ P ++ Qa ++ Qb;
  bi_kids : forall x k, x ∈ P -> k ∈ kids h x -> k ∈ P ++ Qa ++ Qb;
  bi_parent : forall k, k ∈ P ++ Qa ++ Qb -> k = root \/ exists x, x ∈ P /\ k ∈ kids h x;
  bi_nodup : NoDup (P ++ Qa ++ Qb);
  bi_fail : forall x, x ∈ P ++ Qa ++ Qb -> fail_ok h x;
  bi_front : forall x p, x ∈ Qa -> walk h root p = Some x -> length p = d;
  bi_back : forall x p, x ∈ Qb -> walk h root p = Some x -> length p = S d;
  bi_all : forall x p, walk h root p = Some x -> length p <= d -> x ∈ P ++ Qa
}.

(** What [loadSensitiveWords] establishes. *)
Record built (D : list jsstring) (a : heap) : Prop := {
  bt_shape : trie_shape a;
  bt_words : terminal_ok D a;
  bt_fail : forall x, x < length a -> fail_ok a x;
  bt_same : same_shape (insertWords D) a
}.

(** ** What the exact scanner reports *)

(** [q] is the character sequence of a word of the dictionary. *)
Definition is_word (D : list jsstring) (q : list jsstring) : bool :=
  bool_decide (q ∈ code_points <$> D).

(** The non-empty suffixes of [l] accepted by [term], longest first. *)
Fixpoint suffix_words (term : list jsstring -> bool) (l : list jsstring)
  : list (list jsstring) :=
  match l with
  | [] => []
  | _ :: l' => (if term l then [l] else []) ++ suffix_words term l'
  end.

(** The match pushed for the word with characters [q] ending at character
    index [i]. *)
Definition found_by (text : jsstring) (i : nat) (q : list jsstring) : Match :=
  found_at text (Z.of_nat i) (length (concat q)).

(** The matches pushed while reading [rest], the characters [pre] having
    been read before: at each character, the dictionary words that are a
    suffix of what has been read, longest first. *)
Fixpoint scan_spec (D : list jsstring) (text : jsstring) (pre rest : list jsstring)
  : list Match :=
  match rest with
  | [] => []
  | c :: rest' =>
      (found_by text (length pre) <$> suffix_words (is_word D) (pre ++ [c]))
      ++ scan_spec D text (pre ++ [c]) rest'
  end.

(** ** Order of the reported matches *)

(** [m1] may be reported before [m2]: it ends earlier, or at the same
    position with a longer span (and a [word] at least as long). *)
Definition reported_before (m1 m2 : Match) : Prop :=
  (m_end m1 <= m_end m2)%Z /\
  (m_end m1 = m_end m2 ->
   (m_end m2 - start m2 + 1 < m_end m1 - start m1 + 1)%Z /\
   length (word m2) <= length (word m1)).

(** The depth of a node: the length of its path from the root. *)
Definition depth_is (h : heap) (n d : nat) : Prop :=
  exists p, walk h root p = Some n /\ length p = d.

(** ** State of the fuzzy scanner's outer loop *)

(** Before the iteration [i]: every match found so far starts before [i],
    its span is marked in [activeRegions], and the spans found so far
    follow one another without touching the same position. *)
Record fuzzy_inv (text : jsstring) (i : nat) (st : fuzzy_state) : Prop := {
  fi_length : length (fst st) = length text;
  fi_span : forall m, m ∈ snd st ->
      (0 <= start m <= m_end m)%Z /\ (start m < Z.of_nat i)%Z /\
      (m_end m < Z.of_nat (length text))%Z /\
      forall p, (start m <= Z.of_nat p <= m_end m)%Z -> fst st !! p = Some 1%Z;
  fi_sorted : StronglySorted (fun m1 m2 => (m_end m1 < start m2)%Z) (snd st)
}.

(** ** The fuzzy scanner with its matched positions *)

(** [fuzzy_inner], returning next to [potentialEnd] the indices [j] at
    which the branch [currentNode.children.has(char)] was taken, in the
    order of the loop. *)
Fixpoint fuzzy_inner_trace (h : heap) (maxSkip : Z) (rest : jsstring) (j : nat)
    (currentNode : nat) (skipped : Z) : option (nat * list nat) :=
  match rest with
  | [] => None
  | u :: rest' =>
      match map_get [u] (children (h !!! currentNode)) with
      | Some next =>
          if tn_end (h !!! next) then Some (j, [j])
          else match fuzzy_inner_trace h maxSkip rest' (S j) next 0%Z with
               | Some (e, tr) => Some (e, j :: tr)
               | None => None
               end
      | None =>
          if negb (currentNode =? root) && (skipped <? maxSkip)%Z
          then fuzzy_inner_trace h maxSkip rest' (S j) currentNode (skipped + 1)%Z
          else None
      end
  end.

Definition fuzzy_step_trace (h : heap) (text : jsstring) (maxSkip : Z)
    (st : list Z * list (Match * list nat)) (i : nat) : list Z * list (Match * list nat) :=
  let '(activeRegions, foundWords) := st in
  if decide (activeRegions !! i = Some 1%Z) then st
  else
    match fuzzy_inner_trace h maxSkip (drop i text) i root 0%Z with
    | Some (potentialEnd, matched) =>
        (mark activeRegions i potentialEnd,
         foundWords ++ [ ({| word := substring text (Z.of_nat i) (Z.of_nat potentialEnd + 1);
                             start := Z.of_nat i;
                             m_end := Z.of_nat potentialEnd |}, matched) ])
    | None => st
    end.

(** Each returned match together with the text positions its scan matched. *)
Definition findSensitiveWordsFuzzy_trace (h : heap) (text : jsstring) (maxSkip : Z)
  : list (Match * list nat) :=
  snd (fold_left (fuzzy_step_trace h text maxSkip) (seq 0 (length text))
                 (replicate (length text) 0%Z, [])).

(** From [prev] on, each position of [tr] lies after the one before it,
    with at most [maxSkip] positions in between. *)
Fixpoint gaps_within (maxSkip : Z) (prev : nat) (tr : list nat) : Prop :=
  match tr with
  | [] => True
  | q :: tr' =>
      prev < q /\ (Z.of_nat q - Z.of_nat prev - 1 <= maxSkip)%Z /\ gaps_within maxSkip q tr'
  end.

(** The characters of [rest], which starts at index [j], at the positions [tr]. *)
Definition chars_at (rest : jsstring) (j : nat) (tr : list nat) : list jsstring :=
  (fun p => [rest !!! (p - j)]) <$> tr.

(** ** Concrete strings used in the examples *)

(** U+1F600, one code point of two code units. *)
Definition str_grin : jsstring := [0xD83D; 0xDE00]%Z.
Definition str_she : jsstring := [115; 104; 101]%Z.
Definition str_he : jsstring := [104; 101]%Z.
Definition str_abc : jsstring := [97; 98; 99]%Z.
Definition str_bcd : jsstring := [98; 99; 100]%Z.
Definition str_xabcdy : jsstring := [120; 97; 98; 99; 100; 121]%Z.
Definition str_kill : jsstring := [107; 105; 108; 108]%Z.
Definition str_k1i2l3l : jsstring := [107; 49; 105; 50; 108; 51; 108]%Z.
Definition str_ab : jsstring := [97; 98]%Z.
Definition str_a : jsstring := [97]%Z.
Definition str_b : jsstring := [98]%Z.
Definition str_aa : jsstring := [97; 97]%Z.

(** State of the fuzzy scanner's outer loop, for coverage: a marked position
    lies in a span found so far, and so does every position before [i] from
    which the inner loop finds a word. *)
Record cover_inv (h : heap) (text : jsstring) (maxSkip : Z) (i : nat)
    (st : fuzzy_state) : Prop := {
  ci_marked : forall p, fst st !! p = Some 1%Z ->
      exists m, m ∈ snd st /\ (start m <= Z.of_nat p <= m_end m)%Z;
  ci_found : forall p, p < i ->
      fuzzy_inner h maxSkip (drop p text) p root 0%Z <> None ->
      exists m, m ∈ snd st /\ (start m <= Z.of_nat p <= m_end m)%Z
}.

(** ** [loadSensitiveWords] on the files of a directory *)

(** The code units [trim] removes: [WhiteSpace] and [LineTerminator]. *)
Definition is_space (u : Z) : bool :=
  ((u =? 0x9) || (u =? 0xA) || (u =? 0xB) || (u =? 0xC) || (u =? 0xD)
   || (u =? 0x20) || (u =? 0xA0) || (u =? 0x1680)
   || ((0x2000 <=? u) && (u <=? 0x200A))
   || (u =? 0x2028) || (u =? 0x2029) || (u =? 0x202F) || (u =? 0x205F)
   || (u =? 0x3000) || (u =? 0xFEFF))%Z.

Fixpoint trimStart (s : jsstring) : jsstring :=
  match s with
  | [] => []
  | u :: t => if is_space u then trimStart t else s
  end.

Definition trimEnd (s : jsstring) : jsstring := reverse (trimStart (reverse s)).

(** [s.trim()] *)
Definition trim (s : jsstring) : jsstring := trimEnd (trimStart s).

(** [s.split("\n")]: the pieces between line feeds, one more than there are
    line feeds. *)
Fixpoint split_lines (s : jsstring) : list jsstring :=
  match s with
  | [] => [[]]
  | u :: t =>
      if (u =? 0xA)%Z then [] :: split_lines t
      else match split_lines t with
           | l :: ls => (u :: l) :: ls
           | [] => [[u]]
           end
  end.

(** [s.endsWith(suffix)] *)
Definition endsWith (s suffix : jsstring) : bool := bool_decide (suffix `suffix_of` s).

(** ".txt" *)
Definition str_dot_txt : jsstring := [46; 116; 120; 116]%Z.

(** The callback of [content.split("\n").forEach]: a line whose [trim()] is
    the empty string (falsy) is passed over. *)
Definition addLine (h : heap) (word : jsstring) : heap :=
  match trim word with
  | [] => h
  | _ :: _ => addWord h (trim word)
  end.

(** The body of [for (const file of files)]; a file is the name [readdir]
    lists and the content [readFile] returns for it. *)
Definition loadFile (h : heap) (file : jsstring * jsstring) : heap :=
  if endsWith file.1 str_dot_txt
  then fold_left addLine (split_lines file.2) h
  else h.

(** [loadSensitiveWords(dir)], for the files of [dir] in the order of
    [readdir]. *)
Definition loadSensitiveWords_dir (files : list (jsstring * jsstring)) : outcome heap :=
  buildFailPointers (fold_left loadFile files [newTrieNode]).

(** The words a file contributes, and those of a directory. *)
Definition file_words (file : jsstring * jsstring) : list jsstring :=
  if endsWith file.1 str_dot_txt
  then filter (fun w => w <> []) (trim <$> split_lines file.2)
  else [].

Definition directory_words (files : list (jsstring * jsstring)) : list jsstring :=
  files ≫= file_words.

(** "w.txt", "w.md" and the content "he\n she \n\n". *)
Definition str_w_txt : jsstring := [119; 46; 116; 120; 116]%Z.
Definition str_w_md : jsstring := [119; 46; 109; 100]%Z.
Definition str_lines : jsstring := [104; 101; 10; 32; 115; 104; 101; 32; 10; 10]%Z.
Definition str_padded_she : jsstring := [32; 115; 104; 101; 32]%Z.


(** * Properties *)

(** ** Strings *)

Lemma code_points_cons2 u v t :
  code_points (u :: v :: t) =
  if is_lead u && is_trail v then [u; v] :: code_points t
  else [u] :: code_points (v :: t).
Proof. reflexivity. Qed.

Lemma concat_code_points (s : jsstring) : concat (code_points s) = s.
Proof.
  remember (length s) as k eqn:Hk.
  revert s Hk. induction k as [k IH] using lt_wf_ind. intros s Hk.
  destruct s as [|u [|v t]]; try reflexivity.
  rewrite code_points_cons2.
  destruct (is_lead u && is_trail v); rewrite concat_cons.
  - rewrite (IH (length t)); [reflexivity | simpl in *; lia | reflexivity].
  - rewrite (IH (length (v :: t))); [reflexivity | simpl in *; lia | reflexivity].
Qed.

Lemma code_points_nonempty (s : jsstring) : Forall (fun c => c <> []) (code_points s).
Proof.
  remember (length s) as k eqn:Hk.
  revert s Hk. induction k as [k IH] using lt_wf_ind. intros s Hk.
  destruct s as [|u [|v t]].
  - constructor.
  - repeat constructor. discriminate.
  - rewrite code_points_cons2.
    destruct (is_lead u && is_trail v); constructor; try discriminate.
    + apply (IH (length t)); simpl in *; lia.
    + apply (IH (length (v :: t))); simpl in *; lia.
Qed.

(** A string without lead surrogates is iterated unit by unit. *)
Lemma code_points_bmp (s : jsstring) :
  Forall (fun u => is_lead u = false) s -> code_points s = (fun u => [u]) <$> s.
Proof.
  induction 1 as [|u t Hu Ht IH]; [reflexivity|].
  rewrite fmap_cons, <- IH. destruct t as [|v t']; [reflexivity|].
  rewrite code_points_cons2, Hu. reflexivity.
Qed.

(** ** The [Map] of a node *)

Lemma map_get_app c l k v :
  map_get c (l ++ [(k, v)]) =
  match map_get c l with
  | Some x => Some x
  | None => if decide (k = c) then Some v else None
  end.
Proof.
  induction l as [|[k' v'] l IH]; simpl.
  - reflexivity.
  - destruct (decide (k' = c)); [reflexivity | exact IH].
Qed.

Lemma map_get_None c l : map_get c l = None <-> c ∉ l.*1.
Proof.
  induction l as [|[k v] l IH].
  - split; [intros _; apply not_elem_of_nil | reflexivity].
  - rewrite fmap_cons, not_elem_of_cons. simpl.
    destruct (decide (k = c)) as [->|Hne].
    + split; [discriminate | intros [? _]; congruence].
    + rewrite IH. split; [intros ?; split; congruence | intros [_ ?]; assumption].
Qed.

Lemma map_get_elem c v l :
  NoDup l.*1 -> (c, v) ∈ l -> map_get c l = Some v.
Proof.
  induction l as [|[k w] l IH]; intros Hnd Hin.
  - apply elem_of_nil in Hin. contradiction.
  - rewrite fmap_cons in Hnd. simpl in Hnd. simpl.
    apply NoDup_cons in Hnd as [Hk Hnd].
    apply elem_of_cons in Hin as [Heq|Hin].
    + inversion Heq; subst. destruct (decide (k = k)); congruence.
    + destruct (decide (k = c)) as [->|Hne].
      * exfalso. apply Hk. apply (list_elem_of_fmap_2 fst) in Hin. exact Hin.
      * apply IH; assumption.
Qed.

Lemma map_get_Some_elem c v l : map_get c l = Some v -> (c, v) ∈ l.
Proof.
  induction l as [|[k w] l IH]; simpl; [discriminate|].
  destruct (decide (k = c)) as [->|Hne]; intros H.
  - inversion H; subst. apply elem_of_cons. left. reflexivity.
  - apply elem_of_cons. right. apply IH. exact H.
Qed.

Lemma map_has_true c l : map_has c l = true <-> exists v, map_get c l = Some v.
Proof.
  unfold map_has. destruct (map_get c l); split; eauto; try discriminate.
  intros [? ?]; discriminate.
Qed.

(** ** Paths *)

Lemma walk_app h n p q :
  walk h n (p ++ q) = match walk h n p with Some m => walk h m q | None => None end.
Proof.
  revert n. induction p as [|c p IH]; intros n; simpl; [reflexivity|].
  destruct (map_get c (children (h !!! n))); [apply IH | reflexivity].
Qed.

Lemma walk_snoc h n p c :
  walk h n (p ++ [c]) =
  match walk h n p with
  | Some m => map_get c (children (h !!! m))
  | None => None
  end.
Proof.
  rewrite walk_app. destruct (walk h n p); [|reflexivity].
  simpl. destruct (map_get c (children (h !!! n0))); reflexivity.
Qed.

Lemma same_shape_walk h h' n p : same_shape h h' -> walk h n p = walk h' n p.
Proof.
  intros [_ Hs]. revert n. induction p as [|c p IH]; intros n; simpl; [reflexivity|].
  destruct (Hs n) as [-> _].
  destruct (map_get c (children (h' !!! n))); [apply IH | reflexivity].
Qed.

Lemma same_shape_refl h : same_shape h h.
Proof. split; [reflexivity | intros n; repeat split]. Qed.

Lemma same_shape_trans h1 h2 h3 : same_shape h1 h2 -> same_shape h2 h3 -> same_shape h1 h3.
Proof.
  intros [Hl1 H1] [Hl2 H2]. split; [congruence|].
  intros n. destruct (H1 n) as (-> & -> & ->). apply H2.
Qed.

Lemma same_shape_sym h1 h2 : same_shape h1 h2 -> same_shape h2 h1.
Proof.
  intros [Hl H]. split; [congruence|].
  intros n. destruct (H n) as (-> & -> & ->). repeat split.
Qed.

(** ** Allocation of a new child *)

Lemma lookup_total_default (h : heap) n : length h <= n -> h !!! n = newTrieNode.
Proof.
  intros H. rewrite list_lookup_total_alt.
  rewrite (lookup_ge_None_2 h n H). reflexivity.
Qed.

Lemma lookup_update (h : heap) k nd n :
  k < length h -> (<[k := nd]> h) !!! n = if decide (n = k) then nd else h !!! n.
Proof.
  intros Hk. destruct (decide (n = k)) as [->|Hne].
  - apply list_lookup_total_insert_eq. exact Hk.
  - apply list_lookup_total_insert_ne. congruence.
Qed.

Lemma lookup_add_leaf h n c x :
  n < length h ->
  add_leaf h n c !!! x =
  if decide (x = n) then add_child (h !!! n) c (length h) else h !!! x.
Proof.
  intros Hn. unfold add_leaf.
  destruct (decide (x < length h)) as [Hx|Hx].
  - rewrite lookup_total_app_l by (rewrite length_insert; exact Hx).
    apply lookup_update. exact Hn.
  - destruct (decide (x = n)) as [->|_]; [lia|].
    rewrite (lookup_total_default h x) by lia.
    destruct (decide (x = length h)) as [->|Hx'].
    + apply list_lookup_total_middle. rewrite length_insert. reflexivity.
    + apply lookup_total_default. rewrite length_app, length_insert. simpl. lia.
Qed.

Lemma length_add_leaf h n c : length (add_leaf h n c) = S (length h).
Proof. unfold add_leaf. rewrite length_app, length_insert. simpl. lia. Qed.

Lemma walk_lt h x p y :
  trie_shape h -> x < length h -> walk h x p = Some y -> y < length h.
Proof.
  intros Hs. revert x. induction p as [|c p IH]; intros x Hx; simpl.
  - intros [= <-]. exact Hx.
  - destruct (map_get c (children (h !!! x))) as [z|] eqn:Hz; [|discriminate].
    apply IH. apply (ts_child h Hs) in Hz. tauto.
Qed.

(** A path climbs through strictly increasing indices, so it is shorter
    than the heap. *)
Lemma walk_index h x p y :
  trie_shape h -> walk h x p = Some y -> x + length p <= y.
Proof.
  intros Hs. revert x. induction p as [|c p IH]; intros x; simpl.
  - intros [= <-]. lia.
  - destruct (map_get c (children (h !!! x))) as [z|] eqn:Hz; [|discriminate].
    intros Hw. apply IH in Hw. apply (ts_child h Hs) in Hz. lia.
Qed.

Lemma walk_length h p y :
  trie_shape h -> walk h root p = Some y -> length p < length h.
Proof.
  intros Hs Hw. pose proof (walk_index h root p y Hs Hw).
  pose proof (walk_lt h root p y Hs (ts_root h Hs) Hw). unfold root in *. lia.
Qed.

Lemma walk_root_nil h p :
  trie_shape h -> walk h root p = Some root -> p = [].
Proof.
  intros Hs Hw. apply (ts_inj h Hs p [] root Hw). reflexivity.
Qed.

Lemma walk_nonempty h x p :
  trie_shape h -> walk h x p <> None -> Forall (fun c => c <> []) p.
Proof.
  intros Hs. revert x. induction p as [|c p IH]; intros x; simpl; [constructor|].
  destruct (map_get c (children (h !!! x))) as [z|] eqn:Hz; [|congruence].
  intros Hw. constructor.
  - apply (ts_child h Hs) in Hz. tauto.
  - apply (IH z). exact Hw.
Qed.

Lemma walk_add_leaf h n c p x y :
  trie_shape h -> n < length h -> map_get c (children (h !!! n)) = None ->
  x < length h ->
  walk (add_leaf h n c) x p = Some y <->
  walk h x p = Some y \/
  (y = length h /\ exists p', p = p' ++ [c] /\ walk h x p' = Some n).
Proof.
  intros Hs Hn Hc. revert x. induction p as [|a p IH]; intros x Hx.
  - simpl. split.
    + intros H. left. exact H.
    + intros [H|(_ & p' & Hp & _)]; [exact H|].
      destruct p'; discriminate.
  - simpl. rewrite (lookup_add_leaf h n c x Hn).
    destruct (decide (x = n)) as [->|Hxn].
    + simpl. rewrite map_get_app.
      destruct (map_get a (children (h !!! n))) as [z|] eqn:Hz.
      * assert (Hzl : z < length h) by (apply (ts_child h Hs) in Hz; tauto).
        rewrite (IH z Hzl). split.
        -- intros [H|(Hy & p' & -> & Hw)]; [left; exact H|].
           right. split; [exact Hy|]. exists (a :: p'). split; [reflexivity|].
           simpl. rewrite Hz. exact Hw.
        -- intros [H|(Hy & p' & Hp & Hw)]; [left; exact H|].
           right. split; [exact Hy|].
           destruct p' as [|b p'']; simpl in Hp.
           ++ inversion Hp; subst. congruence.
           ++ inversion Hp; subst. exists p''. split; [reflexivity|].
              simpl in Hw. rewrite Hz in Hw. exact Hw.
      * destruct (decide (c = a)) as [->|Hca].
        -- assert (Hnew : forall q, walk (add_leaf h n a) (length h) q = Some y
                                    <-> q = [] /\ y = length h).
           { intros q. destruct q as [|b q]; simpl.
             - split; [intros [= <-]; auto | intros [_ ->]; reflexivity].
             - rewrite (lookup_add_leaf h n a (length h) Hn).
               destruct (decide (length h = n)); [lia|].
               rewrite lookup_total_default by lia. simpl.
               split; [discriminate | intros [? _]; discriminate]. }
           rewrite Hnew. split.
           ++ intros [-> ->]. right. split; [reflexivity|]. exists []. auto.
           ++ intros [H|(Hy & p' & Hp & Hw)]; [discriminate|].
              destruct p' as [|b p'']; simpl in Hp.
              ** inversion Hp; subst. auto.
              ** inversion Hp; subst. simpl in Hw. rewrite Hz in Hw. discriminate.
        -- split; [discriminate|].
           intros [H|(Hy & p' & Hp & Hw)]; [discriminate|].
           destruct p' as [|b p'']; simpl in Hp.
           ++ inversion Hp; subst. congruence.
           ++ inversion Hp; subst. simpl in Hw. rewrite Hz in Hw. discriminate.
    + destruct (map_get a (children (h !!! x))) as [z|] eqn:Hz.
      * assert (Hzl : z < length h) by (apply (ts_child h Hs) in Hz; tauto).
        rewrite (IH z Hzl). split.
        -- intros [H|(Hy & p' & -> & Hw)]; [left; exact H|].
           right. split; [exact Hy|]. exists (a :: p'). split; [reflexivity|].
           simpl. rewrite Hz. exact Hw.
        -- intros [H|(Hy & p' & Hp & Hw)]; [left; exact H|].
           right. split; [exact Hy|].
           destruct p' as [|b p'']; simpl in Hp.
           ++ inversion Hp; subst. simpl in Hw. congruence.
           ++ inversion Hp; subst. exists p''. split; [reflexivity|].
              simpl in Hw. rewrite Hz in Hw. exact Hw.
      * split; [discriminate|].
        intros [H|(Hy & p' & Hp & Hw)]; [discriminate|].
        destruct p' as [|b p'']; simpl in Hp.
        -- inversion Hp; subst. simpl in Hw. congruence.
        -- inversion Hp; subst. simpl in Hw. rewrite Hz in Hw. discriminate.
Qed.

Lemma trie_shape_add_leaf h n c :
  trie_shape h -> n < length h -> map_get c (children (h !!! n)) = None ->
  c <> [] -> trie_shape (add_leaf h n c).
Proof.
  intros Hs Hn Hc Hne.
  pose proof (walk_add_leaf h n c) as Hw.
  split.
  - rewrite length_add_leaf. lia.
  - intros x a m. rewrite (lookup_add_leaf h n c x Hn), length_add_leaf.
    destruct (decide (x = n)) as [->|Hxn].
    + simpl. rewrite map_get_app.
      destruct (map_get a (children (h !!! n))) as [z|] eqn:Hz.
      * intros [= <-]. apply (ts_child h Hs) in Hz. intuition lia.
      * destruct (decide (c = a)) as [->|]; [|discriminate].
        intros [= <-]. intuition lia.
    + intros Hz. apply (ts_child h Hs) in Hz. intuition lia.
  - intros x. rewrite (lookup_add_leaf h n c x Hn).
    destruct (decide (x = n)) as [->|Hxn]; [|apply (ts_nodup h Hs)].
    simpl. rewrite fmap_app. apply NoDup_app. split; [apply (ts_nodup h Hs)|].
    split; [|apply NoDup_singleton].
    intros a Ha Ha'. apply list_elem_of_singleton in Ha'. simpl in Ha'. subst a.
    apply map_get_None in Hc. contradiction.
  - intros p q y Hp Hq.
    apply (Hw p root y Hs Hn Hc (ts_root h Hs)) in Hp.
    apply (Hw q root y Hs Hn Hc (ts_root h Hs)) in Hq.
    destruct Hp as [Hp|(Hy & p' & -> & Hp)], Hq as [Hq|(Hy' & q' & -> & Hq)].
    + apply (ts_inj h Hs p q y Hp Hq).
    + apply (walk_lt h root p y Hs (ts_root h Hs)) in Hp. lia.
    + apply (walk_lt h root q y Hs (ts_root h Hs)) in Hq. lia.
    + f_equal. apply (ts_inj h Hs p' q' n Hp Hq).
  - intros y. rewrite length_add_leaf. intros Hy.
    destruct (decide (y = length h)) as [->|Hne'].
    + destruct (ts_reach h Hs n Hn) as [p Hp].
      exists (p ++ [c]). apply (Hw _ root _ Hs Hn Hc (ts_root h Hs)).
      right. split; [reflexivity|]. exists p. auto.
    + destruct (ts_reach h Hs y ltac:(lia)) as [p Hp].
      exists p. apply (Hw _ root _ Hs Hn Hc (ts_root h Hs)). left. exact Hp.
Qed.

Lemma extends_refl h : extends h h.
Proof.
  split; auto.
  intros y Hy. apply lookup_total_default in Hy. rewrite Hy. reflexivity.
Qed.

Lemma extends_trans h1 h2 h3 :
  trie_shape h2 -> extends h1 h2 -> extends h2 h3 -> extends h1 h3.
Proof.
  intros Hs [L1 W1 O1 E1 N1 F1] [L2 W2 O2 E2 N2 F2]. split.
  - lia.
  - auto.
  - intros p y Hp Hy. apply O1; [|exact Hy]. apply O2; [exact Hp | lia].
  - intros y Hy. destruct (E1 y Hy) as [<- <-]. apply E2. lia.
  - intros y Hy. destruct (decide (y < length h2)) as [Hlt|Hge].
    + destruct (E2 y Hlt) as [-> _]. apply N1. exact Hy.
    + apply N2. lia.
  - auto.
Qed.

Lemma extends_add_leaf h n c :
  trie_shape h -> n < length h -> map_get c (children (h !!! n)) = None ->
  extends h (add_leaf h n c).
Proof.
  intros Hs Hn Hc.
  pose proof (walk_add_leaf h n c) as Hw.
  split.
  - rewrite length_add_leaf. lia.
  - intros p y Hp. apply (Hw _ root _ Hs Hn Hc (ts_root h Hs)). left. exact Hp.
  - intros p y Hp Hy. apply (Hw _ root _ Hs Hn Hc (ts_root h Hs)) in Hp.
    destruct Hp as [Hp|[-> _]]; [exact Hp | lia].
  - intros y Hy. rewrite (lookup_add_leaf h n c y Hn).
    destruct (decide (y = n)) as [->|_]; split; reflexivity.
  - intros y Hy. rewrite (lookup_add_leaf h n c y Hn).
    destruct (decide (y = n)) as [->|_]; [lia|].
    rewrite lookup_total_default by exact Hy. reflexivity.
  - intros HF y. rewrite (lookup_add_leaf h n c y Hn).
    destruct (decide (y = n)) as [->|_]; [simpl|]; apply HF.
Qed.

Lemma addWord_loop_spec chars : forall h node pre,
  trie_shape h -> walk h root pre = Some node ->
  Forall (fun c => c <> []) chars ->
  exists h' node',
    addWord_loop h node chars = (h', node') /\ trie_shape h' /\
    walk h' root (pre ++ chars) = Some node' /\ extends h h'.
Proof.
  induction chars as [|c chars IH]; intros h node pre Hs Hpre Hne.
  - exists h, node. rewrite app_nil_r.
    split; [reflexivity|]. split; [exact Hs|]. split; [exact Hpre|]. apply extends_refl.
  - apply Forall_cons in Hne as [Hc Hne]. simpl.
    assert (Hnode : node < length h)
      by (apply (walk_lt h root pre node Hs (ts_root h Hs) Hpre)).
    destruct (map_get c (children (h !!! node))) as [child|] eqn:Hget.
    + destruct (IH h child (pre ++ [c]) Hs) as (h' & node' & He & Hs' & Hw' & Hx); auto.
      { rewrite walk_snoc, Hpre. exact Hget. }
      exists h', node'. rewrite <- app_assoc in Hw'. auto.
    + fold (add_leaf h node c).
      pose proof (trie_shape_add_leaf h node c Hs Hnode Hget Hc) as Hs1.
      pose proof (extends_add_leaf h node c Hs Hnode Hget) as Hx1.
      destruct (IH (add_leaf h node c) (length h) (pre ++ [c]) Hs1)
        as (h' & node' & He & Hs' & Hw' & Hx); auto.
      { apply (walk_add_leaf h node c _ root _ Hs Hnode Hget (ts_root h Hs)).
        right. split; [reflexivity|]. exists pre. auto. }
      exists h', node'. rewrite <- app_assoc in Hw'.
      split; [exact He|]. split; [exact Hs'|]. split; [exact Hw'|].
      apply (extends_trans h (add_leaf h node c) h'); auto.
Qed.

(** Replacing a node by one with the same children leaves the trie as it is. *)
Lemma walk_update h k nd x p :
  k < length h -> children nd = children (h !!! k) ->
  walk (<[k := nd]> h) x p = walk h x p.
Proof.
  intros Hk Hc. revert x. induction p as [|c p IH]; intros x; simpl; [reflexivity|].
  rewrite (lookup_update h k nd x Hk).
  destruct (decide (x = k)) as [->|_]; [rewrite Hc|];
    (destruct (map_get c (children (h !!! _))); [apply IH | reflexivity]).
Qed.

Lemma trie_shape_update h k nd :
  trie_shape h -> k < length h -> children nd = children (h !!! k) ->
  trie_shape (<[k := nd]> h).
Proof.
  intros Hs Hk Hc. split.
  - rewrite length_insert. apply (ts_root h Hs).
  - intros x a m. rewrite (lookup_update h k nd x Hk), length_insert.
    destruct (decide (x = k)) as [->|_]; [rewrite Hc|]; apply (ts_child h Hs).
  - intros x. rewrite (lookup_update h k nd x Hk).
    destruct (decide (x = k)) as [->|_]; [rewrite Hc|]; apply (ts_nodup h Hs).
  - intros p q y. rewrite !walk_update by assumption. apply (ts_inj h Hs).
  - intros y. rewrite length_insert. intros Hy.
    destruct (ts_reach h Hs y Hy) as [p Hp]. exists p.
    rewrite walk_update by assumption. exact Hp.
Qed.

Lemma addWord_spec D h w :
  trie_shape h -> terminal_ok D h ->
  trie_shape (addWord h w) /\ terminal_ok (D ++ [w]) (addWord h w) /\
  ((forall y, fail (h !!! y) = None) -> forall y, fail (addWord h w !!! y) = None).
Proof.
  intros Hs [Hword Hend]. unfold addWord.
  destruct (addWord_loop_spec (code_points w) h root [] Hs eq_refl
              (code_points_nonempty w)) as (h' & node & -> & Hs' & Hw & Hx).
  simpl in Hw.
  assert (Hnode : node < length h')
    by (apply (walk_lt h' root _ node Hs' (ts_root h' Hs') Hw)).
  assert (Hch : children (set_end (h' !!! node) (length w)) = children (h' !!! node))
    by reflexivity.
  split; [apply trie_shape_update; auto|].
  split; [split|].
  - intros w' Hin. apply elem_of_app in Hin as [Hin|Hin].
    + destruct (Hword w' Hin) as (n & Hn & He). exists n.
      rewrite walk_update by assumption. split; [apply (ext_walk h h' Hx); exact Hn|].
      rewrite (lookup_update h' node _ n Hnode).
      destruct (decide (n = node)); [reflexivity|].
      assert (n < length h) by (apply (walk_lt h root _ n Hs (ts_root h Hs) Hn)).
      destruct (ext_end h h' Hx n) as [-> _]; auto.
    + apply list_elem_of_singleton in Hin. subst w'. exists node.
      rewrite walk_update by assumption. split; [exact Hw|].
      rewrite (lookup_update h' node _ node Hnode).
      destruct (decide (node = node)); [reflexivity | congruence].
  - intros p n. rewrite walk_update by assumption.
    rewrite (lookup_update h' node _ n Hnode). intros Hp.
    destruct (decide (n = node)) as [->|Hne].
    + intros _. assert (p = code_points w) by (apply (ts_inj h' Hs' _ _ node Hp Hw)).
      subst p. simpl. rewrite concat_code_points. split; [|reflexivity].
      exists w. split; [|reflexivity]. apply elem_of_app. right.
      apply list_elem_of_singleton. reflexivity.
    + intros He. destruct (decide (n < length h)) as [Hlt|Hge].
      * destruct (ext_end h h' Hx n Hlt) as [E1 E2]. rewrite E1 in He. rewrite E2.
        destruct (Hend p n (ext_old h h' Hx p n Hp Hlt) He) as [(w' & Hin & Hcp) Hl].
        split; [|exact Hl]. exists w'. split; [|exact Hcp].
        apply elem_of_app. left. exact Hin.
      * rewrite (ext_new h h' Hx n) in He by lia. discriminate.
  - intros HF y. rewrite (lookup_update h' node _ y Hnode).
    destruct (decide (y = node)) as [->|_]; [simpl|]; apply (ext_fail h h' Hx HF).
Qed.

Lemma trie_shape_init : trie_shape [newTrieNode].
Proof.
  split.
  - simpl. lia.
  - intros n c m. destruct n as [|n]; [discriminate|].
    rewrite lookup_total_default by (simpl; lia). discriminate.
  - intros n. destruct n as [|n]; [constructor|].
    rewrite lookup_total_default by (simpl; lia). constructor.
  - intros p q n. destruct p, q; simpl; try discriminate; auto.
  - intros n Hn. simpl in Hn. exists []. simpl. f_equal. unfold root. lia.
Qed.

Lemma insertWords_spec_from D : forall D0 h,
  trie_shape h -> terminal_ok D0 h -> (forall y, fail (h !!! y) = None) ->
  trie_shape (fold_left addWord D h) /\ terminal_ok (D0 ++ D) (fold_left addWord D h) /\
  (forall y, fail (fold_left addWord D h !!! y) = None).
Proof.
  induction D as [|w D IH]; intros D0 h Hs Ht HF; simpl.
  - rewrite app_nil_r. auto.
  - destruct (addWord_spec D0 h w Hs Ht) as (Hs' & Ht' & HF').
    replace (D0 ++ w :: D) with ((D0 ++ [w]) ++ D) by (rewrite <- app_assoc; reflexivity).
    apply IH; auto.
Qed.

(** The heap after the insertions is a trie whose terminal nodes are the
    words of the dictionary, with no failure link set. *)
Lemma insertWords_spec D :
  trie_shape (insertWords D) /\ terminal_ok D (insertWords D) /\
  (forall y, fail (insertWords D !!! y) = None).
Proof.
  apply (insertWords_spec_from D [] [newTrieNode]).
  - apply trie_shape_init.
  - split.
    + intros w Hw. apply elem_of_nil in Hw. contradiction.
    + intros p n. destruct p as [|c p]; simpl; [|discriminate].
      intros [= <-]. discriminate.
  - intros y. destruct y as [|y]; [reflexivity|].
    rewrite lookup_total_default by (simpl; lia). reflexivity.
Qed.

(** ** Longest suffixes *)

Section LongestSuffix.
Context {A : Type}.
Implicit Types (P T : list A -> bool) (l : list A).

Lemma longest_suffix_length P l : length (longest_suffix P l) <= length l.
Proof.
  induction l as [|x l IH]; simpl; [lia|].
  destruct (P (x :: l)); simpl; lia.
Qed.

Lemma longest_suffix_suffix P l : longest_suffix P l `suffix_of` l.
Proof.
  induction l as [|x l IH]; simpl; [reflexivity|].
  destruct (P (x :: l)); [reflexivity|].
  apply suffix_cons_r. exact IH.
Qed.

Lemma longest_suffix_sat P l : P [] = true -> P (longest_suffix P l) = true.
Proof.
  intros H0. induction l as [|x l IH]; simpl; [exact H0|].
  destruct (P (x :: l)) eqn:E; [exact E | exact IH].
Qed.

Lemma longest_suffix_ext P T l :
  (forall s, P s = T s) -> longest_suffix P l = longest_suffix T l.
Proof.
  intros H. induction l as [|x l IH]; simpl; [reflexivity|].
  rewrite H, IH. reflexivity.
Qed.

(** Searching inside the longest [T]-suffix loses nothing when [P]
    implies [T]. *)
Lemma longest_suffix_inside P T l :
  (forall s, P s = true -> T s = true) ->
  longest_suffix P (longest_suffix T l) = longest_suffix P l.
Proof.
  intros H. induction l as [|x l IH]; simpl; [reflexivity|].
  destruct (T (x :: l)) eqn:ET; [reflexivity|].
  destruct (P (x :: l)) eqn:EP; [|exact IH].
  apply H in EP. congruence.
Qed.

(** The longest [T]-suffix after one more element [c] extends the longest
    suffix that [T] accepts together with [c]. *)
Lemma longest_suffix_snoc T l c :
  longest_suffix T (l ++ [c]) =
  let s := longest_suffix (fun r => T (r ++ [c])) l in
  if T (s ++ [c]) then s ++ [c] else [].
Proof.
  induction l as [|x l IH]; simpl.
  - destruct (T [c]); reflexivity.
  - destruct (T (x :: l ++ [c])) eqn:ET.
    + simpl. rewrite ET. reflexivity.
    + exact IH.
Qed.
End LongestSuffix.

(** ** Membership in the trie *)

Lemma in_trie_nil h : in_trie h [] = true.
Proof. reflexivity. Qed.

Lemma in_trie_walk h p : in_trie h p = true <-> exists n, walk h root p = Some n.
Proof.
  unfold in_trie. destruct (walk h root p); split; eauto; try discriminate.
  intros [? ?]; discriminate.
Qed.

Lemma in_trie_snoc h p x c :
  walk h root p = Some x -> in_trie h (p ++ [c]) = map_has c (children (h !!! x)).
Proof. intros H. unfold in_trie, map_has. rewrite walk_snoc, H. reflexivity. Qed.

Lemma in_trie_prefix h p c : in_trie h (p ++ [c]) = true -> in_trie h p = true.
Proof.
  unfold in_trie. rewrite walk_snoc. destruct (walk h root p); [reflexivity | discriminate].
Qed.

Lemma walk_longest_suffix h l :
  exists n, walk h root (longest_suffix (in_trie h) l) = Some n.
Proof. apply in_trie_walk. apply longest_suffix_sat. reflexivity. Qed.

Lemma in_trie_same_shape h h' p : same_shape h h' -> in_trie h p = in_trie h' p.
Proof. intros Hs. unfold in_trie. rewrite (same_shape_walk h h' root p Hs). reflexivity. Qed.

Lemma fail_spec_same_shape h h' p : same_shape h h' -> fail_spec h p = fail_spec h' p.
Proof.
  intros Hs. destruct p as [|c p]; simpl; [reflexivity|].
  rewrite (longest_suffix_ext (in_trie h) (in_trie h') p)
    by (intros s; apply in_trie_same_shape; exact Hs).
  apply same_shape_walk. exact Hs.
Qed.

Lemma same_shape_set_fail h k f :
  same_shape h (<[k := set_fail (h !!! k) f]> h).
Proof.
  split; [rewrite length_insert; reflexivity|].
  intros n. destruct (decide (k < length h)) as [Hk|Hk].
  - rewrite (lookup_update h k _ n Hk).
    destruct (decide (n = k)) as [->|_]; repeat split.
  - rewrite list_insert_ge by lia. repeat split.
Qed.

(** Writing the right link into a node keeps every right link right. *)
Lemma fail_ok_set_fail h k pk x :
  trie_shape h -> walk h root pk = Some k ->
  x = k \/ fail_ok h x ->
  fail_ok (<[k := set_fail (h !!! k) (fail_spec h pk)]> h) x.
Proof.
  intros Hs Hk Hx p Hp.
  pose proof (same_shape_set_fail h k (fail_spec h pk)) as Hss.
  assert (Hkl : k < length h) by (apply (walk_lt h root pk k Hs (ts_root h Hs) Hk)).
  rewrite <- (same_shape_walk _ _ root p Hss) in Hp.
  rewrite <- (fail_spec_same_shape _ _ p Hss).
  rewrite (lookup_update h k _ x Hkl).
  destruct (decide (x = k)) as [->|Hne].
  - simpl. f_equal. apply (ts_inj h Hs pk p k Hk Hp).
  - destruct Hx as [?|Hx]; [congruence|]. apply Hx. exact Hp.
Qed.

(** ** The failure-link search of [buildFailPointers] *)

Section FailSearch.
Variable h : heap.
Hypothesis Hs : trie_shape h.
Variable c : jsstring.

Let with_c (s : list jsstring) : bool := in_trie h (s ++ [c]).

Lemma fail_search_spec : forall fuel q x,
  walk h root q = Some x -> length q < fuel ->
  (forall q' x', walk h root q' = Some x' -> length q' <= length q -> fail_ok h x') ->
  fail_search fuel h (Some x) c =
  Ok (if with_c (longest_suffix with_c q)
      then walk h root (longest_suffix with_c q) else None).
Proof.
  induction fuel as [|fuel IH]; intros q x Hq Hfuel Hok; [lia|].
  simpl. rewrite <- (in_trie_snoc h q x c Hq). fold (with_c q).
  destruct (with_c q) eqn:E.
  - destruct q as [|a q']; simpl.
    + rewrite E. simpl in Hq. rewrite Hq. reflexivity.
    + rewrite E, E. rewrite Hq. reflexivity.
  - rewrite (Hok q x Hq (le_n _) q Hq).
    destruct q as [|a q']; simpl.
    + rewrite E. destruct fuel; reflexivity.
    + rewrite E.
      destruct (walk_longest_suffix h q') as [x' Hx'].
      pose proof (longest_suffix_length (in_trie h) q') as Hlen.
      rewrite Hx'. destruct fuel as [|fuel']; [simpl in Hfuel; lia|].
      rewrite (IH (longest_suffix (in_trie h) q') x' Hx').
      * rewrite (longest_suffix_inside with_c (in_trie h) q'); [reflexivity|].
        intros s. apply in_trie_prefix.
      * simpl in Hfuel. lia.
      * intros q1 x1 H1 Hl. apply (Hok q1 x1 H1). simpl. lia.
Qed.

Lemma child_fail_spec current p child :
  walk h root p = Some current ->
  map_get c (children (h !!! current)) = Some child ->
  (forall q' x', walk h root q' = Some x' -> length q' <= length p -> fail_ok h x') ->
  child_fail h current c = Ok (fail_spec h (p ++ [c])).
Proof.
  intros Hp Hget Hok. unfold child_fail.
  destruct (Nat.eqb_spec current root) as [->|Hne].
  - rewrite (walk_root_nil h p Hs Hp). reflexivity.
  - destruct p as [|a p']; [simpl in Hp; congruence|].
    rewrite (Hok _ _ Hp (le_n _) _ Hp). simpl fail_spec.
    destruct (walk_longest_suffix h p') as [x Hx]. rewrite Hx.
    pose proof (longest_suffix_length (in_trie h) p') as Hlen.
    pose proof (walk_length h _ _ Hs Hp) as Hlp. simpl in Hlp.
    rewrite (fail_search_spec (length h) _ x Hx); [| lia |].
    + rewrite (longest_suffix_inside with_c (in_trie h) p')
        by (intros s; apply in_trie_prefix).
      simpl bind. rewrite (longest_suffix_snoc (in_trie h) p' c). simpl.
      fold with_c. destruct (with_c (longest_suffix with_c p')) eqn:E.
      * change (in_trie h (longest_suffix with_c p' ++ [c]))
          with (with_c (longest_suffix with_c p')). rewrite E.
        unfold with_c at 1, in_trie in E. rewrite walk_snoc in E |- *.
        destruct (walk h root (longest_suffix with_c p')); [reflexivity | discriminate].
      * change (in_trie h (longest_suffix with_c p' ++ [c]))
          with (with_c (longest_suffix with_c p')). rewrite E. reflexivity.
    + intros q1 x1 H1 Hl. apply (Hok q1 x1 H1). simpl. lia.
Qed.
End FailSearch.

(** ** Children of a node *)

Lemma kids_get h x k :
  trie_shape h ->
  k ∈ kids h x <-> exists c, map_get c (children (h !!! x)) = Some k.
Proof.
  intros Hs. unfold kids. split.
  - intros Hk. apply list_elem_of_fmap in Hk as [[c k'] [-> Hin]].
    exists c. apply map_get_elem; [apply (ts_nodup h Hs) | exact Hin].
  - intros [c Hc]. apply map_get_Some_elem in Hc.
    apply list_elem_of_fmap. exists (c, k). auto.
Qed.

Lemma kids_valid h x k : trie_shape h -> k ∈ kids h x -> x < length h /\ x < k /\ k < length h.
Proof.
  intros Hs Hk. apply (kids_get h x k Hs) in Hk as [c Hc].
  destruct (decide (x < length h)) as [Hx|Hx].
  - apply (ts_child h Hs) in Hc. tauto.
  - rewrite lookup_total_default in Hc by lia. discriminate.
Qed.

Lemma kids_walk h x k p :
  trie_shape h -> walk h root p = Some x -> k ∈ kids h x ->
  exists c, walk h root (p ++ [c]) = Some k.
Proof.
  intros Hs Hp Hk. apply (kids_get h x k Hs) in Hk as [c Hc].
  exists c. rewrite walk_snoc, Hp. exact Hc.
Qed.

Lemma kids_parent h x y k :
  trie_shape h -> k ∈ kids h x -> k ∈ kids h y -> x = y.
Proof.
  intros Hs Hx Hy.
  destruct (ts_reach h Hs x) as [px Hpx]; [apply (kids_valid h x k Hs Hx)|].
  destruct (ts_reach h Hs y) as [py Hpy]; [apply (kids_valid h y k Hs Hy)|].
  destruct (kids_walk h x k px Hs Hpx Hx) as [c Hc].
  destruct (kids_walk h y k py Hs Hpy Hy) as [c' Hc'].
  pose proof (ts_inj h Hs _ _ k Hc Hc') as E.
  apply app_inj_tail in E as [-> _]. congruence.
Qed.

Lemma kids_NoDup h x : trie_shape h -> NoDup (kids h x).
Proof.
  intros Hs. unfold kids.
  apply NoDup_fmap_2_strong; [|apply (NoDup_fmap_1 fst), (ts_nodup h Hs)].
  intros [c k] [c' k'] Hin Hin' E. simpl in E. subst k'. f_equal.
  assert (Hk : k ∈ kids h x)
    by (apply list_elem_of_fmap; exists (c, k); auto).
  destruct (ts_reach h Hs x) as [p Hp]; [apply (kids_valid h x k Hs Hk)|].
  apply (map_get_elem _ _ _ (ts_nodup h Hs x)) in Hin, Hin'.
  assert (E : p ++ [c] = p ++ [c']).
  { apply (ts_inj h Hs _ _ k); rewrite walk_snoc, Hp; assumption. }
  apply app_inj_tail in E. tauto.
Qed.

Lemma kids_same_shape h h' x : same_shape h h' -> kids h x = kids h' x.
Proof. intros [_ H]. unfold kids. destruct (H x) as [-> _]. reflexivity. Qed.

(** ** One [forEach] pass over the children of the dequeued node *)

Lemma forEach_children_spec kids0 : forall h q current p,
  trie_shape h -> walk h root p = Some current ->
  (forall c k, (c, k) ∈ kids0 -> map_get c (children (h !!! current)) = Some k) ->
  (forall q' x', walk h root q' = Some x' -> length q' <= length p -> fail_ok h x') ->
  exists h',
    forEach_children h q current kids0 = Ok (h', q ++ kids0.*2) /\
    trie_shape h' /\ same_shape h h' /\
    (forall x, fail_ok h x -> fail_ok h' x) /\
    (forall k, k ∈ kids0.*2 -> fail_ok h' k).
Proof.
  induction kids0 as [|[c k] kids0 IH]; intros h q current p Hs Hp Hget Hok.
  - exists h. simpl. rewrite app_nil_r.
    split; [reflexivity|]. split; [exact Hs|]. split; [apply same_shape_refl|].
    split; [auto|]. intros k Hk. apply elem_of_nil in Hk. contradiction.
  - simpl.
    assert (Hk : map_get c (children (h !!! current)) = Some k)
      by (apply Hget; apply elem_of_cons; left; reflexivity).
    rewrite (child_fail_spec h Hs c current p k Hp Hk Hok). simpl bind.
    assert (Hpk : walk h root (p ++ [c]) = Some k) by (rewrite walk_snoc, Hp; exact Hk).
    assert (Hkl : k < length h) by (apply (walk_lt h root _ k Hs (ts_root h Hs) Hpk)).
    set (h1 := <[k := set_fail (h !!! k) (fail_spec h (p ++ [c]))]> h).
    pose proof (same_shape_set_fail h k (fail_spec h (p ++ [c]))) as Hss. fold h1 in Hss.
    assert (Hs1 : trie_shape h1) by (apply trie_shape_update; auto).
    destruct (IH h1 (q ++ [k]) current p Hs1) as (h' & He & Hs' & Hss' & Hpres & Hnew).
    + rewrite <- (same_shape_walk h h1 root p Hss). exact Hp.
    + intros c' k' Hin. destruct Hss as [_ Hch]. destruct (Hch current) as [<- _].
      apply Hget. apply elem_of_cons. right. exact Hin.
    + intros q' x' Hq' Hl. apply (fail_ok_set_fail h k (p ++ [c]) x' Hs Hpk). right.
      apply (Hok q' x'); [|exact Hl].
      rewrite (same_shape_walk h h1 root q' Hss). exact Hq'.
    + exists h'. rewrite He, <- app_assoc. simpl.
      split; [reflexivity|]. split; [exact Hs'|].
      split; [apply (same_shape_trans h h1 h'); assumption|].
      split.
      * intros x Hx. apply Hpres.
        apply (fail_ok_set_fail h k (p ++ [c]) x Hs Hpk). right. exact Hx.
      * intros k' Hk'. apply elem_of_cons in Hk' as [->|Hk'].
        -- apply Hpres. apply (fail_ok_set_fail h k (p ++ [c]) k Hs Hpk). left. reflexivity.
        -- apply Hnew. exact Hk'.
Qed.

(** ** The traversal invariant *)

Lemma bfs_inv_init h :
  trie_shape h -> bfs_inv (<[root := set_fail (h !!! root) None]> h) [] [root] [] 0.
Proof.
  intros Hs.
  pose proof (same_shape_set_fail h root None) as Hss.
  pose proof (ts_root h Hs) as H0.
  assert (Hs' : trie_shape (<[root := set_fail (h !!! root) None]> h))
    by (apply trie_shape_update; auto).
  split; simpl; try exact Hs'.
  - intros x Hx. apply list_elem_of_singleton in Hx. subst. rewrite length_insert. exact H0.
  - apply list_elem_of_singleton. reflexivity.
  - intros x k Hx. apply elem_of_nil in Hx. contradiction.
  - intros k Hk. apply list_elem_of_singleton in Hk. auto.
  - apply NoDup_singleton.
  - intros x Hx p Hp. apply list_elem_of_singleton in Hx. subst x.
    rewrite (walk_root_nil _ p Hs' Hp). simpl.
    rewrite (lookup_update h root _ root H0).
    destruct (decide (root = root)); [reflexivity | congruence].
  - intros x p Hx Hp. apply list_elem_of_singleton in Hx. subst x.
    rewrite (walk_root_nil _ p Hs' Hp). reflexivity.
  - intros x p Hx. apply elem_of_nil in Hx. contradiction.
  - intros x p Hp Hl. destruct p; [|simpl in Hl; lia].
    simpl in Hp. inversion Hp. apply list_elem_of_singleton. reflexivity.
Qed.

(** When the nodes of depth [d] are exhausted, the queue holds exactly the
    nodes of depth [d + 1]. *)
Lemma bfs_inv_shift h P Qb d :
  bfs_inv h P [] Qb d -> bfs_inv h P Qb [] (S d).
Proof.
  intros [Hs Hv Hr Hk Hp Hn Hf Hfr Hb Ha]. simpl in *.
  split; rewrite ?app_nil_r; auto.
  - intros x p Hx. apply elem_of_nil in Hx. contradiction.
  - intros x p Hw Hl.
    destruct (decide (length p <= d)) as [Hle|Hgt].
    + apply elem_of_app. left. specialize (Ha x p Hw Hle).
      rewrite app_nil_r in Ha. exact Ha.
    + revert Hw Hl Hgt. destruct p as [|c p' _] using rev_ind; intros Hw Hl Hgt;
        [simpl in Hgt; lia|].
      rewrite length_app in Hl, Hgt. simpl in Hl, Hgt.
      rewrite walk_snoc in Hw.
      destruct (walk h root p') as [y|] eqn:Hy; [|discriminate].
      assert (HyP : y ∈ P).
      { specialize (Ha y p' Hy ltac:(lia)). rewrite app_nil_r in Ha. exact Ha. }
      apply (Hk y x HyP). apply (kids_get h y x Hs). exists c. exact Hw.
Qed.

Lemma bfs_inv_step h P current Qa Qb d :
  bfs_inv h P (current :: Qa) Qb d ->
  exists h',
    forEach_children h (Qa ++ Qb) current (children (h !!! current))
      = Ok (h', (Qa ++ Qb) ++ kids h current) /\
    same_shape h h' /\
    bfs_inv h' (P ++ [current]) Qa (Qb ++ kids h current) d.
Proof.
  intros [Hs Hv Hr Hk Hp Hn Hf Hfr Hb Ha].
  assert (Hcur : current ∈ P ++ (current :: Qa) ++ Qb) by set_solver.
  destruct (ts_reach h Hs current (Hv _ Hcur)) as [p Hpc].
  assert (Hd : length p = d) by (apply (Hfr current p); [set_solver | exact Hpc]).
  destruct (forEach_children_spec (children (h !!! current)) h (Qa ++ Qb) current p Hs Hpc)
    as (h' & He & Hs' & Hss & Hpres & Hnew).
  { intros c k Hin. apply map_get_elem; [apply (ts_nodup h Hs) | exact Hin]. }
  { intros q' x' Hq' Hl. apply Hf. specialize (Ha x' q' Hq' ltac:(lia)). set_solver. }
  exists h'. split; [exact He|]. split; [exact Hss|].
  assert (Hw : forall q, walk h' root q = walk h root q)
    by (intros q; symmetry; apply same_shape_walk; exact Hss).
  assert (Hkd : forall x, kids h' x = kids h x)
    by (intros x; symmetry; apply kids_same_shape; exact Hss).
  destruct Hss as [Hlen _].
  split.
  - exact Hs'.
  - intros x Hx. rewrite <- Hlen.
    assert (x ∈ P ++ (current :: Qa) ++ Qb \/ x ∈ kids h current) as [H|H] by set_solver.
    + apply Hv. exact H.
    + apply (kids_valid h current x Hs H).
  - set_solver.
  - intros x k Hx. rewrite Hkd. intros Hkx.
    apply elem_of_app in Hx as [Hx|Hx].
    + specialize (Hk x k Hx Hkx). set_solver.
    + apply list_elem_of_singleton in Hx. subst x. set_solver.
  - intros k Hk'.
    assert (k ∈ P ++ (current :: Qa) ++ Qb \/ k ∈ kids h current) as [H|H] by set_solver.
    + destruct (Hp k H) as [->|(x & Hx & Hkx)]; [left; reflexivity|].
      right. exists x. rewrite Hkd. split; [set_solver | exact Hkx].
    + right. exists current. rewrite Hkd. split; [set_solver | exact H].
  - replace ((P ++ [current]) ++ Qa ++ Qb ++ kids h current)
      with ((P ++ (current :: Qa) ++ Qb) ++ kids h current)
      by (rewrite <- !app_assoc; reflexivity).
    apply NoDup_app. split; [exact Hn|]. split; [|apply kids_NoDup; exact Hs].
    intros x Hx Hxk.
    destruct (Hp x Hx) as [->|(y & Hy & Hky)].
    + apply (kids_valid h current root Hs) in Hxk. unfold root in Hxk. lia.
    + assert (y = current) by (apply (kids_parent h y current x Hs Hky Hxk)). subst y.
      apply NoDup_app in Hn as (_ & Hdis & _).
      apply (Hdis current Hy). set_solver.
  - intros x Hx.
    assert (x ∈ P ++ (current :: Qa) ++ Qb \/ x ∈ kids h current) as [H|H] by set_solver.
    + apply Hpres. apply Hf. exact H.
    + apply Hnew. exact H.
  - intros x q Hx. rewrite Hw. apply Hfr. set_solver.
  - intros x q Hx. rewrite Hw. intros Hq.
    apply elem_of_app in Hx as [Hx|Hx]; [apply (Hb x q Hx Hq)|].
    destruct (kids_walk h current x p Hs Hpc Hx) as [c Hc].
    rewrite (ts_inj h Hs _ _ x Hq Hc), length_app. simpl. lia.
  - intros x q. rewrite Hw. intros Hq Hl. specialize (Ha x q Hq Hl). set_solver.
Qed.

Lemma bfs_inv_closed h P d x :
  bfs_inv h P [] [] d -> x < length h -> x ∈ P.
Proof.
  intros [Hs Hv Hr Hk Hp Hn Hf Hfr Hb Ha] Hx. simpl in *. rewrite app_nil_r in *.
  destruct (ts_reach h Hs x Hx) as [p Hpx]. clear Hx.
  revert x Hpx. induction p as [|c p IH] using rev_ind; intros x Hpx.
  - simpl in Hpx. inversion Hpx. subst. exact Hr.
  - rewrite walk_snoc in Hpx.
    destruct (walk h root p) as [y|] eqn:Hy; [|discriminate].
    apply (Hk y x (IH y eq_refl)). apply (kids_get h y x Hs). exists c. exact Hpx.
Qed.

Lemma NoDup_bounded_length (l : list nat) n :
  NoDup l -> (forall x, x ∈ l -> x < n) -> length l <= n.
Proof.
  intros Hn Hb.
  rewrite <- (length_seq n 0). apply NoDup_ListNoDup in Hn.
  apply NoDup_incl_length; [exact Hn|].
  intros x Hx. apply in_seq. apply list_elem_of_In in Hx. apply Hb in Hx. lia.
Qed.

Lemma bfs_spec : forall fuel h P Qa Qb d,
  bfs_inv h P Qa Qb d -> length h <= fuel + length P ->
  exists h',
    bfs fuel h (Qa ++ Qb) = Ok h' /\ same_shape h h' /\ trie_shape h' /\
    forall x, x < length h' -> fail_ok h' x.
Proof.
  induction fuel as [|fuel IH]; intros h P Qa Qb d Hinv Hfuel.
  - assert (Hlen : length (P ++ Qa ++ Qb) <= length h)
      by (apply NoDup_bounded_length; [apply (bi_nodup _ _ _ _ _ Hinv)
                                       | apply (bi_valid _ _ _ _ _ Hinv)]).
    rewrite !length_app in Hlen.
    destruct Qa as [|? ?], Qb as [|? ?]; simpl in Hlen; try lia.
    exists h. split; [reflexivity|]. split; [apply same_shape_refl|].
    split; [apply (bi_shape _ _ _ _ _ Hinv)|].
    intros x Hx. apply (bi_fail _ _ _ _ _ Hinv). rewrite app_nil_r.
    apply (bfs_inv_closed h P d x Hinv Hx).
  - assert (Hcase : (Qa = [] /\ Qb = []) \/
        exists current Qa' Qb' d', Qa ++ Qb = current :: Qa' ++ Qb' /\
                                   bfs_inv h P (current :: Qa') Qb' d').
    { destruct Qa as [|x Qa].
      - destruct Qb as [|x Qb]; [left; auto|].
        right. exists x, Qb, [], (S d). split; [rewrite app_nil_r; reflexivity|].
        apply bfs_inv_shift. exact Hinv.
      - right. exists x, Qa, Qb, d. auto. }
    destruct Hcase as [[-> ->]|(current & Qa' & Qb' & d' & -> & Hinv')].
    + exists h. split; [reflexivity|]. split; [apply same_shape_refl|].
      split; [apply (bi_shape _ _ _ _ _ Hinv)|].
      intros x Hx. apply (bi_fail _ _ _ _ _ Hinv). rewrite app_nil_r.
      apply (bfs_inv_closed h P d x Hinv Hx).
    + destruct (bfs_inv_step h P current Qa' Qb' d' Hinv') as (h1 & He & Hss & Hinv1).
      simpl. rewrite He. simpl.
      destruct (IH h1 (P ++ [current]) Qa' (Qb' ++ kids h current) d' Hinv1)
        as (h' & Hb & Hss' & Hs' & Hok).
      { destruct Hss as [<- _]. rewrite length_app. simpl. lia. }
      exists h'. rewrite app_assoc in Hb.
      split; [exact Hb|]. split; [apply (same_shape_trans h h1 h'); assumption|].
      auto.
Qed.

Lemma buildFailPointers_spec h :
  trie_shape h ->
  exists h',
    buildFailPointers h = Ok h' /\ same_shape h h' /\ trie_shape h' /\
    forall x, x < length h' -> fail_ok h' x.
Proof.
  intros Hs. unfold buildFailPointers.
  destruct (bfs_spec (length h) _ [] [root] [] 0 (bfs_inv_init h Hs))
    as (h' & Hb & Hss & Hs' & Hok).
  - rewrite length_insert. simpl. lia.
  - exists h'. split; [exact Hb|].
    split; [|auto].
    apply (same_shape_trans h (<[root := set_fail (h !!! root) None]> h) h');
      [apply same_shape_set_fail | exact Hss].
Qed.

Lemma terminal_ok_same_shape D h h' :
  same_shape h h' -> terminal_ok D h -> terminal_ok D h'.
Proof.
  intros Hss [Hw He]. split.
  - intros w Hin. destruct (Hw w Hin) as (n & Hn & Ht). exists n.
    rewrite <- (same_shape_walk h h' root _ Hss).
    destruct Hss as [_ H]. destruct (H n) as (_ & <- & _). auto.
  - intros p n. rewrite <- (same_shape_walk h h' root _ Hss).
    destruct Hss as [_ H]. destruct (H n) as (_ & <- & <-). apply He.
Qed.

(** [loadSensitiveWords] always completes, and the automaton it returns
    has every failure link in place. *)
Lemma loadSensitiveWords_built D : exists a, loadSensitiveWords D = Ok a /\ built D a.
Proof.
  destruct (insertWords_spec D) as (Hs & Ht & _).
  destruct (buildFailPointers_spec (insertWords D) Hs) as (a & Hb & Hss & Hs' & Hok).
  exists a. split; [exact Hb|].
  split; auto. apply (terminal_ok_same_shape D _ a Hss Ht).
Qed.

(** ** The exact scanner *)

Lemma suffix_words_inside (term T : list jsstring -> bool) l :
  (forall s, term s = true -> T s = true) ->
  suffix_words term (longest_suffix T l) = suffix_words term l.
Proof.
  intros H. induction l as [|x l IH]; simpl; [reflexivity|].
  destruct (T (x :: l)) eqn:ET; [reflexivity|].
  destruct (term (x :: l)) eqn:E; [|exact IH].
  apply H in E. congruence.
Qed.

Section ExactScan.
Variables (D : list jsstring) (a : heap).
Hypothesis Hb : built D a.

Let Hs : trie_shape a := bt_shape D a Hb.

Lemma built_fail_ok p x : walk a root p = Some x -> fail (a !!! x) = fail_spec a p.
Proof.
  intros Hp. apply (bt_fail D a Hb x); [|exact Hp].
  apply (walk_lt a root p x Hs (ts_root a Hs) Hp).
Qed.

Lemma is_word_in_trie q : is_word D q = true -> in_trie a q = true.
Proof.
  unfold is_word. intros H. apply bool_decide_eq_true in H.
  apply list_elem_of_fmap in H as (w & -> & Hw).
  destruct (to_word D a (bt_words D a Hb) w Hw) as (n & Hn & _).
  apply in_trie_walk. eauto.
Qed.

Lemma tn_end_is_word q n : walk a root q = Some n -> tn_end (a !!! n) = is_word D q.
Proof.
  intros Hq. unfold is_word.
  destruct (tn_end (a !!! n)) eqn:E; symmetry.
  - apply bool_decide_eq_true.
    destruct (to_end D a (bt_words D a Hb) q n Hq E) as [(w & Hw & <-) _].
    apply list_elem_of_fmap. eauto.
  - apply bool_decide_eq_false. intros H.
    apply list_elem_of_fmap in H as (w & -> & Hw).
    destruct (to_word D a (bt_words D a Hb) w Hw) as (n' & Hn' & He).
    congruence.
Qed.

Lemma tn_length_word q n :
  walk a root q = Some n -> tn_end (a !!! n) = true ->
  tn_length (a !!! n) = length (concat q).
Proof. intros Hq He. apply (to_end D a (bt_words D a Hb) q n Hq He). Qed.

Lemma walk_not_root q c n : walk a root (c :: q) = Some n -> n <> root.
Proof.
  intros Hq ->. apply (walk_root_nil a _ Hs) in Hq. discriminate.
Qed.

Lemma follow_fail_spec c : forall fuel q x,
  walk a root q = Some x -> length q <= fuel ->
  exists n,
    follow_fail fuel a (Some x) c = Ok n /\
    walk a root (longest_suffix (fun s => in_trie a (s ++ [c])) q) = Some n.
Proof.
  induction fuel as [|fuel IH]; intros q x Hq Hfuel.
  - destruct q; [|simpl in Hfuel; lia]. simpl in Hq. inversion Hq. subst x.
    exists root. split; reflexivity.
  - destruct q as [|c0 q'].
    + simpl in Hq. inversion Hq. subst x. exists root. split; reflexivity.
    + pose proof (walk_not_root q' c0 x Hq) as Hne.
      simpl follow_fail. destruct (Nat.eqb_spec x root) as [?|_]; [contradiction|].
      simpl orb. rewrite <- (in_trie_snoc a (c0 :: q') x c Hq).
      simpl longest_suffix. change ((c0 :: q') ++ [c]) with (c0 :: (q' ++ [c])).
      destruct (in_trie a (c0 :: (q' ++ [c]))) eqn:E.
      * exists x. split; [reflexivity | exact Hq].
      * rewrite (built_fail_ok _ x Hq). simpl fail_spec.
        destruct (walk_longest_suffix a q') as [x' Hx'].
        pose proof (longest_suffix_length (in_trie a) q') as Hlen.
        rewrite Hx'.
        destruct (IH (longest_suffix (in_trie a) q') x' Hx') as (n & Hn & Hw).
        { simpl in Hfuel. lia. }
        exists n. split; [exact Hn|].
        rewrite <- Hw. f_equal. symmetry.
        apply (longest_suffix_inside (fun s => in_trie a (s ++ [c])) (in_trie a) q').
        intros s. apply in_trie_prefix.
Qed.

(** The node the scanner moves to on reading [c] is the one of the longest
    suffix of the text read so far that is a path of the trie. *)
Lemma goto_spec pre c node :
  walk a root (longest_suffix (in_trie a) pre) = Some node ->
  exists n,
    follow_fail (length a) a (Some node) c = Ok n /\
    walk a root (longest_suffix (in_trie a) (pre ++ [c])) =
    Some (match map_get c (children (a !!! n)) with
          | Some child => child
          | None => root
          end).
Proof.
  intros Hnode.
  pose proof (walk_length a _ node Hs Hnode) as Hlen.
  destruct (follow_fail_spec c (length a) _ node Hnode ltac:(lia)) as (n & Hn & Hw).
  exists n. split; [exact Hn|].
  rewrite (longest_suffix_inside (fun s => in_trie a (s ++ [c])) (in_trie a) pre) in Hw
    by (intros s; apply in_trie_prefix).
  rewrite (longest_suffix_snoc (in_trie a) pre c). cbv zeta.
  unfold in_trie at 1. rewrite walk_snoc, Hw.
  destruct (map_get c (children (a !!! n))) as [child|] eqn:E.
  - rewrite walk_snoc, Hw. exact E.
  - reflexivity.
Qed.

Lemma report_spec text idx : forall fuel s n acc,
  walk a root s = Some n -> length s <= fuel ->
  report fuel a text idx (Some n) acc =
  Ok (acc ++ ((fun q => found_at text idx (length (concat q)))
                <$> suffix_words (is_word D) s)).
Proof.
  induction fuel as [|fuel IH]; intros s n acc Hn Hfuel.
  - destruct s; [|simpl in Hfuel; lia]. simpl in Hn. inversion Hn. subst n.
    simpl. rewrite app_nil_r. reflexivity.
  - destruct s as [|c s'].
    + simpl in Hn. inversion Hn. subst n. simpl. rewrite app_nil_r. reflexivity.
    + pose proof (walk_not_root s' c n Hn) as Hne.
      simpl report. destruct (Nat.eqb_spec n root) as [?|_]; [contradiction|].
      rewrite (built_fail_ok _ n Hn). simpl fail_spec.
      destruct (walk_longest_suffix a s') as [n' Hn'].
      pose proof (longest_suffix_length (in_trie a) s') as Hlen.
      rewrite Hn'. rewrite (IH (longest_suffix (in_trie a) s') n' _ Hn')
        by (simpl in Hfuel; lia).
      rewrite (suffix_words_inside (is_word D) (in_trie a) s' is_word_in_trie).
      simpl suffix_words. rewrite <- (tn_end_is_word _ n Hn).
      destruct (tn_end (a !!! n)) eqn:E.
      * rewrite (tn_length_word _ n Hn E), <- app_assoc. reflexivity.
      * reflexivity.
Qed.

Lemma scan_loop_spec text : forall rest pre node found,
  walk a root (longest_suffix (in_trie a) pre) = Some node ->
  exists node',
    scan_loop a text (node, Z.of_nat (length pre), found) rest =
    Ok (node', Z.of_nat (length (pre ++ rest)), found ++ scan_spec D text pre rest).
Proof.
  induction rest as [|c rest IH]; intros pre node found Hnode.
  - exists node. simpl. rewrite !app_nil_r. reflexivity.
  - destruct (goto_spec pre c node Hnode) as (n & Hn & Hw).
    simpl scan_loop. unfold scan_step. rewrite Hn. simpl bind.
    pose proof (walk_length a _ _ Hs Hw) as Hlen.
    rewrite (report_spec text _ (length a) _ _ found Hw) by lia.
    rewrite (suffix_words_inside (is_word D) (in_trie a) (pre ++ [c]) is_word_in_trie).
    simpl bind.
    replace (Z.of_nat (length pre) + 1)%Z with (Z.of_nat (length (pre ++ [c])))
      by (rewrite length_app; simpl; lia).
    destruct (IH (pre ++ [c]) _
                (found ++ ((fun q => found_at text (Z.of_nat (length pre)) (length (concat q)))
                             <$> suffix_words (is_word D) (pre ++ [c]))) Hw)
      as (node' & Hl).
    exists node'. rewrite Hl. rewrite <- !app_assoc. reflexivity.
Qed.

(** On a loaded automaton the exact scanner returns, and what it returns
    is the list [scan_spec] describes. *)
Lemma findSensitiveWords_scan_spec text :
  findSensitiveWords a text = Ok (scan_spec D text [] (code_points text)).
Proof.
  unfold findSensitiveWords.
  destruct (scan_loop_spec text (code_points text) [] root [] eq_refl) as (node' & Hl).
  change (Z.of_nat (length (@nil jsstring))) with 0%Z in Hl.
  rewrite Hl. reflexivity.
Qed.
End ExactScan.

(** ** Membership in the reported list *)

Lemma suffix_words_elem term l q :
  q ∈ suffix_words term l <-> q <> [] /\ q `suffix_of` l /\ term q = true.
Proof.
  induction l as [|x l IH]; simpl.
  - split; [intros H; apply elem_of_nil in H; contradiction|].
    intros (Hne & Hsuf & _). apply suffix_nil_inv in Hsuf. contradiction.
  - rewrite elem_of_app, IH. split.
    + intros [H|(Hne & Hsuf & Ht)].
      * destruct (term (x :: l)) eqn:E; [|apply elem_of_nil in H; contradiction].
        apply list_elem_of_singleton in H. subst q.
        split; [discriminate|]. split; [reflexivity | exact E].
      * split; [exact Hne|]. split; [apply suffix_cons_r; exact Hsuf | exact Ht].
    + intros (Hne & Hsuf & Ht). destruct q as [|y q]; [contradiction|].
      apply suffix_cons_inv in Hsuf as [E|Hsuf].
      * left. rewrite <- E, Ht. apply list_elem_of_singleton. reflexivity.
      * right. auto.
Qed.

Lemma scan_spec_elem D text m : forall rest pre,
  m ∈ scan_spec D text pre rest <->
  exists k q, k < length rest /\ q <> [] /\
              q `suffix_of` (pre ++ take (S k) rest) /\
              is_word D q = true /\ m = found_by text (length pre + k) q.
Proof.
  induction rest as [|c rest IH]; intros pre; simpl.
  - split; [intros H; apply elem_of_nil in H; contradiction|].
    intros (k & q & Hk & _). lia.
  - rewrite elem_of_app, IH, list_elem_of_fmap. split.
    + intros [(q & -> & Hq)|(k & q & Hk & Hne & Hsuf & Hw & ->)].
      * apply suffix_words_elem in Hq as (Hne & Hsuf & Hw).
        exists 0, q. rewrite Nat.add_0_r, take_0.
        split; [lia|]. auto.
      * exists (S k), q. rewrite <- app_assoc in Hsuf. simpl in Hsuf.
        rewrite length_app in *. simpl.
        replace (length pre + S k) with (length pre + 1 + k) by lia.
        split; [lia|]. auto.
    + intros (k & q & Hk & Hne & Hsuf & Hw & ->). destruct k as [|k].
      * left. exists q. rewrite Nat.add_0_r. split; [reflexivity|].
        apply suffix_words_elem. rewrite take_0 in Hsuf. auto.
      * right. exists k, q. rewrite <- app_assoc, length_app. simpl.
        replace (length pre + 1 + k) with (length pre + S k) by lia.
        split; [lia|]. auto.
Qed.

Lemma is_word_spec D q : is_word D q = true <-> exists w, w ∈ D /\ code_points w = q.
Proof.
  unfold is_word. rewrite bool_decide_eq_true, list_elem_of_fmap.
  split; intros (w & H1 & H2); exists w; auto.
Qed.

(** ** Lengths of reported words *)

Lemma length_substring s x y :
  length (substring s x y) =
  Nat.max (clamp (length s) x) (clamp (length s) y)
  - Nat.min (clamp (length s) x) (clamp (length s) y).
Proof.
  unfold substring. rewrite length_take, length_drop. unfold clamp. lia.
Qed.

Lemma substring_middle (l1 w l2 : jsstring) :
  substring (l1 ++ w ++ l2) (Z.of_nat (length l1)) (Z.of_nat (length l1 + length w)) = w.
Proof.
  unfold substring, clamp. rewrite !length_app.
  replace (Z.to_nat (Z.min (Z.max (Z.of_nat (length l1)) 0)
                           (Z.of_nat (length l1 + (length w + length l2)))))
    with (length l1) by lia.
  replace (Z.to_nat (Z.min (Z.max (Z.of_nat (length l1 + length w)) 0)
                           (Z.of_nat (length l1 + (length w + length l2)))))
    with (length l1 + length w) by lia.
  replace (Nat.min (length l1) (length l1 + length w)) with (length l1) by lia.
  replace (Nat.max (length l1) (length l1 + length w) - length l1) with (length w) by lia.
  rewrite drop_app_length. apply take_app_length.
Qed.

Lemma concat_suffix_length (q l : list jsstring) :
  q `suffix_of` l -> length (concat q) <= length (concat l).
Proof.
  intros [k ->]. rewrite concat_app, length_app. lia.
Qed.

Lemma found_at_before text idx L1 L2 :
  L2 < L1 -> reported_before (found_at text idx L1) (found_at text idx L2).
Proof.
  intros HL. split; simpl; [lia|]. intros _. split; [lia|].
  rewrite !length_substring. unfold clamp. lia.
Qed.

Lemma suffix_words_sorted text i term l :
  Forall (fun c => c <> []) l ->
  StronglySorted reported_before (found_by text i <$> suffix_words term l).
Proof.
  induction 1 as [|x l Hx Hl IH]; simpl; [constructor|].
  rewrite fmap_app. apply StronglySorted_app_2; [| |exact IH].
  - intros m1 m2 H1 H2.
    destruct (term (x :: l)); [|apply elem_of_nil in H1; contradiction].
    apply list_elem_of_singleton in H1. subst m1.
    apply list_elem_of_fmap in H2 as (q & -> & Hq).
    apply suffix_words_elem in Hq as (_ & Hsuf & _).
    apply found_at_before.
    apply concat_suffix_length in Hsuf. simpl. rewrite length_app.
    destruct x; [contradiction|]. simpl. lia.
  - destruct (term (x :: l)); repeat constructor.
Qed.

Lemma scan_spec_end D text m : forall rest pre,
  m ∈ scan_spec D text pre rest -> (Z.of_nat (length pre) <= m_end m)%Z.
Proof.
  intros rest pre H. apply scan_spec_elem in H as (k & q & _ & _ & _ & _ & ->).
  simpl. lia.
Qed.

Lemma scan_spec_sorted D text : forall rest pre,
  Forall (fun c => c <> []) (pre ++ rest) ->
  StronglySorted reported_before (scan_spec D text pre rest).
Proof.
  induction rest as [|c rest IH]; intros pre Hne; simpl; [constructor|].
  apply StronglySorted_app_2.
  - intros m1 m2 H1 H2.
    apply list_elem_of_fmap in H1 as (q & -> & _).
    apply scan_spec_end in H2. rewrite length_app in H2. simpl in H2.
    split; simpl; [lia|]. intros E. lia.
  - apply suffix_words_sorted. rewrite Forall_app in *.
    destruct Hne as [H1 H2]. apply Forall_cons in H2 as [H2 _].
    split; [exact H1|]. constructor; [exact H2 | constructor].
  - apply IH. rewrite <- app_assoc. exact Hne.
Qed.

Lemma StronglySorted_lookup {A} (R : A -> A -> Prop) (l : list A) i j x y :
  StronglySorted R l -> i < j -> l !! i = Some x -> l !! j = Some y -> R x y.
Proof.
  intros Hl. revert i j. induction Hl as [|z l Hl IH Hz]; intros i j Hij Hi Hj.
  - rewrite lookup_nil in Hi. discriminate.
  - destruct j as [|j]; [lia|]. simpl in Hj.
    destruct i as [|i].
    + simpl in Hi. inversion Hi. subst z.
      rewrite Forall_forall in Hz. apply Hz.
      apply (list_elem_of_lookup_2 l j y Hj).
    + simpl in Hi. apply (IH i j); [lia | assumption | assumption].
Qed.

(** ** The exact scanner on a loaded automaton *)

(** The scanner returns on every text, and each match it returns is a word
    [w] of the dictionary whose characters end at character index [i] of
    the text: [end] is [i], and [start] and [word] are computed from the
    number of code units of [w]. *)
Lemma findSensitiveWords_sound D text :
  exists a ms,
    loadSensitiveWords D = Ok a /\ findSensitiveWords a text = Ok ms /\
    forall m, m ∈ ms ->
      exists i w, w ∈ D /\ w <> [] /\ i < length (code_points text) /\
                  code_points w `suffix_of` take (S i) (code_points text) /\
                  m = found_at text (Z.of_nat i) (length w).
Proof.
  destruct (loadSensitiveWords_built D) as (a & Ha & Hb).
  exists a, (scan_spec D text [] (code_points text)).
  split; [exact Ha|]. split; [apply (findSensitiveWords_scan_spec D a Hb)|].
  intros m Hm. apply scan_spec_elem in Hm as (k & q & Hk & Hne & Hsuf & Hw & ->).
  apply is_word_spec in Hw as (w & Hw & <-).
  exists k, w. split; [exact Hw|].
  split; [intros ->; apply Hne; reflexivity|].
  split; [exact Hk|]. split; [exact Hsuf|].
  unfold found_by. rewrite concat_code_points. reflexivity.
Qed.

(** Every occurrence of the characters of a dictionary word in the
    characters of the text is reported, at the character index where it
    ends. *)
Lemma findSensitiveWords_complete D text w l1 l2 :
  w ∈ D -> w <> [] -> code_points text = l1 ++ code_points w ++ l2 ->
  exists a ms,
    loadSensitiveWords D = Ok a /\ findSensitiveWords a text = Ok ms /\
    found_at text (Z.of_nat (length l1 + length (code_points w) - 1)) (length w) ∈ ms.
Proof.
  intros Hw Hne Htext.
  destruct (loadSensitiveWords_built D) as (a & Ha & Hb).
  exists a, (scan_spec D text [] (code_points text)).
  split; [exact Ha|]. split; [apply (findSensitiveWords_scan_spec D a Hb)|].
  assert (Hq : code_points w <> []).
  { intros E. apply Hne. rewrite <- (concat_code_points w), E. reflexivity. }
  assert (Hlen : 0 < length (code_points w))
    by (destruct (code_points w); [contradiction | simpl; lia]).
  apply scan_spec_elem.
  exists (length l1 + length (code_points w) - 1), (code_points w).
  split; [rewrite Htext, !length_app; lia|].
  split; [exact Hq|]. split.
  - simpl app. rewrite Htext, app_assoc.
    replace (S (length l1 + length (code_points w) - 1))
      with (length (l1 ++ code_points w)) by (rewrite length_app; lia).
    rewrite take_app_length. apply suffix_app_r. reflexivity.
  - split; [apply is_word_spec; eauto|].
    unfold found_by. rewrite concat_code_points. reflexivity.
Qed.

(** *** Texts without surrogate pairs *)

Lemma concat_singletons (s : jsstring) : concat ((fun u => [u]) <$> s) = s.
Proof.
  induction s as [|u s IH]; [reflexivity|].
  rewrite fmap_cons, concat_cons, IH. reflexivity.
Qed.

(** X2. When the text has no lead surrogate, code points and code units
    coincide: each match is a dictionary word, and it is the part of the
    text from [start] to [end]. *)
Lemma findSensitiveWords_sound_bmp D text :
  Forall (fun u => is_lead u = false) text ->
  exists a ms,
    loadSensitiveWords D = Ok a /\ findSensitiveWords a text = Ok ms /\
    forall m, m ∈ ms ->
      word m ∈ D /\ word m <> [] /\
      exists l1 l2, text = l1 ++ word m ++ l2 /\
                    start m = Z.of_nat (length l1) /\
                    m_end m = (Z.of_nat (length l1 + length (word m)) - 1)%Z.
Proof.
  intros Hbmp.
  destruct (findSensitiveWords_sound D text) as (a & ms & Ha & Hms & Hall).
  exists a, ms. split; [exact Ha|]. split; [exact Hms|].
  intros m Hm. destruct (Hall m Hm) as (i & w & Hw & Hne & Hi & [r Hsuf] & ->).
  rewrite (code_points_bmp text Hbmp) in Hsuf, Hi.
  rewrite length_fmap in Hi.
  assert (Ht : take (S i) text = concat r ++ w).
  { rewrite <- (concat_singletons (take (S i) text)), fmap_take, Hsuf, concat_app.
    rewrite concat_code_points. reflexivity. }
  assert (Hl : S i = length (concat r) + length w).
  { rewrite <- length_app, <- Ht, length_take. lia. }
  assert (Htext : text = concat r ++ w ++ drop (S i) text).
  { rewrite app_assoc, <- Ht, take_drop. reflexivity. }
  assert (Hword : word (found_at text (Z.of_nat i) (length w)) = w).
  { simpl. rewrite Htext at 1.
    replace (Z.of_nat i - Z.of_nat (length w) + 1)%Z
      with (Z.of_nat (length (concat r))) by lia.
    replace (Z.of_nat i + 1)%Z with (Z.of_nat (length (concat r) + length w)) by lia.
    apply substring_middle. }
  rewrite Hword. split; [exact Hw|]. split; [exact Hne|].
  exists (concat r), (drop (S i) text). split; [exact Htext|]. simpl. lia.
Qed.

(** X3. When the text has no lead surrogate, every occurrence of a
    dictionary word as a contiguous part of the text is reported with its
    offsets. *)
Lemma findSensitiveWords_complete_bmp D text w l1 l2 :
  Forall (fun u => is_lead u = false) text ->
  w ∈ D -> w <> [] -> text = l1 ++ w ++ l2 ->
  exists a ms,
    loadSensitiveWords D = Ok a /\ findSensitiveWords a text = Ok ms /\
    mkMatch w (Z.of_nat (length l1)) (Z.of_nat (length l1 + length w) - 1) ∈ ms.
Proof.
  intros Hbmp Hw Hne Htext.
  assert (Hwb : Forall (fun u => is_lead u = false) w).
  { rewrite Htext in Hbmp. apply Forall_app in Hbmp as [_ H].
    apply Forall_app in H as [H _]. exact H. }
  destruct (findSensitiveWords_complete D text w ((fun u => [u]) <$> l1)
              ((fun u => [u]) <$> l2) Hw Hne) as (a & ms & Ha & Hms & Hin).
  { rewrite (code_points_bmp text Hbmp), (code_points_bmp w Hwb), Htext, !fmap_app.
    reflexivity. }
  exists a, ms. split; [exact Ha|]. split; [exact Hms|].
  rewrite (code_points_bmp w Hwb), !length_fmap in Hin.
  assert (Hlen : 0 < length w) by (destruct w; [contradiction | simpl; lia]).
  replace (mkMatch w (Z.of_nat (length l1)) (Z.of_nat (length l1 + length w) - 1))
    with (found_at text (Z.of_nat (length l1 + length w - 1)) (length w)); [exact Hin|].
  unfold found_at. f_equal; try lia.
  rewrite Htext.
  replace (Z.of_nat (length l1 + length w - 1) - Z.of_nat (length w) + 1)%Z
    with (Z.of_nat (length l1)) by lia.
  replace (Z.of_nat (length l1 + length w - 1) + 1)%Z
    with (Z.of_nat (length l1 + length w)) by lia.
  apply substring_middle.
Qed.

(** ** Order of the exact scanner's report *)

(** C4. For every dictionary and every text the exact scanner returns, and
    in the list it returns a match reported earlier never ends later than a
    match reported after it; of two matches that end at the same position
    the one reported first has the strictly longer span [end - start + 1]
    (the longer dictionary word), and its [word] is at least as long. *)
Theorem findSensitiveWords_order (D : list jsstring) (text : jsstring) :
  exists a ms,
    loadSensitiveWords D = Ok a /\ findSensitiveWords a text = Ok ms /\
    forall i j m1 m2,
      i < j -> ms !! i = Some m1 -> ms !! j = Some m2 ->
      (m_end m1 <= m_end m2)%Z /\
      (m_end m1 = m_end m2 ->
       (m_end m2 - start m2 + 1 < m_end m1 - start m1 + 1)%Z /\
       length (word m2) <= length (word m1)).
Proof.
  destruct (loadSensitiveWords_built D) as (a & Ha & Hb).
  exists a, (scan_spec D text [] (code_points text)).
  split; [exact Ha|]. split; [apply (findSensitiveWords_scan_spec D a Hb)|].
  intros i j m1 m2 Hij H1 H2.
  apply (StronglySorted_lookup reported_before
           (scan_spec D text [] (code_points text)) i j m1 m2); try assumption.
  apply scan_spec_sorted. apply code_points_nonempty.
Qed.

Lemma findSensitiveWords_order_witness :
  (m_end (mkMatch str_she 0 2) <= m_end (mkMatch str_he 1 2))%Z /\
  (m_end (mkMatch str_she 0 2) = m_end (mkMatch str_he 1 2) ->
   (m_end (mkMatch str_he 1 2) - start (mkMatch str_he 1 2) + 1
    < m_end (mkMatch str_she 0 2) - start (mkMatch str_she 0 2) + 1)%Z /\
   length (word (mkMatch str_he 1 2)) <= length (word (mkMatch str_she 0 2))).
Proof.
  destruct (findSensitiveWords_order [str_he; str_she] str_she)
    as (a & ms & Ha & Hms & Hord).
  vm_compute in Ha. injection Ha as <-.
  vm_compute in Hms. injection Hms as <-.
  apply (Hord 0 1); [lia | reflexivity | reflexivity].
Defined.

(** ** Depth of failure links *)

Lemma depth_is_unique h x d1 d2 :
  trie_shape h -> depth_is h x d1 -> depth_is h x d2 -> d1 = d2.
Proof.
  intros Hs (p1 & H1 & <-) (p2 & H2 & <-).
  rewrite (ts_inj h Hs p1 p2 x H1 H2). reflexivity.
Qed.

(** C9. After [loadSensitiveWords] (insertions, then [buildFailPointers])
    every node other than the root has a failure link, and the node it
    points to lies at a strictly smaller depth; the depth of a node is the
    length of its path from the root, which is unique. *)
Theorem fail_target_shallower (D : list jsstring) :
  exists a,
    loadSensitiveWords D = Ok a /\
    (forall n, n < length a -> n <> root ->
       exists m d dm,
         fail (a !!! n) = Some m /\ depth_is a n d /\ depth_is a m dm /\ dm < d) /\
    (forall x d1 d2, depth_is a x d1 -> depth_is a x d2 -> d1 = d2).
Proof.
  destruct (loadSensitiveWords_built D) as (a & Ha & Hb).
  pose proof (bt_shape D a Hb) as Hs.
  exists a. split; [exact Ha|]. split.
  - intros n Hn Hne.
    destruct (ts_reach a Hs n Hn) as [p Hp].
    destruct p as [|c p']; [simpl in Hp; congruence|].
    destruct (walk_longest_suffix a p') as [m Hm].
    exists m, (length (c :: p')), (length (longest_suffix (in_trie a) p')).
    split; [rewrite (built_fail_ok D a Hb _ n Hp); exact Hm|].
    split; [exists (c :: p'); auto|].
    split; [exists (longest_suffix (in_trie a) p'); auto|].
    pose proof (longest_suffix_length (in_trie a) p'). simpl. lia.
  - intros x d1 d2. apply depth_is_unique. exact Hs.
Qed.

Lemma fail_target_shallower_witness :
  exists m d dm,
    fail ([ mkNode [(str_a, 1)] None false 0;
            mkNode [(str_b, 2)] (Some 0) false 0;
            mkNode [] (Some 0) true 2 ] !!! 2) = Some m /\
    d = 2 /\ dm = 0 /\ dm < d.
Proof.
  destruct (fail_target_shallower [str_ab]) as (a & Ha & Hfail & Huniq).
  vm_compute in Ha. injection Ha as <-.
  destruct (Hfail 2) as (m & d & dm & Hf & Hd & Hdm & Hlt);
    [simpl; lia | discriminate |].
  exists m, d, dm. split; [exact Hf|].
  assert (Em : m = 0) by (vm_compute in Hf; congruence). subst m.
  split; [apply (Huniq 2 d 2 Hd); exists [str_a; str_b]; split; reflexivity|].
  split; [apply (Huniq 0 dm 0 Hdm); exists []; split; reflexivity|].
  exact Hlt.
Defined.

(** ** Code units and code points *)

(** C1, evaluated.  Dictionary ["ab"], text "\u{1F600}ab": the match is
    reported at the character offsets 1..2, and its [word] is cut from the
    code units 1..2 of the text, a trail surrogate followed by "a", which
    is not a word of the dictionary. *)
Theorem findSensitiveWords_word_after_astral :
  exists a,
    loadSensitiveWords [str_ab] = Ok a /\
    findSensitiveWords a (str_grin ++ str_ab) = Ok [ mkMatch [0xDE00; 97]%Z 1 2 ] /\
    code_points (str_grin ++ str_ab) = [str_grin; str_a; str_b] /\
    ~ ([0xDE00; 97]%Z ∈ [str_ab]).
Proof.
  destruct (loadSensitiveWords_built [str_ab]) as (a & Ha & _).
  exists a. split; [exact Ha|].
  vm_compute in Ha. injection Ha as <-.
  split; [vm_compute; reflexivity|]. split; [reflexivity|].
  intros H. apply list_elem_of_singleton in H. discriminate.
Qed.

(** C2, evaluated.  Dictionary ["\u{1F600}"], text "\u{1F600}": the word
    occurs in the text (at character offset 0, code units 0..1), and the
    only match returned starts at -1 and carries half of the character. *)
Theorem findSensitiveWords_astral_word_offsets :
  exists a,
    loadSensitiveWords [str_grin] = Ok a /\
    findSensitiveWords a str_grin = Ok [ mkMatch [0xD83D]%Z (-1) 0 ] /\
    code_points str_grin = [str_grin] /\
    forall m, m ∈ [ mkMatch [0xD83D]%Z (-1) 0 ] -> start m <> 0%Z /\ word m <> str_grin.
Proof.
  destruct (loadSensitiveWords_built [str_grin]) as (a & Ha & _).
  exists a. split; [exact Ha|].
  vm_compute in Ha. injection Ha as <-.
  split; [vm_compute; reflexivity|]. split; [reflexivity|].
  intros m H. apply list_elem_of_singleton in H. subst m.
  split; discriminate.
Qed.

(** C3, evaluated.  [addWord] stores the number of code units of a word,
    2 for the single code point U+1F600; the fuzzy scanner reads the text
    one code unit at a time, so it never matches that word, and the
    offsets it returns count code units: "a" after U+1F600 is reported at
    offset 2, its character offset being 1.  The exact scanner reports the
    same occurrence at offset 1, with the code unit 1 of the text as its
    [word]. *)
Theorem code_units_not_code_points :
  length (code_points str_grin) = 1 /\
  tn_length (insertWords [str_grin] !!! 1) = 2 /\
  (exists a, loadSensitiveWords [str_grin] = Ok a /\
             findSensitiveWordsFuzzy a str_grin 5 = []) /\
  (exists a, loadSensitiveWords [str_a] = Ok a /\
             code_points (str_grin ++ str_a) = [str_grin; str_a] /\
             findSensitiveWordsFuzzy a (str_grin ++ str_a) 5 = [ mkMatch str_a 2 2 ] /\
             findSensitiveWords a (str_grin ++ str_a) = Ok [ mkMatch [0xDE00]%Z 1 1 ]).
Proof.
  split; [reflexivity|]. split; [reflexivity|]. split.
  - destruct (loadSensitiveWords_built [str_grin]) as (a & Ha & _).
    exists a. split; [exact Ha|].
    vm_compute in Ha. injection Ha as <-. vm_compute. reflexivity.
  - destruct (loadSensitiveWords_built [str_a]) as (a & Ha & _).
    exists a. split; [exact Ha|].
    vm_compute in Ha. injection Ha as <-.
    split; [reflexivity|]. split; vm_compute; reflexivity.
Qed.

(** ** The fuzzy scanner: marking and spans *)

Lemma inserts_lookup (l : list nat) : forall (a : list Z) p,
  fold_left (fun a k => <[k := 1%Z]> a) l a !! p =
  if decide (p ∈ l /\ p < length a) then Some 1%Z else a !! p.
Proof.
  induction l as [|k l IH]; intros a p; simpl.
  - destruct (decide (p ∈ [] /\ p < length a)) as [[H _]|_]; [|reflexivity].
    apply elem_of_nil in H. contradiction.
  - rewrite IH, length_insert.
    destruct (decide (p ∈ l /\ p < length a)) as [[Hl Hp]|Hn].
    + destruct (decide (p ∈ k :: l /\ p < length a)) as [_|Hn]; [reflexivity|].
      exfalso. apply Hn. split; [apply elem_of_cons; auto | exact Hp].
    + destruct (decide (p ∈ k :: l /\ p < length a)) as [[Hl Hp]|Hn'].
      * apply elem_of_cons in Hl as [->|Hl]; [|tauto].
        apply list_lookup_insert_eq. exact Hp.
      * destruct (decide (p = k)) as [->|Hne].
        -- destruct (decide (k < length a)) as [Hk|Hk].
           ++ exfalso. apply Hn'. split; [apply elem_of_cons; auto | exact Hk].
           ++ rewrite list_insert_ge by lia. reflexivity.
        -- apply list_lookup_insert_ne. congruence.
Qed.

Lemma length_inserts_1 (l : list nat) : forall (a : list Z),
  length (fold_left (fun a k => <[k := 1%Z]> a) l a) = length a.
Proof.
  induction l as [|k l IH]; intros a; simpl; [reflexivity|].
  rewrite IH. apply length_insert.
Qed.

Lemma length_mark a s e : length (mark a s e) = length a.
Proof. apply length_inserts_1. Qed.

Lemma mark_lookup a s e p :
  mark a s e !! p =
  if decide (s <= p <= e /\ p < length a) then Some 1%Z else a !! p.
Proof.
  unfold mark. rewrite inserts_lookup.
  destruct (decide (p ∈ seq s (S e - s) /\ p < length a)) as [[H1 H2]|Hn];
    destruct (decide (s <= p <= e /\ p < length a)) as [[H3 H4]|Hn'];
    try reflexivity.
  - exfalso. apply Hn'. apply elem_of_seq in H1. lia.
  - exfalso. apply Hn. split; [apply elem_of_seq; lia | exact H4].
Qed.

Lemma fuzzy_inner_bounds h k : forall rest j cur s e,
  fuzzy_inner h k rest j cur s = Some e -> j <= e < j + length rest.
Proof.
  induction rest as [|u rest IH]; intros j cur s e; simpl; [discriminate|].
  destruct (map_get [u] (children (h !!! cur))) as [next|].
  - destruct (tn_end (h !!! next)).
    + intros [= <-]. lia.
    + intros H. apply IH in H. lia.
  - destruct (negb (cur =? root) && (s <? k)%Z); [|discriminate].
    intros H. apply IH in H. lia.
Qed.

Lemma fuzzy_inv_init text : fuzzy_inv text 0 (replicate (length text) 0%Z, []).
Proof.
  split; simpl.
  - apply length_replicate.
  - intros m H. apply elem_of_nil in H. contradiction.
  - constructor.
Qed.

Lemma fuzzy_inv_step h text k i st :
  i < length text -> fuzzy_inv text i st ->
  fuzzy_inv text (S i) (fuzzy_step h text k st i).
Proof.
  intros Hi [Hlen Hspan Hsorted]. destruct st as [active found]. simpl in *.
  unfold fuzzy_step.
  destruct (decide (active !! i = Some 1%Z)) as [Hact|Hact].
  - split; simpl; auto.
    intros m Hm. destruct (Hspan m Hm) as (H1 & H2 & H3 & H4).
    repeat split; try lia. exact H4.
  - destruct (fuzzy_inner h k (drop i text) i root 0) as [e|] eqn:He.
    + apply fuzzy_inner_bounds in He. rewrite length_drop in He.
      split; simpl.
      * rewrite length_mark. exact Hlen.
      * intros m Hm. apply elem_of_app in Hm as [Hm|Hm].
        -- destruct (Hspan m Hm) as (H1 & H2 & H3 & H4).
           repeat split; try lia.
           intros p Hp. rewrite mark_lookup.
           destruct (decide (i <= p <= e /\ p < length active)); [reflexivity|].
           apply H4. exact Hp.
        -- apply list_elem_of_singleton in Hm. subst m. simpl.
           repeat split; try lia.
           intros p Hp. rewrite mark_lookup.
           destruct (decide (i <= p <= e /\ p < length active)) as [_|Hn];
             [reflexivity|].
           exfalso. apply Hn. lia.
      * apply StronglySorted_app_2; [| exact Hsorted | repeat constructor].
        intros m1 m2 H1 H2. apply list_elem_of_singleton in H2. subst m2. simpl.
        destruct (Hspan m1 H1) as (Ha & Hb & Hc & Hd).
        destruct (decide (m_end m1 < Z.of_nat i)%Z) as [?|Hge]; [assumption|].
        exfalso. apply Hact. apply Hd. lia.
    + split; simpl; auto.
      intros m Hm. destruct (Hspan m Hm) as (H1 & H2 & H3 & H4).
      repeat split; try lia. exact H4.
Qed.

Lemma fuzzy_inv_loop h text k : forall n i st,
  i + n <= length text -> fuzzy_inv text i st ->
  fuzzy_inv text (i + n) (fold_left (fuzzy_step h text k) (seq i n) st).
Proof.
  induction n as [|n IH]; intros i st Hn Hinv; simpl.
  - rewrite Nat.add_0_r. exact Hinv.
  - replace (i + S n) with (S i + n) by lia.
    apply IH; [lia|]. apply fuzzy_inv_step; [lia | exact Hinv].
Qed.

(** The spans returned by the fuzzy scanner lie inside the text and follow
    one another: each ends before the next starts. *)
Lemma findSensitiveWordsFuzzy_spans h text k :
  (forall m, m ∈ findSensitiveWordsFuzzy h text k ->
     (0 <= start m <= m_end m)%Z /\ (m_end m < Z.of_nat (length text))%Z) /\
  StronglySorted (fun m1 m2 => (m_end m1 < start m2)%Z)
                 (findSensitiveWordsFuzzy h text k).
Proof.
  pose proof (fuzzy_inv_loop h text k (length text) 0 _ (le_n _) (fuzzy_inv_init text))
    as [_ Hspan Hsorted].
  split; [|exact Hsorted].
  intros m Hm. destruct (Hspan m Hm) as (H1 & _ & H3 & _). auto.
Qed.

(** ** The fuzzy scanner never reads a failure link *)

Lemma fuzzy_inner_same_shape h h' k :
  same_shape h h' ->
  forall rest j cur s, fuzzy_inner h k rest j cur s = fuzzy_inner h' k rest j cur s.
Proof.
  intros [_ Hss]. induction rest as [|u rest IH]; intros j cur s; simpl; [reflexivity|].
  destruct (Hss cur) as (-> & _ & _).
  destruct (map_get [u] (children (h' !!! cur))) as [next|].
  - destruct (Hss next) as (_ & -> & _). rewrite IH. reflexivity.
  - rewrite IH. reflexivity.
Qed.

Lemma findSensitiveWordsFuzzy_same_shape h h' text k :
  same_shape h h' -> findSensitiveWordsFuzzy h text k = findSensitiveWordsFuzzy h' text k.
Proof.
  intros Hss. unfold findSensitiveWordsFuzzy. f_equal.
  generalize (replicate (length text) 0%Z, @nil Match).
  generalize (seq 0 (length text)).
  induction l as [|i l IH]; intros st; simpl; [reflexivity|].
  rewrite IH. f_equal. unfold fuzzy_step. destruct st as [active found].
  rewrite (fuzzy_inner_same_shape h h' k Hss). reflexivity.
Qed.

(** ** Negative skip budgets *)

Lemma fuzzy_inner_negative h k :
  (k <= 0)%Z ->
  forall rest j cur s, (0 <= s)%Z ->
    fuzzy_inner h k rest j cur s = fuzzy_inner h 0 rest j cur s.
Proof.
  intros Hk. induction rest as [|u rest IH]; intros j cur s Hs0; simpl; [reflexivity|].
  destruct (map_get [u] (children (h !!! cur))) as [next|].
  - rewrite IH by lia. reflexivity.
  - replace (s <? k)%Z with false by (symmetry; apply Z.ltb_ge; lia).
    replace (s <? 0)%Z with false by (symmetry; apply Z.ltb_ge; lia).
    rewrite andb_false_r. reflexivity.
Qed.

Lemma findSensitiveWordsFuzzy_negative h text k :
  (k <= 0)%Z -> findSensitiveWordsFuzzy h text k = findSensitiveWordsFuzzy h text 0.
Proof.
  intros Hk. unfold findSensitiveWordsFuzzy. f_equal.
  generalize (replicate (length text) 0%Z, @nil Match).
  generalize (seq 0 (length text)).
  induction l as [|i l IH]; intros st; simpl; [reflexivity|].
  rewrite IH. f_equal. unfold fuzzy_step. destruct st as [active found].
  rewrite (fuzzy_inner_negative h k Hk) by lia. reflexivity.
Qed.

(** ** Spans of the fuzzy scanner *)

(** C5. For every dictionary, every text and every skip budget (the
    non-negative ones in particular), two matches at different places of
    the list returned by the fuzzy scanner have non-empty inclusive ranges
    [start..end] with no position in common. *)
Theorem findSensitiveWordsFuzzy_disjoint (D : list jsstring) (text : jsstring) (maxSkip : Z) :
  exists a,
    loadSensitiveWords D = Ok a /\
    forall i j m1 m2,
      i <> j ->
      findSensitiveWordsFuzzy a text maxSkip !! i = Some m1 ->
      findSensitiveWordsFuzzy a text maxSkip !! j = Some m2 ->
      (start m1 <= m_end m1)%Z /\ (start m2 <= m_end m2)%Z /\
      forall p : Z,
        ~ ((start m1 <= p <= m_end m1)%Z /\ (start m2 <= p <= m_end m2)%Z).
Proof.
  destruct (loadSensitiveWords_built D) as (a & Ha & _).
  exists a. split; [exact Ha|].
  destruct (findSensitiveWordsFuzzy_spans a text maxSkip) as [Hspan Hsorted].
  intros i j m1 m2 Hij H1 H2.
  pose proof (Hspan m1 (list_elem_of_lookup_2 _ i m1 H1)) as [S1 _].
  pose proof (Hspan m2 (list_elem_of_lookup_2 _ j m2 H2)) as [S2 _].
  split; [lia|]. split; [lia|].
  intros p [P1 P2].
  destruct (Nat.lt_total i j) as [Hlt|[Heq|Hgt]]; [| contradiction |].
  - pose proof (StronglySorted_lookup _ _ i j m1 m2 Hsorted Hlt H1 H2). simpl in *. lia.
  - pose proof (StronglySorted_lookup _ _ j i m2 m1 Hsorted Hgt H2 H1). simpl in *. lia.
Qed.

Lemma findSensitiveWordsFuzzy_disjoint_witness :
  (start (mkMatch str_a 0 0) <= m_end (mkMatch str_a 0 0))%Z /\
  (start (mkMatch str_a 1 1) <= m_end (mkMatch str_a 1 1))%Z /\
  forall p : Z,
    ~ ((start (mkMatch str_a 0 0) <= p <= m_end (mkMatch str_a 0 0))%Z /\
       (start (mkMatch str_a 1 1) <= p <= m_end (mkMatch str_a 1 1))%Z).
Proof.
  destruct (findSensitiveWordsFuzzy_disjoint [str_a] str_aa 5) as (a & Ha & Hdis).
  vm_compute in Ha. injection Ha as <-.
  apply (Hdis 0 1); [lia | reflexivity | reflexivity].
Defined.

(** ** Scanning before the failure links are built *)

Lemma scan_loop_unbuilt h text :
  trie_shape h -> (forall y, fail (h !!! y) = None) ->
  forall chars idx found,
    scan_loop h text (root, idx, found) chars =
    if existsb (fun c => map_has c (children (h !!! root))) chars
    then TypeError
    else Ok (root, (idx + Z.of_nat (length chars))%Z, found).
Proof.
  intros Hs Hnone. induction chars as [|c chars IH]; intros idx found.
  - simpl. rewrite Z.add_0_r. reflexivity.
  - simpl scan_loop. unfold scan_step.
    pose proof (ts_root h Hs) as Hlen.
    destruct (length h) as [|fuel] eqn:El; [lia|].
    simpl follow_fail. simpl bind. simpl existsb. unfold map_has at 1.
    destruct (map_get c (children (h !!! root))) as [child|] eqn:E.
    + apply (ts_child h Hs) in E. simpl report.
      destruct (Nat.eqb_spec child root) as [->|_]; [unfold root in E; lia|].
      rewrite Hnone. destruct fuel; reflexivity.
    + simpl report. simpl bind. rewrite IH. simpl orb.
      destruct (existsb _ chars); [reflexivity|].
      do 2 f_equal. simpl length. f_equal. lia.
Qed.

(** C7, as the code has it.  Neither scanner checks that the failure links
    were built.  The fuzzy scanner returns before [buildFailPointers] what
    it returns after it.  The exact scanner, run on the automaton as the
    insertions leave it, returns the empty list when no character of the
    text labels a child of the root, and fails with the [TypeError] of a
    [null] failure link otherwise. *)
Theorem scan_before_buildFailPointers (D : list jsstring) (text : jsstring) (maxSkip : Z) :
  exists a,
    loadSensitiveWords D = Ok a /\
    findSensitiveWordsFuzzy (insertWords D) text maxSkip
      = findSensitiveWordsFuzzy a text maxSkip /\
    findSensitiveWords (insertWords D) text =
      if existsb (fun c => map_has c (children (insertWords D !!! root))) (code_points text)
      then TypeError
      else Ok [].
Proof.
  destruct (loadSensitiveWords_built D) as (a & Ha & Hb).
  destruct (insertWords_spec D) as (Hs & _ & Hnone).
  exists a. split; [exact Ha|]. split.
  - apply findSensitiveWordsFuzzy_same_shape. apply (bt_same D a Hb).
  - unfold findSensitiveWords.
    rewrite (scan_loop_unbuilt (insertWords D) text Hs Hnone).
    destruct (existsb _ (code_points text)); reflexivity.
Qed.

(** C7 as stated fails: on the automaton of the dictionary ["a"] without
    failure links, the exact scan of "b" and the fuzzy scan of "a" both
    return a result. *)
Lemma scan_before_build_returns :
  insertWords [str_a] = [ mkNode [(str_a, 1)] None false 0; mkNode [] None true 1 ] /\
  findSensitiveWords (insertWords [str_a]) str_b = Ok [] /\
  findSensitiveWordsFuzzy (insertWords [str_a]) str_a 5 = [ mkMatch str_a 0 0 ].
Proof. split; [reflexivity|]. split; vm_compute; reflexivity. Qed.

(** ** Negative skip budgets *)

(** C8, as the code has it.  A negative [maxSkip] is not rejected: the
    fuzzy scanner runs and returns what it returns for [maxSkip = 0]. *)
Theorem findSensitiveWordsFuzzy_negative_maxSkip
    (D : list jsstring) (text : jsstring) (maxSkip : Z) :
  (maxSkip < 0)%Z ->
  exists a,
    loadSensitiveWords D = Ok a /\
    findSensitiveWordsFuzzy a text maxSkip = findSensitiveWordsFuzzy a text 0.
Proof.
  intros Hneg. destruct (loadSensitiveWords_built D) as (a & Ha & _).
  exists a. split; [exact Ha|].
  apply findSensitiveWordsFuzzy_negative. lia.
Qed.

Lemma findSensitiveWordsFuzzy_negative_maxSkip_witness :
  exists a,
    loadSensitiveWords [str_a] = Ok a /\
    findSensitiveWordsFuzzy a str_a (-1) = findSensitiveWordsFuzzy a str_a 0.
Proof. apply (findSensitiveWordsFuzzy_negative_maxSkip [str_a] str_a (-1)). lia. Defined.

(** C8 as stated fails: with [maxSkip = -1] the scan of "a" against the
    dictionary ["a"] produces a match. *)
Lemma findSensitiveWordsFuzzy_negative_returns :
  exists a,
    loadSensitiveWords [str_a] = Ok a /\
    findSensitiveWordsFuzzy a str_a (-1) = [ mkMatch str_a 0 0 ].
Proof.
  destruct (loadSensitiveWords_built [str_a]) as (a & Ha & _).
  exists a. split; [exact Ha|].
  vm_compute in Ha. injection Ha as <-. vm_compute. reflexivity.
Qed.

(** ** Matched positions of the fuzzy scanner *)

Lemma fuzzy_inner_erase h k : forall rest j cur s,
  fuzzy_inner h k rest j cur s = fst <$> fuzzy_inner_trace h k rest j cur s.
Proof.
  induction rest as [|u rest IH]; intros j cur s; simpl; [reflexivity|].
  destruct (map_get [u] (children (h !!! cur))) as [next|].
  - destruct (tn_end (h !!! next)); [reflexivity|].
    rewrite IH. destruct (fuzzy_inner_trace h k rest (S j) next 0) as [[e tr]|]; reflexivity.
  - destruct (negb (cur =? root) && (s <? k)%Z); [apply IH | reflexivity].
Qed.

Lemma fuzzy_step_erase h text k st i :
  fuzzy_step h text k (fst st, (snd st).*1) i =
  (fst (fuzzy_step_trace h text k st i), (snd (fuzzy_step_trace h text k st i)).*1).
Proof.
  destruct st as [active found]. unfold fuzzy_step, fuzzy_step_trace. simpl.
  destruct (decide (active !! i = Some 1%Z)); [reflexivity|].
  rewrite fuzzy_inner_erase.
  destruct (fuzzy_inner_trace h k (drop i text) i root 0) as [[e tr]|]; simpl;
    [|reflexivity].
  rewrite fmap_app. reflexivity.
Qed.

Lemma fuzzy_loop_erase h text k : forall l st,
  fold_left (fuzzy_step h text k) l (fst st, (snd st).*1) =
  (fst (fold_left (fuzzy_step_trace h text k) l st),
   (snd (fold_left (fuzzy_step_trace h text k) l st)).*1).
Proof.
  induction l as [|i l IH]; intros st; cbn [fold_left]; [reflexivity|].
  rewrite fuzzy_step_erase. apply IH.
Qed.

Lemma findSensitiveWordsFuzzy_erase h text k :
  (findSensitiveWordsFuzzy_trace h text k).*1 = findSensitiveWordsFuzzy h text k.
Proof.
  unfold findSensitiveWordsFuzzy, findSensitiveWordsFuzzy_trace.
  pose proof (fuzzy_loop_erase h text k (seq 0 (length text))
                (replicate (length text) 0%Z, [])) as H.
  cbn [fst snd] in H. rewrite fmap_nil in H. rewrite H. reflexivity.
Qed.

(** Every pair of the traced result comes from one run of the inner loop,
    started at the root on a position that is the match's [start]. *)
Lemma findSensitiveWordsFuzzy_trace_run h text k m tr :
  (m, tr) ∈ findSensitiveWordsFuzzy_trace h text k ->
  exists i e,
    i < length text /\
    fuzzy_inner_trace h k (drop i text) i root 0 = Some (e, tr) /\
    start m = Z.of_nat i /\ m_end m = Z.of_nat e.
Proof.
  unfold findSensitiveWordsFuzzy_trace.
  set (Q := fun x : Match * list nat =>
         exists i e, i < length text /\
           fuzzy_inner_trace h k (drop i text) i root 0 = Some (e, snd x) /\
           start (fst x) = Z.of_nat i /\ m_end (fst x) = Z.of_nat e).
  assert (Hgen : forall l st,
    (forall i, i ∈ l -> i < length text) -> Forall Q (snd st) ->
    Forall Q (snd (fold_left (fuzzy_step_trace h text k) l st))).
  { induction l as [|i l IH]; intros st Hl Hst; simpl; [exact Hst|].
    apply IH; [intros i' Hi'; apply Hl; set_solver|].
    destruct st as [active found]. unfold fuzzy_step_trace.
    destruct (decide (active !! i = Some 1%Z)); [exact Hst|].
    destruct (fuzzy_inner_trace h k (drop i text) i root 0) as [[e tr']|] eqn:E;
      [|exact Hst].
    simpl in *. apply Forall_app. split; [exact Hst|].
    constructor; [|constructor].
    exists i, e. simpl. split; [apply Hl; set_solver|]. auto. }
  intros Hin.
  assert (HF : Forall Q (snd (fold_left (fuzzy_step_trace h text k) (seq 0 (length text))
                                         (replicate (length text) 0%Z, [])))).
  { apply Hgen; [intros i Hi; apply elem_of_seq in Hi; lia | constructor]. }
  rewrite Forall_forall in HF. apply (HF (m, tr) Hin).
Qed.

Lemma fuzzy_inner_trace_range h k : forall rest j cur s e tr,
  fuzzy_inner_trace h k rest j cur s = Some (e, tr) ->
  j <= e /\ Forall (fun p => j <= p <= e) tr /\ last tr = Some e.
Proof.
  induction rest as [|u rest IH]; intros j cur s e tr; simpl; [discriminate|].
  destruct (map_get [u] (children (h !!! cur))) as [next|].
  - destruct (tn_end (h !!! next)).
    + intros [= <- <-]. split; [lia|]. split; [|reflexivity].
      constructor; [lia | constructor].
    + destruct (fuzzy_inner_trace h k rest (S j) next 0) as [[e1 tr1]|] eqn:E;
        [|discriminate].
      intros [= <- <-]. destruct (IH _ _ _ _ _ E) as (H1 & H2 & H3).
      split; [lia|]. split.
      * constructor; [lia|]. eapply Forall_impl; [exact H2|]. simpl. intros; lia.
      * destruct tr1; [discriminate | exact H3].
  - destruct (negb (cur =? root) && (s <? k)%Z); [|discriminate].
    intros H. destruct (IH _ _ _ _ _ H) as (H1 & H2 & H3).
    split; [lia|]. split; [|exact H3].
    eapply Forall_impl; [exact H2|]. simpl. intros; lia.
Qed.

(** The first matched position: the loop cannot skip while it is at the
    root, and elsewhere it skips at most what is left of the budget. *)
Lemma fuzzy_inner_trace_gaps h k :
  (0 <= k)%Z ->
  forall rest j cur s e tr,
    (0 <= s)%Z ->
    fuzzy_inner_trace h k rest j cur s = Some (e, tr) ->
    exists p tr',
      tr = p :: tr' /\ j <= p /\
      (p = j \/ (cur <> root /\ (s + Z.of_nat (p - j) <= k)%Z)) /\
      gaps_within k p tr'.
Proof.
  intros Hk. induction rest as [|u rest IH]; intros j cur s e tr Hs; simpl; [discriminate|].
  destruct (map_get [u] (children (h !!! cur))) as [next|].
  - destruct (tn_end (h !!! next)).
    + intros [= <- <-]. exists j, []. simpl. auto.
    + destruct (fuzzy_inner_trace h k rest (S j) next 0) as [[e1 tr1]|] eqn:E;
        [|discriminate].
      intros [= <- <-].
      destruct (IH _ _ _ _ _ (Z.le_refl 0) E) as (p & tr' & -> & Hp & Hfirst & Hg).
      exists j, (p :: tr'). split; [reflexivity|]. split; [lia|]. split; [auto|].
      simpl. split; [lia|]. split; [|exact Hg].
      destruct Hfirst as [->|[_ H]]; lia.
  - destruct (negb (cur =? root) && (s <? k)%Z) eqn:Hc; [|discriminate].
    apply andb_true_iff in Hc as [Hroot Hlt].
    apply negb_true_iff, Nat.eqb_neq in Hroot. apply Z.ltb_lt in Hlt.
    intros H. assert (Hs1 : (0 <= s + 1)%Z) by lia.
    destruct (IH _ _ _ _ _ Hs1 H) as (p & tr' & -> & Hp & Hfirst & Hg).
    exists p, tr'. split; [reflexivity|]. split; [lia|]. split; [|exact Hg].
    right. split; [exact Hroot|]. destruct Hfirst as [->|[_ H']]; lia.
Qed.

Lemma fuzzy_inner_trace_head h k : forall rest j e tr,
  fuzzy_inner_trace h k rest j root 0 = Some (e, tr) -> head tr = Some j.
Proof.
  intros rest j e tr. destruct rest as [|u rest]; simpl; [discriminate|].
  destruct (map_get [u] (children (h !!! root))) as [next|].
  - destruct (tn_end (h !!! next)).
    + intros [= <- <-]. reflexivity.
    + destruct (fuzzy_inner_trace h k rest (S j) next 0) as [[e1 tr1]|]; [|discriminate].
      intros [= <- <-]. reflexivity.
  - simpl. discriminate.
Qed.

Lemma chars_at_shift u rest j tr :
  Forall (fun p => S j <= p) tr -> chars_at (u :: rest) j tr = chars_at rest (S j) tr.
Proof.
  unfold chars_at. induction 1 as [|p tr Hp Htr IH]; [reflexivity|].
  rewrite !fmap_cons, IH. f_equal.
  replace (p - j) with (S (p - S j)) by lia. reflexivity.
Qed.

(** The characters at the matched positions spell a path of the trie to a
    terminal node. *)
Lemma fuzzy_inner_trace_walk h k : forall rest j cur s e tr,
  fuzzy_inner_trace h k rest j cur s = Some (e, tr) ->
  exists n, walk h cur (chars_at rest j tr) = Some n /\ tn_end (h !!! n) = true.
Proof.
  induction rest as [|u rest IH]; intros j cur s e tr; simpl; [discriminate|].
  destruct (map_get [u] (children (h !!! cur))) as [next|] eqn:Hget.
  - destruct (tn_end (h !!! next)) eqn:Hend.
    + intros [= <- <-]. exists next. unfold chars_at. simpl.
      rewrite Nat.sub_diag. simpl. rewrite Hget. auto.
    + destruct (fuzzy_inner_trace h k rest (S j) next 0) as [[e1 tr1]|] eqn:E;
        [|discriminate].
      intros [= <- <-]. destruct (IH _ _ _ _ _ E) as (n & Hn & He).
      destruct (fuzzy_inner_trace_range _ _ _ _ _ _ _ _ E) as (_ & Hr & _).
      exists n. split; [|exact He].
      unfold chars_at. rewrite fmap_cons. fold (chars_at (u :: rest) j tr1).
      rewrite chars_at_shift by (eapply Forall_impl; [exact Hr|]; simpl; intros; lia).
      rewrite Nat.sub_diag. simpl. rewrite Hget. exact Hn.
  - destruct (negb (cur =? root) && (s <? k)%Z); [|discriminate].
    intros H. destruct (IH _ _ _ _ _ H) as (n & Hn & He).
    destruct (fuzzy_inner_trace_range _ _ _ _ _ _ _ _ H) as (_ & Hr & _).
    exists n. split; [|exact He].
    rewrite chars_at_shift by (eapply Forall_impl; [exact Hr|]; simpl; intros; lia).
    exact Hn.
Qed.

Lemma chars_at_drop (text : jsstring) i tr :
  Forall (fun p => i <= p) tr ->
  chars_at (drop i text) i tr = (fun p => [text !!! p]) <$> tr.
Proof.
  unfold chars_at. induction 1 as [|p tr Hp Htr IH]; [reflexivity|].
  rewrite !fmap_cons, IH. f_equal. rewrite lookup_total_drop.
  replace (i + (p - i)) with p by lia. reflexivity.
Qed.

Lemma gaps_within_lookup k : forall tr prev i p q,
  gaps_within k prev tr -> (prev :: tr) !! i = Some p -> (prev :: tr) !! S i = Some q ->
  p < q /\ (Z.of_nat q - Z.of_nat p - 1 <= k)%Z.
Proof.
  induction tr as [|x tr IH]; intros prev i p q Hg Hp Hq.
  - destruct i; simpl in Hq; discriminate.
  - destruct Hg as (H1 & H2 & H3). destruct i as [|i].
    + simpl in Hp, Hq. inversion Hp. inversion Hq. subst. auto.
    + apply (IH x i p q H3); assumption.
Qed.

(** C6. For every dictionary, every text and every non-negative [maxSkip],
    each match returned by the fuzzy scanner comes with the text positions
    at which its scan followed a transition of the trie, and two
    consecutive ones [p < q] of these have at most [maxSkip] positions
    (the skipped characters, [q - p - 1] of them) between them. *)
Theorem findSensitiveWordsFuzzy_skip_bound
    (D : list jsstring) (text : jsstring) (maxSkip : Z) :
  (0 <= maxSkip)%Z ->
  exists a,
    loadSensitiveWords D = Ok a /\
    (findSensitiveWordsFuzzy_trace a text maxSkip).*1
      = findSensitiveWordsFuzzy a text maxSkip /\
    forall m tr,
      (m, tr) ∈ findSensitiveWordsFuzzy_trace a text maxSkip ->
      forall i p q,
        tr !! i = Some p -> tr !! S i = Some q ->
        p < q /\ (Z.of_nat q - Z.of_nat p - 1 <= maxSkip)%Z.
Proof.
  intros Hk. destruct (loadSensitiveWords_built D) as (a & Ha & _).
  exists a. split; [exact Ha|]. split; [apply findSensitiveWordsFuzzy_erase|].
  intros m tr Hin i p q Hp Hq.
  destruct (findSensitiveWordsFuzzy_trace_run a text maxSkip m tr Hin)
    as (i0 & e & _ & Hrun & _).
  destruct (fuzzy_inner_trace_gaps a maxSkip Hk _ _ _ _ _ _ (Z.le_refl 0) Hrun)
    as (p0 & tr' & -> & _ & _ & Hg).
  apply (gaps_within_lookup maxSkip tr' p0 i p q Hg Hp Hq).
Qed.

Lemma findSensitiveWordsFuzzy_skip_bound_witness :
  0 < 2 /\ (Z.of_nat 2 - Z.of_nat 0 - 1 <= 1)%Z.
Proof.
  destruct (findSensitiveWordsFuzzy_skip_bound [str_kill] str_k1i2l3l 1 ltac:(lia))
    as (a & Ha & _ & Hgap).
  vm_compute in Ha. injection Ha as <-.
  apply (Hgap (mkMatch str_k1i2l3l 0 6) [0; 2; 4; 6]
           ltac:(vm_compute; apply list_elem_of_singleton; reflexivity) 0);
    reflexivity.
Defined.

(** C10. For every dictionary, every text and every [maxSkip], in each
    match returned by the fuzzy scanner the first matched position is
    [start] and the last one is [end]: the scan cannot skip before its first
    transition, and [end] is where the last transition was taken.  The
    matched positions lie in [start..end] and their characters spell a path
    of the trie from the root to a terminal node, so a position of the span
    that was skipped lies strictly between [start] and [end]. *)
Theorem findSensitiveWordsFuzzy_ends_matched
    (D : list jsstring) (text : jsstring) (maxSkip : Z) :
  exists a,
    loadSensitiveWords D = Ok a /\
    (findSensitiveWordsFuzzy_trace a text maxSkip).*1
      = findSensitiveWordsFuzzy a text maxSkip /\
    forall m tr,
      (m, tr) ∈ findSensitiveWordsFuzzy_trace a text maxSkip ->
      (exists p, head tr = Some p /\ start m = Z.of_nat p) /\
      (exists q, last tr = Some q /\ m_end m = Z.of_nat q) /\
      (forall p, p ∈ tr -> (start m <= Z.of_nat p <= m_end m)%Z) /\
      (exists n, walk a root ((fun p => [text !!! p]) <$> tr) = Some n /\
                 tn_end (a !!! n) = true) /\
      (forall j, (start m <= Z.of_nat j <= m_end m)%Z -> j ∉ tr ->
                 (start m < Z.of_nat j < m_end m)%Z).
Proof.
  destruct (loadSensitiveWords_built D) as (a & Ha & _).
  exists a. split; [exact Ha|]. split; [apply findSensitiveWordsFuzzy_erase|].
  intros m tr Hin.
  destruct (findSensitiveWordsFuzzy_trace_run a text maxSkip m tr Hin)
    as (i & e & _ & Hrun & Hstart & Hend).
  pose proof (fuzzy_inner_trace_head a maxSkip _ _ _ _ Hrun) as Hhead.
  destruct (fuzzy_inner_trace_range a maxSkip _ _ _ _ _ _ Hrun) as (_ & Hrange & Hlast).
  destruct (fuzzy_inner_trace_walk a maxSkip _ _ _ _ _ _ Hrun) as (n & Hn & Hterm).
  rewrite chars_at_drop in Hn
    by (eapply Forall_impl; [exact Hrange|]; simpl; intros; lia).
  rewrite Forall_forall in Hrange.
  split; [exists i; auto|]. split; [exists e; auto|].
  split; [intros p Hp; apply Hrange in Hp; lia|].
  split; [exists n; auto|].
  intros j Hj Hnot.
  assert (j <> i).
  { intros ->. apply Hnot. destruct tr; [discriminate|].
    simpl in Hhead. inversion Hhead. set_solver. }
  assert (j <> e).
  { intros ->. apply Hnot. apply last_Some in Hlast as [l' ->]. set_solver. }
  lia.
Qed.

Lemma findSensitiveWordsFuzzy_ends_matched_witness :
  (exists p, head [0; 2; 4; 6] = Some p /\ start (mkMatch str_k1i2l3l 0 6) = Z.of_nat p) /\
  (exists q, last [0; 2; 4; 6] = Some q /\ m_end (mkMatch str_k1i2l3l 0 6) = Z.of_nat q).
Proof.
  destruct (findSensitiveWordsFuzzy_ends_matched [str_kill] str_k1i2l3l 1)
    as (a & Ha & _ & Hends).
  vm_compute in Ha. injection Ha as <-.
  destruct (Hends (mkMatch str_k1i2l3l 0 6) [0; 2; 4; 6]
              ltac:(vm_compute; apply list_elem_of_singleton; reflexivity))
    as (H1 & H2 & _).
  split; assumption.
Defined.

(** * Further properties of the code *)

(** ** The exact scanner, in code points *)

(** X1. For every dictionary and text, the matches of the exact scanner are
    exactly these: for each character index [i] of the text and each
    non-empty dictionary word [w] whose characters are the last characters
    of the text up to [i], the match with [end = i],
    [start = i - w.length + 1] and [word] the substring at these two
    numbers. *)
Theorem findSensitiveWords_characterised (D : list jsstring) (text : jsstring) :
  exists a ms,
    loadSensitiveWords D = Ok a /\ findSensitiveWords a text = Ok ms /\
    forall m,
      m ∈ ms <->
      exists i w, w ∈ D /\ w <> [] /\ i < length (code_points text) /\
                  code_points w `suffix_of` take (S i) (code_points text) /\
                  m = found_at text (Z.of_nat i) (length w).
Proof.
  destruct (loadSensitiveWords_built D) as (a & Ha & Hb).
  exists a, (scan_spec D text [] (code_points text)).
  split; [exact Ha|]. split; [apply (findSensitiveWords_scan_spec D a Hb)|].
  intros m. rewrite scan_spec_elem. split.
  - intros (k & q & Hk & Hne & Hsuf & Hw & ->).
    apply is_word_spec in Hw as (w & Hw & <-).
    exists k, w. split; [exact Hw|].
    split; [intros ->; apply Hne; reflexivity|].
    split; [exact Hk|]. split; [exact Hsuf|].
    unfold found_by. rewrite concat_code_points. reflexivity.
  - intros (i & w & Hw & Hne & Hi & Hsuf & ->).
    exists i, (code_points w). split; [exact Hi|].
    split; [intros E; apply Hne; rewrite <- (concat_code_points w), E; reflexivity|].
    split; [exact Hsuf|]. split; [apply is_word_spec; eauto|].
    unfold found_by. rewrite concat_code_points. reflexivity.
Qed.

Lemma findSensitiveWords_sound_bmp_witness :
  exists a ms,
    loadSensitiveWords [str_he; str_she] = Ok a /\
    findSensitiveWords a str_she = Ok ms /\
    forall m, m ∈ ms ->
      word m ∈ [str_he; str_she] /\ word m <> [] /\
      exists l1 l2, str_she = l1 ++ word m ++ l2 /\
                    start m = Z.of_nat (length l1) /\
                    m_end m = (Z.of_nat (length l1 + length (word m)) - 1)%Z.
Proof.
  apply (findSensitiveWords_sound_bmp [str_he; str_she] str_she).
  repeat constructor.
Defined.

Lemma findSensitiveWords_complete_bmp_witness :
  exists a ms,
    loadSensitiveWords [str_abc; str_bcd] = Ok a /\
    findSensitiveWords a str_xabcdy = Ok ms /\
    mkMatch str_bcd (Z.of_nat (length [120; 97]%Z))
            (Z.of_nat (length [120; 97]%Z + length str_bcd) - 1) ∈ ms.
Proof.
  apply (findSensitiveWords_complete_bmp [str_abc; str_bcd] str_xabcdy
           str_bcd [120; 97]%Z [121]%Z).
  - repeat constructor.
  - apply elem_of_cons. right. apply elem_of_cons. left. reflexivity.
  - discriminate.
  - reflexivity.
Defined.

(** ** The dictionary as a set *)

Lemma is_word_ext D D' q :
  (forall w, w ∈ D <-> w ∈ D') -> is_word D q = is_word D' q.
Proof.
  intros H. destruct (is_word D' q) eqn:E.
  - apply is_word_spec in E as (w & Hw & Hq). apply is_word_spec.
    exists w. split; [apply H; exact Hw | exact Hq].
  - destruct (is_word D q) eqn:E'; [|reflexivity].
    apply is_word_spec in E' as (w & Hw & Hq).
    assert (is_word D' q = true) by (apply is_word_spec; exists w; split; [apply H|]; auto).
    congruence.
Qed.

Lemma suffix_words_ext (f g : list jsstring -> bool) l :
  (forall q, f q = g q) -> suffix_words f l = suffix_words g l.
Proof.
  intros H. induction l as [|x l IH]; simpl; [reflexivity|].
  rewrite H, IH. reflexivity.
Qed.

Lemma scan_spec_ext D D' text :
  (forall w, w ∈ D <-> w ∈ D') ->
  forall rest pre, scan_spec D text pre rest = scan_spec D' text pre rest.
Proof.
  intros H. induction rest as [|c rest IH]; intros pre; simpl; [reflexivity|].
  rewrite IH. f_equal. f_equal. apply suffix_words_ext. intros q. apply is_word_ext. exact H.
Qed.

(** X4. The result of the exact scanner depends on the dictionary only as a
    set: two word lists with the same members, in any order and with any
    repetitions, give the same list of matches on every text. *)
Theorem findSensitiveWords_dictionary_as_set (D D' : list jsstring) (text : jsstring) :
  (forall w, w ∈ D <-> w ∈ D') ->
  exists a a' ms,
    loadSensitiveWords D = Ok a /\ loadSensitiveWords D' = Ok a' /\
    findSensitiveWords a text = Ok ms /\ findSensitiveWords a' text = Ok ms.
Proof.
  intros H.
  destruct (loadSensitiveWords_built D) as (a & Ha & Hb).
  destruct (loadSensitiveWords_built D') as (a' & Ha' & Hb').
  exists a, a', (scan_spec D text [] (code_points text)).
  split; [exact Ha|]. split; [exact Ha'|].
  split; [apply (findSensitiveWords_scan_spec D a Hb)|].
  rewrite (scan_spec_ext D D' text H). apply (findSensitiveWords_scan_spec D' a' Hb').
Qed.

Lemma findSensitiveWords_dictionary_as_set_witness :
  exists a a' ms,
    loadSensitiveWords [str_he; str_she] = Ok a /\
    loadSensitiveWords [str_she; str_he; str_she] = Ok a' /\
    findSensitiveWords a str_she = Ok ms /\ findSensitiveWords a' str_she = Ok ms.
Proof.
  apply (findSensitiveWords_dictionary_as_set [str_he; str_she] [str_she; str_he; str_she]).
  intros w. rewrite !elem_of_cons. tauto.
Defined.

(** X5. The exact scanner never reports the same span twice: the pairs
    [(start, end)] of the returned matches are pairwise different, also
    when the dictionary lists a word more than once. *)
Theorem findSensitiveWords_no_repeated_span (D : list jsstring) (text : jsstring) :
  exists a ms,
    loadSensitiveWords D = Ok a /\ findSensitiveWords a text = Ok ms /\
    NoDup ((fun m => (start m, m_end m)) <$> ms).
Proof.
  destruct (loadSensitiveWords_built D) as (a & Ha & Hb).
  exists a, (scan_spec D text [] (code_points text)).
  split; [exact Ha|]. split; [apply (findSensitiveWords_scan_spec D a Hb)|].
  pose proof (scan_spec_sorted D text (code_points text) []
                (code_points_nonempty text)) as Hsorted.
  apply NoDup_alt. intros i j x Hi Hj.
  rewrite list_lookup_fmap in Hi, Hj.
  destruct (scan_spec D text [] (code_points text) !! i) as [m1|] eqn:E1; [|discriminate].
  destruct (scan_spec D text [] (code_points text) !! j) as [m2|] eqn:E2; [|discriminate].
  simpl in Hi, Hj. inversion Hi as [Hx1]. inversion Hj as [Hx2].
  rewrite <- Hx1 in Hx2. inversion Hx2 as [[Hs He]].
  destruct (Nat.lt_total i j) as [Hlt|[Heq|Hgt]]; [| exact Heq |].
  - destruct (StronglySorted_lookup _ _ i j m1 m2 Hsorted Hlt E1 E2) as [_ H].
    destruct (H (eq_sym He)). lia.
  - destruct (StronglySorted_lookup _ _ j i m2 m1 Hsorted Hgt E2 E1) as [_ H].
    destruct (H He). lia.
Qed.

(** ** Failure links after [buildFailPointers] *)

Lemma longest_suffix_max {A} (P : list A -> bool) (l s : list A) :
  s `suffix_of` l -> P s = true -> s `suffix_of` longest_suffix P l.
Proof.
  induction l as [|x l IH]; intros Hsuf HP; simpl.
  - exact Hsuf.
  - destruct (P (x :: l)) eqn:E; [exact Hsuf|].
    destruct s as [|y s]; [apply suffix_nil|].
    apply suffix_cons_inv in Hsuf as [Heq|Hsuf]; [congruence|].
    apply IH; assumption.
Qed.

(** X6. In the loaded automaton the root's failure link is [null], and the
    failure link of any other node, whose path from the root is [p], points
    to the node whose path [q] is the longest proper suffix of [p] that is
    itself a path of the trie: every proper suffix of [p] in the trie is a
    suffix of [q]. *)
Theorem fail_longest_proper_suffix (D : list jsstring) :
  exists a,
    loadSensitiveWords D = Ok a /\
    fail (a !!! root) = None /\
    forall n p,
      walk a root p = Some n -> n <> root ->
      exists m q,
        fail (a !!! n) = Some m /\ walk a root q = Some m /\
        q `suffix_of` p /\ length q < length p /\
        forall s, s `suffix_of` p -> length s < length p ->
                  in_trie a s = true -> s `suffix_of` q.
Proof.
  destruct (loadSensitiveWords_built D) as (a & Ha & Hb).
  pose proof (bt_shape D a Hb) as Hs.
  exists a. split; [exact Ha|]. split.
  - apply (built_fail_ok D a Hb [] root eq_refl).
  - intros n p Hp Hne.
    destruct p as [|c p']; [simpl in Hp; congruence|].
    destruct (walk_longest_suffix a p') as [m Hm].
    exists m, (longest_suffix (in_trie a) p').
    split; [rewrite (built_fail_ok D a Hb _ n Hp); exact Hm|].
    split; [exact Hm|].
    split; [apply suffix_cons_r, longest_suffix_suffix|].
    split; [pose proof (longest_suffix_length (in_trie a) p'); simpl; lia|].
    intros s Hsuf Hlen Hin. apply longest_suffix_max; [|exact Hin].
    destruct s as [|y s]; [apply suffix_nil|].
    apply suffix_cons_inv in Hsuf as [Heq|Hsuf]; [|exact Hsuf].
    rewrite Heq in Hlen. lia.
Qed.

Lemma fail_longest_proper_suffix_witness :
  exists m q,
    fail ([ mkNode [(str_a, 1)] None false 0;
            mkNode [(str_b, 2)] (Some 0) false 0;
            mkNode [] (Some 0) true 2 ] !!! 2) = Some m /\
    walk [ mkNode [(str_a, 1)] None false 0;
           mkNode [(str_b, 2)] (Some 0) false 0;
           mkNode [] (Some 0) true 2 ] root q = Some m /\
    q `suffix_of` [str_a; str_b] /\ length q < 2.
Proof.
  destruct (fail_longest_proper_suffix [str_ab]) as (a & Ha & _ & Hfail).
  vm_compute in Ha. injection Ha as <-.
  destruct (Hfail 2 [str_a; str_b] eq_refl ltac:(discriminate))
    as (m & q & H1 & H2 & H3 & H4 & _).
  exists m, q. auto.
Defined.

Lemma node_eq (x y : TrieNode) :
  children x = children y -> fail x = fail y -> tn_end x = tn_end y ->
  tn_length x = tn_length y -> x = y.
Proof. destruct x, y. simpl. intros -> -> -> ->. reflexivity. Qed.

(** Two heaps of the same shape whose failure links are all the required
    ones are equal. *)
Lemma fail_ok_unique h h' :
  trie_shape h -> same_shape h h' ->
  (forall x, x < length h -> fail_ok h x) ->
  (forall x, x < length h' -> fail_ok h' x) ->
  h = h'.
Proof.
  intros Hs Hss Hok Hok'. pose proof Hss as [Hlen Hfields].
  apply list_eq_same_length with (length h); [congruence | reflexivity |].
  intros i x y Hi Hx Hy.
  apply list_lookup_total_correct in Hx, Hy. subst x y.
  destruct (Hfields i) as (Hc & He & Hl).
  apply node_eq; try assumption.
  destruct (ts_reach h Hs i Hi) as [p Hp].
  rewrite (Hok i Hi p Hp).
  rewrite (Hok' i ltac:(lia) p) by (rewrite <- (same_shape_walk h h' root p Hss); exact Hp).
  apply fail_spec_same_shape. exact Hss.
Qed.

(** X7. [buildFailPointers] always completes on the trie the insertions
    leave; it keeps the number of nodes and every node's children, [end]
    flag and [length], changing failure links only; and run a second time
    on its own result it returns that result unchanged. *)
Theorem buildFailPointers_only_links (D : list jsstring) :
  exists a,
    buildFailPointers (insertWords D) = Ok a /\
    length a = length (insertWords D) /\
    (forall n, children (a !!! n) = children (insertWords D !!! n) /\
               tn_end (a !!! n) = tn_end (insertWords D !!! n) /\
               tn_length (a !!! n) = tn_length (insertWords D !!! n)) /\
    buildFailPointers a = Ok a.
Proof.
  destruct (loadSensitiveWords_built D) as (a & Ha & Hb).
  pose proof (bt_shape D a Hb) as Hs.
  destruct (bt_same D a Hb) as [Hlen Hfields].
  exists a. split; [exact Ha|]. split; [congruence|].
  split; [intros n; destruct (Hfields n) as (-> & -> & ->); auto|].
  destruct (buildFailPointers_spec a Hs) as (a' & Ha' & Hss & Hs' & Hok).
  rewrite Ha'. f_equal. symmetry.
  apply (fail_ok_unique a a' Hs Hss (bt_fail D a Hb) Hok).
Qed.

(** ** Insertion and lookup *)

(** X8. Insert and look up.  In the loaded automaton, following the
    characters of a dictionary word from the root ends on a node flagged
    [end] whose [length] is the word's [length]; and a node flagged [end]
    is reached from the root by the characters of a dictionary word only,
    whose [length] it stores. *)
Theorem dictionary_words_are_terminal (D : list jsstring) :
  exists a,
    loadSensitiveWords D = Ok a /\
    (forall w, w ∈ D ->
       exists n, walk a root (code_points w) = Some n /\
                 tn_end (a !!! n) = true /\ tn_length (a !!! n) = length w) /\
    (forall p n, walk a root p = Some n -> tn_end (a !!! n) = true ->
       exists w, w ∈ D /\ code_points w = p /\ tn_length (a !!! n) = length w).
Proof.
  destruct (loadSensitiveWords_built D) as (a & Ha & Hb).
  destruct (bt_words D a Hb) as [Hword Hend].
  exists a. split; [exact Ha|]. split.
  - intros w Hw. destruct (Hword w Hw) as (n & Hn & He).
    exists n. split; [exact Hn|]. split; [exact He|].
    destruct (Hend _ n Hn He) as [_ Hl]. rewrite Hl, concat_code_points. reflexivity.
  - intros p n Hp He. destruct (Hend p n Hp He) as [(w & Hw & Hcp) Hl].
    exists w. split; [exact Hw|]. split; [exact Hcp|].
    rewrite Hl, <- Hcp, concat_code_points. reflexivity.
Qed.

Lemma dictionary_words_are_terminal_witness :
  exists n,
    walk [ mkNode [(str_a, 1)] None false 0;
           mkNode [(str_b, 2)] (Some 0) false 0;
           mkNode [] (Some 0) true 2 ] root (code_points str_ab) = Some n /\
    tn_end ([ mkNode [(str_a, 1)] None false 0;
              mkNode [(str_b, 2)] (Some 0) false 0;
              mkNode [] (Some 0) true 2 ] !!! n) = true /\
    tn_length ([ mkNode [(str_a, 1)] None false 0;
                 mkNode [(str_b, 2)] (Some 0) false 0;
                 mkNode [] (Some 0) true 2 ] !!! n) = length str_ab.
Proof.
  destruct (dictionary_words_are_terminal [str_ab]) as (a & Ha & Hword & _).
  vm_compute in Ha. injection Ha as <-.
  apply Hword. apply list_elem_of_singleton. reflexivity.
Defined.

Lemma addWord_loop_present chars : forall h node n,
  walk h node chars = Some n -> addWord_loop h node chars = (h, n).
Proof.
  induction chars as [|c chars IH]; intros h node n; simpl.
  - intros [= <-]. reflexivity.
  - destruct (map_get c (children (h !!! node))) as [child|]; [apply IH | discriminate].
Qed.

(** X9. Adding a word that the dictionary already holds changes nothing:
    [addWord] allocates no node and rewrites the terminal node with the
    values it has. *)
Theorem addWord_present (D : list jsstring) (w : jsstring) :
  w ∈ D -> addWord (insertWords D) w = insertWords D.
Proof.
  intros Hw. destruct (insertWords_spec D) as (Hs & [Hword Hend] & _).
  destruct (Hword w Hw) as (n & Hn & He).
  unfold addWord. rewrite (addWord_loop_present _ _ root n Hn).
  apply list_insert_id.
  pose proof (walk_lt _ root _ n Hs (ts_root _ Hs) Hn) as Hlt.
  rewrite (list_lookup_lookup_total_lt _ n Hlt). f_equal.
  apply node_eq; simpl; auto.
  destruct (Hend _ n Hn He) as [_ Hl]. rewrite Hl, concat_code_points. reflexivity.
Qed.

Lemma addWord_present_witness :
  addWord (insertWords [str_he; str_she]) str_he = insertWords [str_he; str_she].
Proof.
  apply (addWord_present [str_he; str_she] str_he).
  apply elem_of_cons. left. reflexivity.
Defined.

(** ** Size of the trie *)

Lemma addWord_loop_length chars : forall h node,
  length h <= length (addWord_loop h node chars).1 <= length h + length chars.
Proof.
  induction chars as [|c chars IH]; intros h node; simpl; [lia|].
  destruct (map_get c (children (h !!! node))) as [child|].
  - specialize (IH h child). lia.
  - specialize (IH (<[node := add_child (h !!! node) c (length h)]> h ++ [newTrieNode])
                   (length h)).
    rewrite length_app, length_insert in IH. simpl in IH. lia.
Qed.

Lemma addWord_length h w :
  length h <= length (addWord h w) <= length h + length (code_points w).
Proof.
  unfold addWord. pose proof (addWord_loop_length (code_points w) h root) as H.
  destruct (addWord_loop h root (code_points w)) as [h' node]. simpl in H.
  rewrite length_insert. exact H.
Qed.

Lemma code_points_length (s : jsstring) : length (code_points s) <= length s.
Proof.
  rewrite <- (concat_code_points s) at 2.
  pose proof (code_points_nonempty s) as H.
  induction H as [|c l Hc Hl IH]; simpl; [lia|].
  rewrite length_app. destruct c; [contradiction | simpl; lia].
Qed.

(** X10. The trie never has more nodes than the root plus one node per
    character of the inserted words, hence no more than one plus the total
    [length] of the words; [buildFailPointers] adds none. *)
Theorem trie_size_bound (D : list jsstring) :
  exists a,
    loadSensitiveWords D = Ok a /\
    1 <= length a /\
    length a <= 1 + sum_list_with (fun w => length (code_points w)) D /\
    length a <= 1 + sum_list_with (fun w => length w) D.
Proof.
  destruct (loadSensitiveWords_built D) as (a & Ha & Hb).
  exists a. split; [exact Ha|].
  destruct (bt_same D a Hb) as [<- _].
  assert (Hgen : forall D h,
    length h <= length (fold_left addWord D h)
    <= length h + sum_list_with (fun w => length (code_points w)) D).
  { clear. induction D as [|w D IH]; intros h; simpl; [lia|].
    specialize (IH (addWord h w)). pose proof (addWord_length h w). lia. }
  assert (Hsum : sum_list_with (fun w => length (code_points w)) D
                 <= sum_list_with (fun w => length w) D).
  { clear. induction D as [|w D IH]; simpl; [lia|].
    pose proof (code_points_length w). lia. }
  specialize (Hgen D [newTrieNode]). unfold insertWords. simpl in Hgen. lia.
Qed.

(** ** The paths of the trie *)

Lemma in_trie_prefix_of h p q : p `prefix_of` q -> in_trie h q = true -> in_trie h p = true.
Proof.
  intros [k ->]. unfold in_trie. rewrite walk_app.
  destruct (walk h root p); [reflexivity | discriminate].
Qed.

Lemma addWord_loop_paths chars : forall h node pre,
  trie_shape h -> walk h root pre = Some node ->
  Forall (fun c => c <> []) chars ->
  forall p,
    in_trie (addWord_loop h node chars).1 p = true ->
    in_trie h p = true \/ p `prefix_of` (pre ++ chars).
Proof.
  induction chars as [|c chars IH]; intros h node pre Hs Hpre Hne p; simpl.
  - auto.
  - apply Forall_cons in Hne as [Hc Hne].
    assert (Hnode : node < length h)
      by (apply (walk_lt h root pre node Hs (ts_root h Hs) Hpre)).
    destruct (map_get c (children (h !!! node))) as [child|] eqn:Hget.
    + intros H. apply (IH h child (pre ++ [c]) Hs) in H; auto.
      * rewrite <- app_assoc in H. exact H.
      * rewrite walk_snoc, Hpre. exact Hget.
    + fold (add_leaf h node c). intros H.
      apply (IH (add_leaf h node c) (length h) (pre ++ [c])) in H; auto.
      * rewrite <- app_assoc in H. simpl in H. destruct H as [H|H]; [|auto].
        apply in_trie_walk in H as [y Hy].
        apply (walk_add_leaf h node c p root y Hs Hnode Hget (ts_root h Hs)) in Hy.
        destruct Hy as [Hy|(_ & p' & -> & Hp')].
        -- left. apply in_trie_walk. eauto.
        -- right. rewrite (ts_inj h Hs p' pre node Hp' Hpre).
           apply prefix_app. apply prefix_cons. apply prefix_nil.
      * apply trie_shape_add_leaf; auto.
      * apply (walk_add_leaf h node c _ root _ Hs Hnode Hget (ts_root h Hs)).
        right. split; [reflexivity|]. exists pre. auto.
Qed.

Lemma addWord_paths h w p :
  trie_shape h ->
  in_trie (addWord h w) p = true <->
  in_trie h p = true \/ p `prefix_of` code_points w.
Proof.
  intros Hs. unfold addWord.
  pose proof (addWord_loop_paths (code_points w) h root [] Hs eq_refl
                (code_points_nonempty w) p) as Hpaths.
  destruct (addWord_loop_spec (code_points w) h root [] Hs eq_refl
              (code_points_nonempty w)) as (h' & node & E & Hs' & Hw & Hx).
  rewrite E in *. simpl in Hpaths, Hw.
  assert (Hnode : node < length h')
    by (apply (walk_lt h' root _ node Hs' (ts_root h' Hs') Hw)).
  assert (Hsame : in_trie (<[node := set_end (h' !!! node) (length w)]> h') p = in_trie h' p).
  { unfold in_trie. rewrite walk_update by auto. reflexivity. }
  rewrite Hsame. split; [exact Hpaths|].
  intros [H|H].
  - apply in_trie_walk in H as [y Hy]. apply in_trie_walk.
    exists y. apply (ext_walk h h' Hx). exact Hy.
  - apply (in_trie_prefix_of h' p _ H). apply in_trie_walk. eauto.
Qed.

Lemma insertWords_paths_from D : forall D0 h,
  trie_shape h -> terminal_ok D0 h ->
  (forall p, in_trie h p = true <->
             p = [] \/ exists w, w ∈ D0 /\ p `prefix_of` code_points w) ->
  forall p, in_trie (fold_left addWord D h) p = true <->
            p = [] \/ exists w, w ∈ D0 ++ D /\ p `prefix_of` code_points w.
Proof.
  induction D as [|w D IH]; intros D0 h Hs Ht Hp p; simpl.
  - rewrite app_nil_r. apply Hp.
  - destruct (addWord_spec D0 h w Hs Ht) as (Hs' & Ht' & _).
    replace (D0 ++ w :: D) with ((D0 ++ [w]) ++ D) by (rewrite <- app_assoc; reflexivity).
    apply IH; auto.
    intros q. rewrite (addWord_paths h w q Hs), Hp. split.
    + intros [[->|(w' & Hw' & Hq)]|Hq]; [left; reflexivity | |].
      * right. exists w'. split; [apply elem_of_app; auto | exact Hq].
      * right. exists w. split; [|exact Hq].
        apply elem_of_app. right. apply list_elem_of_singleton. reflexivity.
    + intros [->|(w' & Hw' & Hq)]; [left; left; reflexivity|].
      apply elem_of_app in Hw' as [Hw'|Hw'].
      * left. right. eauto.
      * apply list_elem_of_singleton in Hw'. subst w'. right. exact Hq.
Qed.

(** X11. The trie holds the prefixes of the dictionary words and nothing
    else: a character sequence leads from the root to a node of the loaded
    automaton exactly when it is empty or begins the characters of some
    dictionary word. *)
Theorem trie_paths_are_prefixes (D : list jsstring) :
  exists a,
    loadSensitiveWords D = Ok a /\
    forall p,
      (exists n, walk a root p = Some n) <->
      p = [] \/ exists w, w ∈ D /\ p `prefix_of` code_points w.
Proof.
  destruct (loadSensitiveWords_built D) as (a & Ha & Hb).
  exists a. split; [exact Ha|]. intros p.
  rewrite <- in_trie_walk, <- (in_trie_same_shape _ a p (bt_same D a Hb)).
  apply (insertWords_paths_from D [] [newTrieNode]).
  - apply trie_shape_init.
  - split.
    + intros w Hw. apply elem_of_nil in Hw. contradiction.
    + intros q n. destruct q as [|c q]; simpl; [|discriminate].
      intros [= <-]. discriminate.
  - intros q. split.
    + destruct q as [|c q]; [auto | discriminate].
    + intros [->|(w & Hw & _)]; [reflexivity|].
      apply elem_of_nil in Hw. contradiction.
Qed.

(** ** The fuzzy scanner: what a match is *)

Lemma substring_range (text : jsstring) i e :
  i <= e < length text ->
  substring text (Z.of_nat i) (Z.of_nat e + 1) = take (S e - i) (drop i text).
Proof.
  intros H. unfold substring, clamp.
  replace (Z.to_nat (Z.min (Z.max (Z.of_nat i) 0) (Z.of_nat (length text)))) with i by lia.
  replace (Z.to_nat (Z.min (Z.max (Z.of_nat e + 1) 0) (Z.of_nat (length text))))
    with (S e) by lia.
  replace (Nat.min i (S e)) with i by lia.
  replace (Nat.max i (S e)) with (S e) by lia. reflexivity.
Qed.

(** Every match of the fuzzy scanner was pushed by an inner loop that
    started at [start] and stopped at [end]. *)
Lemma findSensitiveWordsFuzzy_run h text k m :
  m ∈ findSensitiveWordsFuzzy h text k ->
  exists i e,
    fuzzy_inner h k (drop i text) i root 0 = Some e /\ i <= e < length text /\
    m = mkMatch (substring text (Z.of_nat i) (Z.of_nat e + 1)) (Z.of_nat i) (Z.of_nat e).
Proof.
  unfold findSensitiveWordsFuzzy.
  set (Q := fun m : Match =>
         exists i e,
           fuzzy_inner h k (drop i text) i root 0 = Some e /\ i <= e < length text /\
           m = mkMatch (substring text (Z.of_nat i) (Z.of_nat e + 1))
                       (Z.of_nat i) (Z.of_nat e)).
  assert (Hgen : forall l st,
    Forall Q (snd st) -> Forall Q (snd (fold_left (fuzzy_step h text k) l st))).
  { induction l as [|i l IH]; intros st Hst; simpl; [exact Hst|].
    apply IH. destruct st as [active found]. unfold fuzzy_step.
    destruct (decide (active !! i = Some 1%Z)); [exact Hst|].
    destruct (fuzzy_inner h k (drop i text) i root 0) as [e|] eqn:E; [|exact Hst].
    simpl in *. apply Forall_app. split; [exact Hst|].
    constructor; [|constructor].
    exists i, e. split; [exact E|]. split; [|reflexivity].
    apply fuzzy_inner_bounds in E. rewrite length_drop in E. lia. }
  intros Hin.
  assert (HF : Forall Q (snd (fold_left (fuzzy_step h text k) (seq 0 (length text))
                                         (replicate (length text) 0%Z, []))))
    by (apply Hgen; constructor).
  rewrite Forall_forall in HF. apply (HF m Hin).
Qed.

(** X12. Every match of the fuzzy scanner lies inside the text, and its
    [word] is the non-empty run of code units of the text from [start] to
    [end]; the matches are listed from left to right, each ending before
    the next one starts. *)
Theorem findSensitiveWordsFuzzy_within_text
    (D : list jsstring) (text : jsstring) (maxSkip : Z) :
  exists a,
    loadSensitiveWords D = Ok a /\
    (forall m, m ∈ findSensitiveWordsFuzzy a text maxSkip ->
       word m <> [] /\
       exists l1 l2, text = l1 ++ word m ++ l2 /\
                     start m = Z.of_nat (length l1) /\
                     m_end m = (Z.of_nat (length l1 + length (word m)) - 1)%Z) /\
    (forall i j m1 m2,
       i < j ->
       findSensitiveWordsFuzzy a text maxSkip !! i = Some m1 ->
       findSensitiveWordsFuzzy a text maxSkip !! j = Some m2 ->
       (m_end m1 < start m2)%Z).
Proof.
  destruct (loadSensitiveWords_built D) as (a & Ha & _).
  exists a. split; [exact Ha|]. split.
  - intros m Hm.
    destruct (findSensitiveWordsFuzzy_run a text maxSkip m Hm) as (i & e & _ & Hie & ->).
    simpl. rewrite (substring_range text i e Hie).
    assert (Hlen : length (take (S e - i) (drop i text)) = S e - i)
      by (rewrite length_take, length_drop; lia).
    split; [intros E; rewrite E in Hlen; simpl in Hlen; lia|].
    exists (take i text), (drop (S e - i) (drop i text)).
    rewrite take_drop, take_drop, Hlen, length_take.
    split; [reflexivity|]. lia.
  - intros i j m1 m2 Hij H1 H2.
    destruct (findSensitiveWordsFuzzy_spans a text maxSkip) as [_ Hsorted].
    apply (StronglySorted_lookup _ _ i j m1 m2 Hsorted Hij H1 H2).
Qed.

Lemma findSensitiveWordsFuzzy_within_text_witness :
  (m_end (mkMatch str_a 0 0) < start (mkMatch str_a 1 1))%Z.
Proof.
  destruct (findSensitiveWordsFuzzy_within_text [str_a] str_aa 5) as (a & Ha & _ & Hord).
  vm_compute in Ha. injection Ha as <-.
  apply (Hord 0 1); [lia | reflexivity | reflexivity].
Defined.

(** ** The fuzzy scanner without skipping *)

Lemma gaps_within_zero : forall tr p,
  gaps_within 0 p tr -> p :: tr = seq p (S (length tr)).
Proof.
  induction tr as [|q tr IH]; intros p H; [reflexivity|].
  destruct H as (H1 & H2 & H3).
  assert (q = S p) by lia. subst q.
  simpl. f_equal. apply (IH (S p) H3).
Qed.

Lemma chars_of_seq (text : jsstring) : forall n i,
  i + n <= length text ->
  (fun p => [text !!! p]) <$> seq i n = (fun u => [u]) <$> take n (drop i text).
Proof.
  induction n as [|n IH]; intros i Hi; [reflexivity|].
  simpl seq. rewrite fmap_cons, (IH (S i)) by lia.
  destruct (drop i text) as [|u rest] eqn:E.
  - apply (f_equal length) in E. rewrite length_drop in E. simpl in E. lia.
  - assert (Hu : text !!! i = u).
    { pose proof (lookup_total_drop text i 0) as H.
      rewrite E, Nat.add_0_r in H. symmetry. exact H. }
    assert (Hrest : drop (S i) text = rest).
    { replace (S i) with (i + 1) by lia. rewrite <- drop_drop, E. reflexivity. }
    rewrite Hu, Hrest. reflexivity.
Qed.

Lemma last_seq i n : last (seq i (S n)) = Some (i + n).
Proof.
  revert i. induction n as [|n IH]; intros i; [simpl; f_equal; lia|].
  change (seq i (S (S n))) with (i :: seq (S i) (S n)).
  rewrite last_cons, IH. f_equal. lia.
Qed.

(** With no skipping allowed, a match of the fuzzy scanner on a loaded
    automaton is a dictionary word standing in the text. *)
Lemma fuzzy_no_skip_literal D a text m :
  built D a -> m ∈ findSensitiveWordsFuzzy a text 0 ->
  word m ∈ D /\ word m <> [] /\
  exists l1 l2, text = l1 ++ word m ++ l2 /\
                start m = Z.of_nat (length l1) /\
                m_end m = (Z.of_nat (length l1 + length (word m)) - 1)%Z.
Proof.
  intros Hb Hm. rewrite <- findSensitiveWordsFuzzy_erase in Hm.
  apply list_elem_of_fmap in Hm as ([m' tr] & -> & Hin). simpl.
  destruct (findSensitiveWordsFuzzy_trace_run a text 0 m' tr Hin)
    as (i & e & Hi & Hrun & Hstart & Hend).
  destruct (fuzzy_inner_trace_gaps a 0 (Z.le_refl 0) _ _ _ _ _ _ (Z.le_refl 0) Hrun)
    as (p & tr' & -> & _ & _ & Hg).
  pose proof (fuzzy_inner_trace_head a 0 _ _ _ _ Hrun) as Hhead.
  simpl in Hhead. injection Hhead as ->.
  destruct (fuzzy_inner_trace_range a 0 _ _ _ _ _ _ Hrun) as (Hie & Hrange & Hlast).
  destruct (fuzzy_inner_trace_walk a 0 _ _ _ _ _ _ Hrun) as (n & Hn & Hterm).
  rewrite chars_at_drop in Hn
    by (eapply Forall_impl; [exact Hrange|]; simpl; intros; lia).
  rewrite (gaps_within_zero tr' i Hg) in Hn, Hlast.
  rewrite last_seq in Hlast. injection Hlast as He.
  assert (Hbound : e < length text).
  { assert (H := fuzzy_inner_erase a 0 (drop i text) i root 0).
    rewrite Hrun in H. simpl in H. apply fuzzy_inner_bounds in H.
    rewrite length_drop in H. lia. }
  rewrite chars_of_seq in Hn by lia.
  destruct (to_end D a (bt_words D a Hb) _ n Hn Hterm) as [(w & Hw & Hcp) _].
  assert (Ew : w = take (S (length tr')) (drop i text)).
  { rewrite <- (concat_code_points w), Hcp. apply concat_singletons. }
  assert (Hrun' : m' ∈ findSensitiveWordsFuzzy a text 0).
  { rewrite <- findSensitiveWordsFuzzy_erase. apply list_elem_of_fmap.
    exists (m', i :: tr'). auto. }
  destruct (findSensitiveWordsFuzzy_run a text 0 m' Hrun') as (i' & e' & _ & Hie' & Em).
  rewrite Em in Hstart, Hend. simpl in Hstart, Hend.
  assert (i' = i) by lia. assert (e' = e) by lia. subst i' e'.
  rewrite Em. simpl. rewrite (substring_range text i e Hie').
  replace (S e - i) with (S (length tr')) by lia. rewrite <- Ew.
  split; [exact Hw|].
  assert (Hlen : length w = S (length tr'))
    by (rewrite Ew, length_take, length_drop; lia).
  split; [intros E; rewrite E in Hlen; discriminate|].
  exists (take i text), (drop (S (length tr')) (drop i text)).
  rewrite Ew at 1. rewrite take_drop, take_drop, length_take.
  split; [reflexivity|]. lia.
Qed.

(** X13. With [maxSkip] zero or negative the fuzzy scanner matches
    literally: the [word] of every match is a word of the dictionary, and it
    stands in the text at the offsets [start..end]. *)
Theorem findSensitiveWordsFuzzy_no_skip
    (D : list jsstring) (text : jsstring) (maxSkip : Z) :
  (maxSkip <= 0)%Z ->
  exists a,
    loadSensitiveWords D = Ok a /\
    forall m, m ∈ findSensitiveWordsFuzzy a text maxSkip ->
      word m ∈ D /\ word m <> [] /\
      exists l1 l2, text = l1 ++ word m ++ l2 /\
                    start m = Z.of_nat (length l1) /\
                    m_end m = (Z.of_nat (length l1 + length (word m)) - 1)%Z.
Proof.
  intros Hk. destruct (loadSensitiveWords_built D) as (a & Ha & Hb).
  exists a. split; [exact Ha|].
  intros m Hm. rewrite (findSensitiveWordsFuzzy_negative a text maxSkip Hk) in Hm.
  apply (fuzzy_no_skip_literal D a text m Hb Hm).
Qed.

Lemma findSensitiveWordsFuzzy_no_skip_witness :
  exists a,
    loadSensitiveWords [str_a] = Ok a /\
    forall m, m ∈ findSensitiveWordsFuzzy a str_aa 0 ->
      word m ∈ [str_a] /\ word m <> [] /\
      exists l1 l2, str_aa = l1 ++ word m ++ l2 /\
                    start m = Z.of_nat (length l1) /\
                    m_end m = (Z.of_nat (length l1 + length (word m)) - 1)%Z.
Proof. apply (findSensitiveWordsFuzzy_no_skip [str_a] str_aa 0). lia. Defined.

(** ** The fuzzy scanner and the exact scanner *)

(** On a loaded automaton and a text without lead surrogates, a
    dictionary word standing in the text is in the exact scanner's list. *)
Lemma scan_spec_occurrence D a text (w l1 l2 : jsstring) :
  built D a -> Forall (fun u => is_lead u = false) text ->
  w ∈ D -> w <> [] -> text = l1 ++ w ++ l2 ->
  mkMatch w (Z.of_nat (length l1)) (Z.of_nat (length l1 + length w) - 1)
    ∈ scan_spec D text [] (code_points text).
Proof.
  intros Hb Hbmp Hw Hne Htext.
  assert (Hwb : Forall (fun u => is_lead u = false) w).
  { rewrite Htext in Hbmp. apply Forall_app in Hbmp as [_ H].
    apply Forall_app in H as [H _]. exact H. }
  assert (Hlen : 0 < length w) by (destruct w; [contradiction | simpl; lia]).
  apply scan_spec_elem.
  exists (length l1 + length w - 1), ((fun u => [u]) <$> w).
  rewrite (code_points_bmp text Hbmp), length_fmap.
  split; [rewrite Htext, !length_app; lia|].
  split; [destruct w; [contradiction | discriminate]|].
  split.
  - simpl app. rewrite <- fmap_take, Htext, app_assoc.
    replace (S (length l1 + length w - 1)) with (length (l1 ++ w))
      by (rewrite length_app; lia).
    rewrite take_app_length, fmap_app. apply suffix_app_r. reflexivity.
  - split; [apply is_word_spec; exists w; split; [exact Hw | apply code_points_bmp; exact Hwb]|].
    unfold found_by, found_at. rewrite concat_singletons. simpl length.
    f_equal; try lia.
    rewrite Htext.
    replace (Z.of_nat (0 + (length l1 + length w - 1)) - Z.of_nat (length w) + 1)%Z
      with (Z.of_nat (length l1)) by lia.
    replace (Z.of_nat (0 + (length l1 + length w - 1)) + 1)%Z
      with (Z.of_nat (length l1 + length w)) by lia.
    symmetry. apply substring_middle.
Qed.

(** X14. On a text without lead surrogates, with [maxSkip] zero or
    negative, every match of the fuzzy scanner is one of the matches of the
    exact scanner, with the same [word], [start] and [end]. *)
Theorem findSensitiveWordsFuzzy_no_skip_exact
    (D : list jsstring) (text : jsstring) (maxSkip : Z) :
  (maxSkip <= 0)%Z -> Forall (fun u => is_lead u = false) text ->
  exists a ms,
    loadSensitiveWords D = Ok a /\ findSensitiveWords a text = Ok ms /\
    forall m, m ∈ findSensitiveWordsFuzzy a text maxSkip -> m ∈ ms.
Proof.
  intros Hk Hbmp. destruct (loadSensitiveWords_built D) as (a & Ha & Hb).
  exists a, (scan_spec D text [] (code_points text)).
  split; [exact Ha|]. split; [apply (findSensitiveWords_scan_spec D a Hb)|].
  intros m Hm. rewrite (findSensitiveWordsFuzzy_negative a text maxSkip Hk) in Hm.
  destruct (fuzzy_no_skip_literal D a text m Hb Hm)
    as (Hw & Hne & l1 & l2 & Htext & Hstart & Hend).
  pose proof (scan_spec_occurrence D a text (word m) l1 l2 Hb Hbmp Hw Hne Htext) as Hin.
  destruct m as [w s e]. simpl in *. rewrite Hstart, Hend. exact Hin.
Qed.

Lemma findSensitiveWordsFuzzy_no_skip_exact_witness :
  exists a ms,
    loadSensitiveWords [str_he; str_she] = Ok a /\
    findSensitiveWords a str_she = Ok ms /\
    forall m, m ∈ findSensitiveWordsFuzzy a str_she 0 -> m ∈ ms.
Proof.
  apply (findSensitiveWordsFuzzy_no_skip_exact [str_he; str_she] str_she 0).
  - lia.
  - repeat constructor.
Defined.

(** ** The fuzzy scanner stops at the first word *)

Lemma fuzzy_inner_trace_first h k : forall rest j cur s e tr,
  fuzzy_inner_trace h k rest j cur s = Some (e, tr) ->
  forall tr1 tr2 n,
    tr = tr1 ++ tr2 -> tr1 <> [] -> tr2 <> [] ->
    walk h cur (chars_at rest j tr1) = Some n -> tn_end (h !!! n) = false.
Proof.
  induction rest as [|u rest IH]; intros j cur s e tr; simpl; [discriminate|].
  destruct (map_get [u] (children (h !!! cur))) as [next|] eqn:Hget.
  - destruct (tn_end (h !!! next)) eqn:Hend.
    + intros [= <- <-] tr1 tr2 n E H1 H2 _. exfalso.
      destruct tr1 as [|x tr1]; [contradiction|].
      destruct tr2 as [|z tr2]; [contradiction|].
      apply (f_equal length) in E. rewrite length_app in E. simpl in E. lia.
    + destruct (fuzzy_inner_trace h k rest (S j) next 0) as [[e1 trr]|] eqn:E;
        [|discriminate].
      intros [= <- <-] tr1 tr2 n Eq H1 H2.
      destruct tr1 as [|x t1]; [contradiction|].
      inversion Eq as [[Hx Ht]]. subst x.
      destruct (fuzzy_inner_trace_range _ _ _ _ _ _ _ _ E) as (_ & Hr & _).
      assert (Hr1 : Forall (fun p => S j <= p) t1).
      { rewrite Ht in Hr. apply Forall_app in Hr as [Hr _].
        eapply Forall_impl; [exact Hr|]. simpl. intros; lia. }
      unfold chars_at. rewrite fmap_cons. fold (chars_at (u :: rest) j t1).
      rewrite (chars_at_shift u rest j t1 Hr1), Nat.sub_diag. simpl. rewrite Hget.
      destruct t1 as [|y t1'].
      * simpl. intros [= <-]. exact Hend.
      * apply (IH _ _ _ _ _ E (y :: t1') tr2 n Ht ltac:(discriminate) H2).
  - destruct (negb (cur =? root) && (s <? k)%Z); [|discriminate].
    intros H tr1 tr2 n Eq H1 H2.
    destruct (fuzzy_inner_trace_range _ _ _ _ _ _ _ _ H) as (_ & Hr & _).
    assert (Hr1 : Forall (fun p => S j <= p) tr1).
    { rewrite Eq in Hr. apply Forall_app in Hr as [Hr _].
      eapply Forall_impl; [exact Hr|]. simpl. intros; lia. }
    rewrite (chars_at_shift u rest j tr1 Hr1).
    apply (IH _ _ _ _ _ H tr1 tr2 n Eq H1 H2).
Qed.

(** X15. The fuzzy scanner stops at the first word it completes: of the
    characters it matched for a reported span, no proper initial part
    spells a dictionary word. *)
Theorem findSensitiveWordsFuzzy_first_word
    (D : list jsstring) (text : jsstring) (maxSkip : Z) :
  exists a,
    loadSensitiveWords D = Ok a /\
    (findSensitiveWordsFuzzy_trace a text maxSkip).*1
      = findSensitiveWordsFuzzy a text maxSkip /\
    forall m tr tr1 tr2 w,
      (m, tr) ∈ findSensitiveWordsFuzzy_trace a text maxSkip ->
      tr = tr1 ++ tr2 -> tr2 <> [] ->
      w ∈ D -> w <> [] ->
      code_points w <> (fun p => [text !!! p]) <$> tr1.
Proof.
  destruct (loadSensitiveWords_built D) as (a & Ha & Hb).
  exists a. split; [exact Ha|]. split; [apply findSensitiveWordsFuzzy_erase|].
  intros m tr tr1 tr2 w Hin Eq H2 Hw Hne Hcp.
  destruct (findSensitiveWordsFuzzy_trace_run a text maxSkip m tr Hin)
    as (i & e & _ & Hrun & _).
  destruct (fuzzy_inner_trace_range a maxSkip _ _ _ _ _ _ Hrun) as (_ & Hrange & _).
  assert (Hr1 : Forall (fun p => i <= p) tr1).
  { rewrite Eq in Hrange. apply Forall_app in Hrange as [Hr _].
    eapply Forall_impl; [exact Hr|]. simpl. intros; lia. }
  destruct (to_word D a (bt_words D a Hb) w Hw) as (n & Hn & Hterm).
  assert (H1 : tr1 <> []).
  { intros ->. simpl in Hcp. apply Hne.
    rewrite <- (concat_code_points w), Hcp. reflexivity. }
  rewrite Hcp, <- (chars_at_drop text i tr1 Hr1) in Hn.
  rewrite (fuzzy_inner_trace_first a maxSkip _ _ _ _ _ _ Hrun tr1 tr2 n Eq H1 H2 Hn) in Hterm.
  discriminate.
Qed.

Lemma findSensitiveWordsFuzzy_first_word_witness :
  code_points str_he <> (fun p => [str_she !!! p]) <$> [0; 1].
Proof.
  destruct (findSensitiveWordsFuzzy_first_word [str_he; str_she] str_she 0)
    as (a & Ha & _ & Hfirst).
  vm_compute in Ha. injection Ha as <-.
  apply (Hfirst (mkMatch str_she 0 2) [0; 1; 2] [0; 1] [2] str_he).
  - vm_compute. apply list_elem_of_singleton. reflexivity.
  - reflexivity.
  - discriminate.
  - apply elem_of_cons. left. reflexivity.
  - discriminate.
Defined.

(** ** The fuzzy scanner covers literal occurrences *)

Lemma cover_inv_init h text k : cover_inv h text k 0 (replicate (length text) 0%Z, []).
Proof.
  split; simpl.
  - intros p Hp. apply lookup_replicate in Hp as [Hp _]. discriminate.
  - intros p Hp. lia.
Qed.

Lemma cover_inv_step h text k i st :
  cover_inv h text k i st -> cover_inv h text k (S i) (fuzzy_step h text k st i).
Proof.
  intros [Hmark Hfound]. destruct st as [active found]. simpl in *.
  unfold fuzzy_step.
  destruct (decide (active !! i = Some 1%Z)) as [Hact|Hact].
  - split; simpl; [exact Hmark|].
    intros p Hp Hrun. destruct (decide (p = i)) as [->|Hne]; [apply Hmark; exact Hact|].
    apply Hfound; [lia | exact Hrun].
  - destruct (fuzzy_inner h k (drop i text) i root 0) as [e|] eqn:He.
    + pose proof (fuzzy_inner_bounds _ _ _ _ _ _ _ He) as Hb.
      split; simpl.
      * intros p Hp. rewrite mark_lookup in Hp.
        destruct (decide (i <= p <= e /\ p < length active)) as [[Hr _]|_].
        -- eexists. split; [apply elem_of_app; right; apply list_elem_of_singleton;
                            reflexivity|]. simpl. lia.
        -- destruct (Hmark p Hp) as (m & Hm & Hin).
           exists m. split; [apply elem_of_app; left; exact Hm | exact Hin].
      * intros p Hp Hrun. destruct (decide (p = i)) as [->|Hne].
        -- eexists. split; [apply elem_of_app; right; apply list_elem_of_singleton;
                            reflexivity|]. simpl. lia.
        -- destruct (Hfound p ltac:(lia) Hrun) as (m & Hm & Hin).
           exists m. split; [apply elem_of_app; left; exact Hm | exact Hin].
    + split; simpl; [exact Hmark|].
      intros p Hp Hrun. destruct (decide (p = i)) as [->|Hne]; [congruence|].
      apply Hfound; [lia | exact Hrun].
Qed.

Lemma cover_inv_loop h text k : forall n i st,
  cover_inv h text k i st ->
  cover_inv h text k (i + n) (fold_left (fuzzy_step h text k) (seq i n) st).
Proof.
  induction n as [|n IH]; intros i st Hinv; simpl.
  - rewrite Nat.add_0_r. exact Hinv.
  - replace (i + S n) with (S i + n) by lia.
    apply IH. apply cover_inv_step. exact Hinv.
Qed.

(** Where the text continues with the units of a path to a terminal node,
    the inner loop finds a word without leaving that part of the text. *)
Lemma fuzzy_inner_literal h k : forall (w : jsstring) cur n rest j s,
  w <> [] -> walk h cur ((fun u => [u]) <$> w) = Some n -> tn_end (h !!! n) = true ->
  exists e, fuzzy_inner h k (w ++ rest) j cur s = Some e /\ j <= e < j + length w.
Proof.
  induction w as [|u w IH]; intros cur n rest j s Hne Hw Hterm; [contradiction|].
  rewrite fmap_cons in Hw. simpl in Hw. simpl.
  destruct (map_get [u] (children (h !!! cur))) as [next|]; [|discriminate].
  destruct (tn_end (h !!! next)) eqn:Hend.
  - exists j. split; [reflexivity | lia].
  - destruct w as [|v w'].
    + simpl in Hw. inversion Hw. subst. congruence.
    + destruct (IH next n rest (S j) 0%Z ltac:(discriminate) Hw Hterm) as (e & He & Hb).
      exists e. split; [exact He|]. simpl in *. lia.
Qed.

(** X16. No literal occurrence escapes the fuzzy scanner, whatever
    [maxSkip] is: where a non-empty dictionary word without lead surrogates
    stands in the text, its first position lies in the span of a returned
    match. *)
Theorem findSensitiveWordsFuzzy_covers_occurrences
    (D : list jsstring) (text : jsstring) (maxSkip : Z) (w l1 l2 : jsstring) :
  w ∈ D -> w <> [] -> Forall (fun u => is_lead u = false) w ->
  text = l1 ++ w ++ l2 ->
  exists a,
    loadSensitiveWords D = Ok a /\
    exists m, m ∈ findSensitiveWordsFuzzy a text maxSkip /\
              (start m <= Z.of_nat (length l1) <= m_end m)%Z.
Proof.
  intros Hw Hne Hwb Htext. destruct (loadSensitiveWords_built D) as (a & Ha & Hb).
  exists a. split; [exact Ha|].
  pose proof (cover_inv_loop a text maxSkip (length text) 0 _
                (cover_inv_init a text maxSkip)) as [_ Hfound].
  apply (Hfound (length l1)).
  - rewrite Htext, !length_app. destruct w; [contradiction | simpl; lia].
  - destruct (to_word D a (bt_words D a Hb) w Hw) as (n & Hn & Hterm).
    rewrite (code_points_bmp w Hwb) in Hn.
    rewrite Htext, drop_app_length.
    destruct (fuzzy_inner_literal a maxSkip w root n l2 (length l1) 0%Z Hne Hn Hterm)
      as (e & He & _).
    rewrite He. discriminate.
Qed.

Lemma findSensitiveWordsFuzzy_covers_occurrences_witness :
  exists a,
    loadSensitiveWords [str_abc; str_bcd] = Ok a /\
    exists m, m ∈ findSensitiveWordsFuzzy a str_xabcdy 5 /\
              (start m <= Z.of_nat (length [120; 97]%Z) <= m_end m)%Z.
Proof.
  apply (findSensitiveWordsFuzzy_covers_occurrences [str_abc; str_bcd] str_xabcdy 5
           str_bcd [120; 97]%Z [121]%Z).
  - apply elem_of_cons. right. apply elem_of_cons. left. reflexivity.
  - discriminate.
  - repeat constructor.
  - reflexivity.
Defined.

(** ** Loading a directory *)

Lemma fold_addLine lines : forall h,
  fold_left addLine lines h =
  fold_left addWord (filter (fun w => w <> []) (trim <$> lines)) h.
Proof.
  induction lines as [|l lines IH]; intros h; [reflexivity|].
  rewrite fmap_cons. simpl fold_left at 1. unfold addLine at 2.
  destruct (trim l) as [|u t] eqn:E.
  - rewrite filter_cons_False by (intros H; apply H; reflexivity). apply IH.
  - rewrite filter_cons_True by discriminate. simpl. apply IH.
Qed.

Lemma fold_loadFile files : forall h,
  fold_left loadFile files h = fold_left addWord (directory_words files) h.
Proof.
  unfold directory_words.
  induction files as [|f files IH]; intros h; [reflexivity|].
  rewrite bind_cons, fold_left_app. simpl fold_left at 1. rewrite IH. f_equal.
  unfold loadFile, file_words. destruct (endsWith f.1 str_dot_txt); [|reflexivity].
  apply fold_addLine.
Qed.

(** Loading a directory is loading the words of its files. *)
Lemma loadSensitiveWords_dir_words files :
  loadSensitiveWords_dir files = loadSensitiveWords (directory_words files).
Proof.
  unfold loadSensitiveWords_dir, loadSensitiveWords, insertWords.
  rewrite fold_loadFile. reflexivity.
Qed.

Lemma directory_words_elem files w :
  w ∈ directory_words files <->
  exists name content line,
    (name, content) ∈ files /\ endsWith name str_dot_txt = true /\
    line ∈ split_lines content /\ trim line = w /\ w <> [].
Proof.
  unfold directory_words. rewrite list_elem_of_bind. split.
  - intros ([name content] & Hw & Hf). unfold file_words in Hw. simpl in Hw.
    destruct (endsWith name str_dot_txt) eqn:E; [|apply elem_of_nil in Hw; contradiction].
    apply list_elem_of_filter in Hw as [Hne Hw].
    apply list_elem_of_fmap in Hw as (line & -> & Hline).
    exists name, content, line. auto.
  - intros (name & content & line & Hf & He & Hline & <- & Hne).
    exists (name, content). split; [|exact Hf].
    unfold file_words. simpl. rewrite He.
    apply list_elem_of_filter. split; [exact Hne|].
    apply list_elem_of_fmap. eauto.
Qed.

(** *** [trim] and [split] *)

Lemma trimStart_suffix s : trimStart s `suffix_of` s.
Proof.
  induction s as [|u t IH]; simpl; [reflexivity|].
  destruct (is_space u); [apply suffix_cons_r; exact IH | reflexivity].
Qed.

Lemma trimStart_head s u : head (trimStart s) = Some u -> is_space u = false.
Proof.
  induction s as [|v t IH]; simpl; [discriminate|].
  destruct (is_space v) eqn:E; [exact IH|].
  simpl. intros [= <-]. exact E.
Qed.

Lemma trimStart_fixed s :
  (forall u, head s = Some u -> is_space u = false) -> trimStart s = s.
Proof.
  destruct s as [|u t]; [reflexivity|]. simpl. intros H.
  rewrite (H u eq_refl). reflexivity.
Qed.

Lemma trimEnd_prefix s : trimEnd s `prefix_of` s.
Proof.
  unfold trimEnd.
  pose proof (proj1 (suffix_prefix_reverse _ _) (trimStart_suffix (reverse s))) as H.
  rewrite reverse_involutive in H. exact H.
Qed.

Lemma trim_last s u : last (trim s) = Some u -> is_space u = false.
Proof.
  unfold trim, trimEnd. rewrite last_reverse. apply trimStart_head.
Qed.

Lemma trim_head s u : head (trim s) = Some u -> is_space u = false.
Proof.
  unfold trim. intros H. apply (trimStart_head s).
  destruct (trimEnd_prefix (trimStart s)) as [k Hk].
  rewrite Hk. destruct (trimEnd (trimStart s)); [discriminate | exact H].
Qed.

Lemma trim_sub s u : u ∈ trim s -> u ∈ s.
Proof.
  unfold trim. intros H.
  destruct (trimEnd_prefix (trimStart s)) as [k Hk].
  destruct (trimStart_suffix s) as [k' Hk'].
  rewrite Hk', Hk. apply elem_of_app. right. apply elem_of_app. left. exact H.
Qed.

Lemma trim_fixed s :
  (forall u, head s = Some u -> is_space u = false) ->
  (forall u, last s = Some u -> is_space u = false) ->
  trim s = s.
Proof.
  intros Hh Hl. unfold trim. rewrite (trimStart_fixed s Hh).
  unfold trimEnd. rewrite trimStart_fixed; [apply reverse_involutive|].
  intros u. rewrite head_reverse. apply Hl.
Qed.

Lemma trim_idempotent s : trim (trim s) = trim s.
Proof. apply trim_fixed; [apply trim_head | apply trim_last]. Qed.

Lemma split_lines_no_feed s l : l ∈ split_lines s -> ~ (0xA%Z ∈ l).
Proof.
  revert l. induction s as [|u t IH]; intros l; simpl.
  - intros H. apply list_elem_of_singleton in H. subst l. apply not_elem_of_nil.
  - destruct (Z.eqb_spec u 0xA) as [->|Hne].
    + intros H. apply elem_of_cons in H as [->|H]; [apply not_elem_of_nil | apply IH; exact H].
    + destruct (split_lines t) as [|l0 ls] eqn:E.
      * intros H. apply list_elem_of_singleton in H. subst l.
        intros H. apply list_elem_of_singleton in H. congruence.
      * intros H. apply elem_of_cons in H as [->|H].
        -- intros H. apply elem_of_cons in H as [H|H]; [congruence|].
           apply (IH l0); [apply elem_of_cons; left; reflexivity | exact H].
        -- apply IH. apply elem_of_cons. right. exact H.
Qed.

(** X17. The automaton loaded from a directory has a terminal node for a
    word exactly when the word is the non-empty [trim()] of a line of a file
    whose name ends in ".txt": files with other names and blank lines add
    nothing. *)
Theorem loadSensitiveWords_dir_terminals (files : list (jsstring * jsstring)) :
  exists a,
    loadSensitiveWords_dir files = Ok a /\
    forall w,
      (exists n, walk a root (code_points w) = Some n /\ tn_end (a !!! n) = true) <->
      (exists name content line,
         (name, content) ∈ files /\ endsWith name str_dot_txt = true /\
         line ∈ split_lines content /\ trim line = w /\ w <> []).
Proof.
  rewrite loadSensitiveWords_dir_words.
  destruct (loadSensitiveWords_built (directory_words files)) as (a & Ha & Hb).
  exists a. split; [exact Ha|]. intros w.
  rewrite <- directory_words_elem. split.
  - intros (n & Hn & He).
    destruct (to_end _ a (bt_words _ a Hb) _ n Hn He) as [(w' & Hw' & Hcp) _].
    replace w with w'; [exact Hw'|].
    rewrite <- (concat_code_points w'), Hcp. apply concat_code_points.
  - apply (to_word _ a (bt_words _ a Hb)).
Qed.

Lemma loadSensitiveWords_dir_terminals_witness :
  exists name content line,
    (name, content) ∈ [(str_w_md, str_abc); (str_w_txt, str_lines)] /\
    endsWith name str_dot_txt = true /\
    line ∈ split_lines content /\ trim line = str_she /\ str_she <> [].
Proof.
  destruct (loadSensitiveWords_dir_terminals [(str_w_md, str_abc); (str_w_txt, str_lines)])
    as (a & Ha & Hiff).
  vm_compute in Ha. injection Ha as <-.
  apply (Hiff str_she). exists 5. split; reflexivity.
Defined.

(** X18. Every word stored by loading a directory is non-empty, has no line
    feed and is its own [trim()], with no white space at either end; the
    root is never a terminal node. *)
Theorem loadSensitiveWords_dir_trimmed (files : list (jsstring * jsstring)) :
  exists a,
    loadSensitiveWords_dir files = Ok a /\
    tn_end (a !!! root) = false /\
    forall w n,
      walk a root (code_points w) = Some n -> tn_end (a !!! n) = true ->
      w <> [] /\ ~ (0xA%Z ∈ w) /\ trim w = w.
Proof.
  rewrite loadSensitiveWords_dir_words.
  destruct (loadSensitiveWords_built (directory_words files)) as (a & Ha & Hb).
  exists a. split; [exact Ha|].
  assert (Hwords : forall w n,
    walk a root (code_points w) = Some n -> tn_end (a !!! n) = true ->
    w <> [] /\ ~ (0xA%Z ∈ w) /\ trim w = w).
  { intros w n Hn He.
    destruct (to_end _ a (bt_words _ a Hb) _ n Hn He) as [(w' & Hw' & Hcp) _].
    assert (w' = w) by (rewrite <- (concat_code_points w'), Hcp; apply concat_code_points).
    subst w'. apply directory_words_elem in Hw'
      as (name & content & line & _ & _ & Hline & <- & Hne).
    split; [exact Hne|]. split; [|apply trim_idempotent].
    intros H. apply trim_sub in H. apply (split_lines_no_feed content line Hline H). }
  split; [|exact Hwords].
  destruct (tn_end (a !!! root)) eqn:E; [|reflexivity].
  destruct (Hwords [] root eq_refl E) as [H _]. contradiction.
Qed.

Lemma loadSensitiveWords_dir_trimmed_witness :
  str_she <> [] /\ ~ (0xA%Z ∈ str_she) /\ trim str_she = str_she.
Proof.
  destruct (loadSensitiveWords_dir_trimmed [(str_w_md, str_abc); (str_w_txt, str_lines)])
    as (a & Ha & _ & Hwords).
  vm_compute in Ha. injection Ha as <-.
  apply (Hwords str_she 5); reflexivity.
Defined.

(** X19. From the dictionary file to the match: if a line of a ".txt" file
    has a non-empty [trim()] and that word stands in a text without lead
    surrogates, the exact scanner on the automaton loaded from the directory
    reports the word with its offsets. *)
Theorem loadSensitiveWords_dir_finds
    (files : list (jsstring * jsstring)) (name content line text l1 l2 : jsstring) :
  (name, content) ∈ files -> endsWith name str_dot_txt = true ->
  line ∈ split_lines content -> trim line <> [] ->
  Forall (fun u => is_lead u = false) text ->
  text = l1 ++ trim line ++ l2 ->
  exists a ms,
    loadSensitiveWords_dir files = Ok a /\ findSensitiveWords a text = Ok ms /\
    mkMatch (trim line) (Z.of_nat (length l1))
            (Z.of_nat (length l1 + length (trim line)) - 1) ∈ ms.
Proof.
  intros Hf He Hline Hne Hbmp Htext.
  rewrite loadSensitiveWords_dir_words.
  destruct (loadSensitiveWords_built (directory_words files)) as (a & Ha & Hb).
  exists a, (scan_spec (directory_words files) text [] (code_points text)).
  split; [exact Ha|]. split; [apply (findSensitiveWords_scan_spec _ a Hb)|].
  apply (scan_spec_occurrence _ a text (trim line) l1 l2 Hb Hbmp); auto.
  apply directory_words_elem. exists name, content, line. auto.
Qed.

Lemma loadSensitiveWords_dir_finds_witness :
  exists a ms,
    loadSensitiveWords_dir [(str_w_md, str_abc); (str_w_txt, str_lines)] = Ok a /\
    findSensitiveWords a str_she = Ok ms /\
    mkMatch (trim str_padded_she) (Z.of_nat (length (@nil Z)))
            (Z.of_nat (length (@nil Z) + length (trim str_padded_she)) - 1) ∈ ms.
Proof.
  apply (loadSensitiveWords_dir_finds [(str_w_md, str_abc); (str_w_txt, str_lines)]
           str_w_txt str_lines str_padded_she str_she [] []).
  - apply elem_of_cons. right. apply elem_of_cons. left. reflexivity.
  - reflexivity.
  - vm_compute. apply elem_of_cons. right. apply elem_of_cons. left. reflexivity.
  - discriminate.
  - repeat constructor.
  - reflexivity.
Defined.

(** ** The fuzzy scanner and the dictionary as a set *)

Lemma built_paths D a p :
  built D a ->
  in_trie a p = true <-> p = [] \/ exists w, w ∈ D /\ p `prefix_of` code_points w.
Proof.
  intros Hb. rewrite <- (in_trie_same_shape _ a p (bt_same D a Hb)).
  apply (insertWords_paths_from D [] [newTrieNode]).
  - apply trie_shape_init.
  - split.
    + intros w Hw. apply elem_of_nil in Hw. contradiction.
    + intros q n. destruct q as [|c q]; simpl; [|discriminate].
      intros [= <-]. discriminate.
  - intros q. split.
    + destruct q as [|c q]; [auto | discriminate].
    + intros [->|(w & Hw & _)]; [reflexivity|].
      apply elem_of_nil in Hw. contradiction.
Qed.

Section SameWords.
Variables (D D' : list jsstring) (a a' : heap).
Hypothesis Hb : built D a.
Hypothesis Hb' : built D' a'.
Hypothesis Hsame : forall w, w ∈ D <-> w ∈ D'.

Lemma same_words_in_trie p : in_trie a p = in_trie a' p.
Proof.
  assert (H : in_trie a p = true <-> in_trie a' p = true).
  { rewrite (built_paths D a p Hb), (built_paths D' a' p Hb'). split.
    - intros [->|(w & Hw & Hp)]; [auto|]. right. exists w. split; [apply Hsame|]; auto.
    - intros [->|(w & Hw & Hp)]; [auto|]. right. exists w. split; [apply Hsame|]; auto. }
  destruct (in_trie a p), (in_trie a' p); try reflexivity.
  - symmetry. apply H. reflexivity.
  - apply H. reflexivity.
Qed.

Lemma same_words_child p cur cur' c :
  walk a root p = Some cur -> walk a' root p = Some cur' ->
  match map_get c (children (a !!! cur)), map_get c (children (a' !!! cur')) with
  | Some next, Some next' =>
      walk a root (p ++ [c]) = Some next /\ walk a' root (p ++ [c]) = Some next' /\
      tn_end (a !!! next) = tn_end (a' !!! next')
  | None, None => True
  | _, _ => False
  end.
Proof.
  intros Hp Hp'.
  pose proof (same_words_in_trie (p ++ [c])) as Hin.
  unfold in_trie in Hin. rewrite !walk_snoc, Hp, Hp' in Hin.
  destruct (map_get c (children (a !!! cur))) as [next|] eqn:E,
           (map_get c (children (a' !!! cur'))) as [next'|] eqn:E';
    try discriminate; [|exact I].
  assert (Hn : walk a root (p ++ [c]) = Some next) by (rewrite walk_snoc, Hp; exact E).
  assert (Hn' : walk a' root (p ++ [c]) = Some next')
    by (rewrite walk_snoc, Hp'; exact E').
  split; [exact Hn|]. split; [exact Hn'|].
  rewrite (tn_end_is_word D a Hb _ next Hn), (tn_end_is_word D' a' Hb' _ next' Hn').
  apply is_word_ext. exact Hsame.
Qed.

Lemma same_words_root p cur cur' :
  walk a root p = Some cur -> walk a' root p = Some cur' ->
  (cur =? root) = (cur' =? root).
Proof.
  intros Hp Hp'. destruct p as [|c p].
  - simpl in Hp, Hp'. inversion Hp. inversion Hp'. reflexivity.
  - pose proof (walk_not_root D a Hb p c cur Hp) as H.
    pose proof (walk_not_root D' a' Hb' p c cur' Hp') as H'.
    apply Nat.eqb_neq in H, H'. congruence.
Qed.

Lemma same_words_fuzzy_inner k : forall rest j p cur cur' s,
  walk a root p = Some cur -> walk a' root p = Some cur' ->
  fuzzy_inner a k rest j cur s = fuzzy_inner a' k rest j cur' s.
Proof.
  induction rest as [|u rest IH]; intros j p cur cur' s Hp Hp'; simpl; [reflexivity|].
  pose proof (same_words_child p cur cur' [u] Hp Hp') as Hc.
  destruct (map_get [u] (children (a !!! cur))) as [next|],
           (map_get [u] (children (a' !!! cur'))) as [next'|]; try contradiction.
  - destruct Hc as (Hn & Hn' & <-).
    destruct (tn_end (a !!! next)); [reflexivity|].
    apply (IH _ (p ++ [[u]])); assumption.
  - rewrite (same_words_root p cur cur' Hp Hp').
    destruct (negb (cur' =? root) && (s <? k)%Z); [|reflexivity].
    apply (IH _ p); assumption.
Qed.

Lemma same_words_fuzzy text k :
  findSensitiveWordsFuzzy a text k = findSensitiveWordsFuzzy a' text k.
Proof.
  unfold findSensitiveWordsFuzzy. f_equal.
  generalize (replicate (length text) 0%Z, @nil Match).
  generalize (seq 0 (length text)).
  induction l as [|i l IH]; intros st; simpl; [reflexivity|].
  rewrite IH. f_equal. unfold fuzzy_step. destruct st as [active found].
  rewrite (same_words_fuzzy_inner k (drop i text) i [] root root 0%Z eq_refl eq_refl).
  reflexivity.
Qed.
End SameWords.

(** X20. The result of the fuzzy scanner depends on the dictionary only as
    a set: two word lists with the same members give the same matches on
    every text and for every [maxSkip], although their automata may number
    the nodes differently. *)
Theorem findSensitiveWordsFuzzy_dictionary_as_set
    (D D' : list jsstring) (text : jsstring) (maxSkip : Z) :
  (forall w, w ∈ D <-> w ∈ D') ->
  exists a a',
    loadSensitiveWords D = Ok a /\ loadSensitiveWords D' = Ok a' /\
    findSensitiveWordsFuzzy a text maxSkip = findSensitiveWordsFuzzy a' text maxSkip.
Proof.
  intros H.
  destruct (loadSensitiveWords_built D) as (a & Ha & Hb).
  destruct (loadSensitiveWords_built D') as (a' & Ha' & Hb').
  exists a, a'. split; [exact Ha|]. split; [exact Ha'|].
  apply (same_words_fuzzy D D' a a' Hb Hb' H).
Qed.

Lemma findSensitiveWordsFuzzy_dictionary_as_set_witness :
  exists a a',
    loadSensitiveWords [str_he; str_she] = Ok a /\
    loadSensitiveWords [str_she; str_he; str_she] = Ok a' /\
    findSensitiveWordsFuzzy a str_she 5 = findSensitiveWordsFuzzy a' str_she 5.
Proof.
  apply (findSensitiveWordsFuzzy_dictionary_as_set
           [str_he; str_she] [str_she; str_he; str_she]).
  intros w. rewrite !elem_of_cons. tauto.
Defined.

(** ** The exact scanner on a longer text *)






(** ** Loading in two rounds *)

Lemma trie_shape_same_shape h h' : same_shape h h' -> trie_shape h -> trie_shape h'.
Proof.
  intros Hss Hs. pose proof Hss as [Hlen Hf].
  assert (Hw : forall n p, walk h' n p = walk h n p)
    by (intros n p; symmetry; apply same_shape_walk; exact Hss).
  split.
  - rewrite <- Hlen. apply (ts_root h Hs).
  - intros n c m. destruct (Hf n) as (<- & _). rewrite <- Hlen. apply (ts_child h Hs).
  - intros n. destruct (Hf n) as (<- & _). apply (ts_nodup h Hs).
  - intros p q n. rewrite !Hw. apply (ts_inj h Hs).
  - intros n. rewrite <- Hlen. intros Hn. destruct (ts_reach h Hs n Hn) as [p Hp].
    exists p. rewrite Hw. exact Hp.
Qed.

Lemma same_shape_update h h' k nd nd' :
  same_shape h h' -> k < length h ->
  children nd = children nd' -> tn_end nd = tn_end nd' -> tn_length nd = tn_length nd' ->
  same_shape (<[k := nd]> h) (<[k := nd']> h').
Proof.
  intros [Hlen Hf] Hk Hc He Hl. split; [rewrite !length_insert; exact Hlen|].
  intros n. rewrite (lookup_update h k nd n Hk), (lookup_update h' k nd' n) by lia.
  destruct (decide (n = k)); [auto | apply Hf].
Qed.

Lemma same_shape_add_leaf h h' n c :
  same_shape h h' -> n < length h -> same_shape (add_leaf h n c) (add_leaf h' n c).
Proof.
  intros [Hlen Hf] Hn. split; [rewrite !length_add_leaf; congruence|].
  intros x. rewrite (lookup_add_leaf h n c x Hn), (lookup_add_leaf h' n c x) by lia.
  destruct (decide (x = n)) as [->|_]; [|apply Hf].
  destruct (Hf n) as (Hc & He & Hl). simpl. rewrite Hc, He, Hl, Hlen. auto.
Qed.

Lemma same_shape_addWord_loop chars : forall h h' node pre,
  trie_shape h -> same_shape h h' -> walk h root pre = Some node ->
  Forall (fun c => c <> []) chars ->
  (addWord_loop h node chars).2 = (addWord_loop h' node chars).2 /\
  same_shape (addWord_loop h node chars).1 (addWord_loop h' node chars).1.
Proof.
  induction chars as [|c chars IH]; intros h h' node pre Hs Hss Hpre Hne; simpl.
  - auto.
  - apply Forall_cons in Hne as [Hc Hne].
    assert (Hnode : node < length h)
      by (apply (walk_lt h root pre node Hs (ts_root h Hs) Hpre)).
    pose proof Hss as [Hlen Hf]. destruct (Hf node) as (Hch & _). rewrite <- Hch.
    destruct (map_get c (children (h !!! node))) as [child|] eqn:Hget.
    + apply (IH h h' child (pre ++ [c])); auto.
      rewrite walk_snoc, Hpre. exact Hget.
    + fold (add_leaf h node c). fold (add_leaf h' node c). rewrite <- Hlen.
      apply (IH (add_leaf h node c) (add_leaf h' node c) (length h) (pre ++ [c])); auto.
      * apply trie_shape_add_leaf; auto.
      * apply same_shape_add_leaf; auto.
      * apply (walk_add_leaf h node c _ root _ Hs Hnode Hget (ts_root h Hs)).
        right. split; [reflexivity|]. exists pre. auto.
Qed.

Lemma same_shape_addWord h h' w :
  trie_shape h -> same_shape h h' -> same_shape (addWord h w) (addWord h' w).
Proof.
  intros Hs Hss. unfold addWord.
  destruct (same_shape_addWord_loop (code_points w) h h' root [] Hs Hss eq_refl
              (code_points_nonempty w)) as [Hn Hss1].
  destruct (addWord_loop_spec (code_points w) h root [] Hs eq_refl
              (code_points_nonempty w)) as (h1 & node & E & Hs1 & Hw & _).
  rewrite E in Hn, Hss1 |- *. simpl in Hn, Hss1.
  destruct (addWord_loop h' root (code_points w)) as [h1' node']. simpl in Hn, Hss1.
  subst node'. destruct Hss1 as [Hlen1 Hf1]. destruct (Hf1 node) as (Hc1 & _).
  apply same_shape_update; [split; assumption | | exact Hc1 | reflexivity | reflexivity].
  apply (walk_lt h1 root _ node Hs1 (ts_root h1 Hs1) Hw).
Qed.

Lemma same_shape_fold_addWord D2 : forall D0 h h',
  trie_shape h -> terminal_ok D0 h -> same_shape h h' ->
  same_shape (fold_left addWord D2 h) (fold_left addWord D2 h').
Proof.
  induction D2 as [|w D2 IH]; intros D0 h h' Hs Ht Hss; simpl; [exact Hss|].
  destruct (addWord_spec D0 h w Hs Ht) as (Hs' & Ht' & _).
  apply (IH (D0 ++ [w])); auto. apply same_shape_addWord; auto.
Qed.

(** X22. Loading in two rounds gives the automaton of one round: adding the
    words [D2] to the automaton already loaded from [D] and running
    [buildFailPointers] again returns exactly what loading [D ++ D2] into a
    new filter returns. *)
Theorem loadSensitiveWords_twice (D D2 : list jsstring) :
  exists a a2,
    loadSensitiveWords D = Ok a /\
    buildFailPointers (fold_left addWord D2 a) = Ok a2 /\
    loadSensitiveWords (D ++ D2) = Ok a2.
Proof.
  destruct (loadSensitiveWords_built D) as (a & Ha & Hb).
  destruct (loadSensitiveWords_built (D ++ D2)) as (a2 & Ha2 & Hb2).
  exists a, a2. split; [exact Ha|]. split; [|exact Ha2].
  destruct (insertWords_spec D) as (Hs & Ht & _).
  pose proof (same_shape_fold_addWord D2 D (insertWords D) a Hs Ht (bt_same D a Hb)) as Hss.
  assert (E : fold_left addWord D2 (insertWords D) = insertWords (D ++ D2))
    by (unfold insertWords; rewrite fold_left_app; reflexivity).
  rewrite E in Hss.
  destruct (insertWords_spec (D ++ D2)) as (Hs2 & _ & _).
  pose proof (trie_shape_same_shape _ _ Hss Hs2) as Hs2'.
  destruct (buildFailPointers_spec _ Hs2') as (a2' & Hbuild & Hss' & Hs'' & Hok).
  rewrite Hbuild. f_equal.
  apply (fail_ok_unique a2' a2 Hs''); [| exact Hok | apply (bt_fail _ a2 Hb2)].
  apply (same_shape_trans a2' (fold_left addWord D2 a) a2);
    [apply same_shape_sym; exact Hss'|].
  apply (same_shape_trans _ (insertWords (D ++ D2)) a2);
    [apply same_shape_sym; exact Hss | apply (bt_same _ a2 Hb2)].
Qed.

(** ** What a fuzzy match spells *)

(** X23. The characters the fuzzy scanner matched for a reported span,
    taken in order and without the skipped ones, are a word of the
    dictionary. *)
Theorem findSensitiveWordsFuzzy_spells_word
    (D : list jsstring) (text : jsstring) (maxSkip : Z) :
  exists a,
    loadSensitiveWords D = Ok a /\
    (findSensitiveWordsFuzzy_trace a text maxSkip).*1
      = findSensitiveWordsFuzzy a text maxSkip /\
    forall m tr,
      (m, tr) ∈ findSensitiveWordsFuzzy_trace a text maxSkip ->
      ((fun p => text !!! p) <$> tr) ∈ D.
Proof.
  destruct (loadSensitiveWords_built D) as (a & Ha & Hb).
  exists a. split; [exact Ha|]. split; [apply findSensitiveWordsFuzzy_erase|].
  intros m tr Hin.
  destruct (findSensitiveWordsFuzzy_trace_run a text maxSkip m tr Hin)
    as (i & e & _ & Hrun & _).
  destruct (fuzzy_inner_trace_range a maxSkip _ _ _ _ _ _ Hrun) as (_ & Hrange & _).
  destruct (fuzzy_inner_trace_walk a maxSkip _ _ _ _ _ _ Hrun) as (n & Hn & Hterm).
  rewrite chars_at_drop in Hn
    by (eapply Forall_impl; [exact Hrange|]; simpl; intros; lia).
  destruct (to_end D a (bt_words D a Hb) _ n Hn Hterm) as [(w & Hw & Hcp) _].
  replace ((fun p => text !!! p) <$> tr) with w; [exact Hw|].
  rewrite <- (concat_code_points w), Hcp.
  rewrite <- (concat_singletons ((fun p => text !!! p) <$> tr)).
  f_equal. rewrite <- list_fmap_compose. reflexivity.
Qed.

Lemma findSensitiveWordsFuzzy_spells_word_witness :
  ((fun p => str_k1i2l3l !!! p) <$> [0; 2; 4; 6]) ∈ [str_kill].
Proof.
  destruct (findSensitiveWordsFuzzy_spells_word [str_kill] str_k1i2l3l 1)
    as (a & Ha & _ & Hspell).
  vm_compute in Ha. injection Ha as <-.
  apply (Hspell (mkMatch str_k1i2l3l 0 6)).
  vm_compute. apply list_elem_of_singleton. reflexivity.
Defined.

(** ** A filter without words *)

Lemma fuzzy_inner_no_children h k rest j s :
  children (h !!! root) = [] -> fuzzy_inner h k rest j root s = None.
Proof.
  intros H. destruct rest as [|u rest]; [reflexivity|].
  simpl. rewrite H. reflexivity.
Qed.

Lemma fuzzy_no_children h text k :
  children (h !!! root) = [] -> findSensitiveWordsFuzzy h text k = [].
Proof.
  intros H. unfold findSensitiveWordsFuzzy.
  assert (Hgen : forall l st, snd (fold_left (fuzzy_step h text k) l st) = snd st).
  { induction l as [|i l IH]; intros st; [reflexivity|].
    cbn [fold_left]. rewrite IH. destruct st as [active found]. unfold fuzzy_step.
    rewrite (fuzzy_inner_no_children h k _ i 0%Z H).
    destruct (decide (active !! i = Some 1%Z)); reflexivity. }
  apply Hgen.
Qed.

(** X24. A filter without words reports nothing: on the new filter, whose
    root has no children and no failure link, and on the automaton loaded
    from an empty dictionary, both scanners return the empty list for every
    text and every [maxSkip], without error. *)
Theorem scan_without_words (text : jsstring) (maxSkip : Z) :
  findSensitiveWords [newTrieNode] text = Ok [] /\
  findSensitiveWordsFuzzy [newTrieNode] text maxSkip = [] /\
  loadSensitiveWords [] = Ok [newTrieNode].
Proof.
  split; [|split; [apply fuzzy_no_children; reflexivity | reflexivity]].
  unfold findSensitiveWords.
  rewrite (scan_loop_unbuilt [newTrieNode] text trie_shape_init).
  - assert (E : existsb (fun c => map_has c (children ([newTrieNode] !!! root)))
                        (code_points text) = false).
    { induction (code_points text) as [|c l IH]; [reflexivity | exact IH]. }
    rewrite E. reflexivity.
  - intros y. destruct y as [|y]; [reflexivity|].
    rewrite lookup_total_default by (simpl; lia). reflexivity.
Qed.

(** ** Worked examples *)

Example scan_she :
  (let* a := loadSensitiveWords [str_he; str_she] in findSensitiveWords a str_she)
  = Ok [ mkMatch str_she 0 2; mkMatch str_he 1 2 ].
Proof. vm_compute. reflexivity. Qed.

Example scan_xabcdy :
  (let* a := loadSensitiveWords [str_abc; str_bcd] in findSensitiveWords a str_xabcdy)
  = Ok [ mkMatch str_abc 1 3; mkMatch str_bcd 2 4 ].
Proof. vm_compute. reflexivity. Qed.

Example fuzzy_kill_1 :
  (let* a := loadSensitiveWords [str_kill] in Ok (findSensitiveWordsFuzzy a str_k1i2l3l 1))
  = Ok [ mkMatch str_k1i2l3l 0 6 ].
Proof. vm_compute. reflexivity. Qed.

Example fuzzy_kill_0 :
  (let* a := loadSensitiveWords [str_kill] in Ok (findSensitiveWordsFuzzy a str_k1i2l3l 0))
  = Ok [].
Proof. vm_compute. reflexivity. Qed.
